(** * tcpdump_service: a supervisor of per-interface capture processes

    A shallow embedding of [tcpdump_service.py] and the properties of its
    supervision loop.  The program is effectful: it spawns processes, opens
    files, sleeps, and is interrupted by signals.  The embedding threads an
    explicit [World] (the heap of [Popen] and file objects, the module-level
    dictionary [processes], a clock and a trace of the calls made) through a
    state-and-exception monad.

    What the operating system answers to each call is read from an [Env],
    an oracle indexed by the number of the call; the theorems hold for
    every oracle.  Signals come from a schedule kept in the world: before
    each call of [main] a checkpoint delivers a signal that is due to
    [handle_sig], which runs in place, as Python runs a handler in the
    main thread between two operations.  Time passes in [sleep] and in
    the bounded [wait] only, and [print] does not fail.  The loop
    [while True] is run for a given number of turns. *)

From Stdlib Require Import String Ascii List ZArith Lia Bool Arith.
From Stdlib Require Import DecimalString.
From Stdlib Require DecimalPos.
Import ListNotations.
Open Scope string_scope.

(* ================================================================== *)
(** ** Python builtins used by the program *)
(* ================================================================== *)

Module Py.

(** [str.isspace] on the code points below 256. *)
Definition is_space (c : ascii) : bool :=
  let n := nat_of_ascii c in
  (((9 <=? n) && (n <=? 13)) || ((28 <=? n) && (n <=? 32))
   || (n =? 133) || (n =? 160))%nat.

Fixpoint lstrip (s : string) : string :=
  match s with
  | String c r => if is_space c then lstrip r else s
  | EmptyString => EmptyString
  end.

Fixpoint rstrip (s : string) : string :=
  match s with
  | String c r =>
      match rstrip r with
      | EmptyString => if is_space c then EmptyString else String c EmptyString
      | r' => String c r'
      end
  | EmptyString => EmptyString
  end.

(** [s.strip()] *)
Definition strip (s : string) : string := rstrip (lstrip s).

(** [s.split(sep)] for a one-character separator: never the empty list. *)
Fixpoint split (sep : ascii) (s : string) : list string :=
  match s with
  | EmptyString => [EmptyString]
  | String c r =>
      if Ascii.eqb c sep then EmptyString :: split sep r
      else match split sep r with
           | h :: t => String c h :: t
           | [] => [String c EmptyString]
           end
  end.

(** [sep.join(l)] *)
Fixpoint join (sep : string) (l : list string) : string :=
  match l with
  | [] => ""
  | [x] => x
  | x :: r => x ++ sep ++ join sep r
  end.

(** Truth value of a string: non-empty. *)
Definition truthy (s : string) : bool := negb (s =? "").

(** [str(n)] for an integer. *)
Definition str (z : Z) : string := NilZero.string_of_int (Z.to_int z).

Definition digit_of (c : ascii) : option Z :=
  let n := nat_of_ascii c in
  if ((48 <=? n) && (n <=? 57))%nat then Some (Z.of_nat (n - 48)) else None.

(** Decimal digits with single underscores between digits. *)
Fixpoint int_digits (s : string) (acc : Z) (after_digit : bool) : option Z :=
  match s with
  | EmptyString => if after_digit then Some acc else None
  | String c r =>
      match digit_of c with
      | Some d => int_digits r (10 * acc + d)%Z true
      | None =>
          if Ascii.eqb c "_" && after_digit then int_digits r acc false
          else None
      end
  end.

(** [int(s)]: [None] stands for [ValueError]. *)
Definition int (s : string) : option Z :=
  match strip s with
  | String "-" r => option_map Z.opp (int_digits r 0 false)
  | String "+" r => int_digits r 0 false
  | r => int_digits r 0 false
  end.

(** The comprehension [[i.strip() for i in s.split(",") if i.strip()]]. *)
Definition comma_list (s : string) : list string :=
  map strip (filter (fun i => truthy (strip i)) (split "," s)).

End Py.

(* ================================================================== *)
(** ** [pathlib] paths (POSIX flavour) *)
(* ================================================================== *)

Module Path.

Record t := mk { root : string; parts : list string }.

Definition parse_root (s : string) : string :=
  match s with
  | String "/" (String "/" (String "/" _)) => "/"
  | String "/" (String "/" _) => "//"
  | String "/" _ => "/"
  | _ => ""
  end.

Definition clean (l : list string) : list string :=
  filter (fun c => negb (c =? "") && negb (c =? ".")) l.

(** [Path(s)] *)
Definition of_string (s : string) : t :=
  mk (parse_root s) (clean (Py.split "/" s)).

(** [p / s]: an absolute right operand replaces the left one. *)
Definition div (p : t) (s : string) : t :=
  let q := of_string s in
  if root q =? "" then mk (root p) (parts p ++ parts q) else q.

(** [str(p)] *)
Definition to_string (p : t) : string :=
  match root p, parts p with
  | EmptyString, [] => "."
  | r, ps => r ++ Py.join "/" ps
  end.

End Path.

(* ================================================================== *)
(** ** Configuration: the module-level constants *)
(* ================================================================== *)

Definition CONFIG_FILE : string := "/etc/tcpdump_service.conf".

(** A section as [configparser] presents it: option names and values. *)
Definition Section_ := list (string * string).

Fixpoint lookup {V : Type} (k : string) (d : list (string * V)) : option V :=
  match d with
  | [] => None
  | (k', v) :: r => if k =? k' then Some v else lookup k r
  end.

(** [settings.get(option, fallback)] *)
Definition get (settings : Section_) (opt fallback : string) : string :=
  match lookup opt settings with
  | Some v => v
  | None => fallback
  end.

(** [settings.getint(option, fallback)]; [None] stands for [ValueError]. *)
Definition getint (settings : Section_) (opt : string) (fallback : Z)
  : option Z :=
  match lookup opt settings with
  | Some v => Py.int v
  | None => Some fallback
  end.

Record Config := mkConfig {
  INTERFACES : list string;
  OUTPUT_DIR : Path.t;
  TCPDUMP_BIN : string;
  ROTATE_SIZE_MB : Z;
  MAX_ROTATED_FILES : Z;
  EXTRA_ARGS : list string
}.

(** Lines 29 to 34: the constants read from the [settings] section. *)
Definition load_settings (settings : Section_) : option Config :=
  match getint settings "rotate_size_mb" 100,
        getint settings "max_rotated_files" 20 with
  | Some rot, Some maxf =>
      Some (mkConfig
              (Py.comma_list (get settings "interfaces" ""))
              (Path.of_string (get settings "output_dir" "/var/log/tcpdump"))
              (get settings "tcpdump_bin" "/usr/bin/tcpdump")
              rot maxf
              (Py.comma_list (get settings "extra_args" "")))
  | _, _ => None
  end.

(* ================================================================== *)
(** ** The command builder *)
(* ================================================================== *)

Section Builder.
Variable cfg : Config.

(** [build_cmd(interface, out_base)] *)
Definition build_cmd (interface : string) (out_base : Path.t) : list string :=
  let outfile := Path.to_string (Path.div out_base (interface ++ ".pcap")) in
  let cmd :=
    [ TCPDUMP_BIN cfg;
      "-i"; interface;
      "-s"; "0";
      "-w"; outfile;
      "-C"; Py.str (ROTATE_SIZE_MB cfg);
      "-W"; Py.str (MAX_ROTATED_FILES cfg) ] in
  cmd ++ EXTRA_ARGS cfg.

(** The path of a unit's diagnostic log,
    [OUTPUT_DIR / f"{iface}.stderr.log"]. *)
Definition stderr_path (iface : string) : string :=
  Path.to_string (Path.div (OUTPUT_DIR cfg) (iface ++ ".stderr.log")).
End Builder.

(* ================================================================== *)
(** ** The world the program runs in *)
(* ================================================================== *)

(** Exceptions the program meets.  [KeyboardInterrupt] and [SystemExit]
    derive from [BaseException] only, the others from [Exception]. *)
Inductive exn :=
| OSError
| TimeoutExpired (timeout : nat)
| KeyError (key : string)
| ValueError
| ParsingError
| KeyboardInterrupt
| SystemExit (code : Z).

Definition is_Exception (e : exn) : bool :=
  match e with
  | KeyboardInterrupt | SystemExit _ => false
  | _ => true
  end.

Definition is_TimeoutExpired (e : exn) : bool :=
  match e with TimeoutExpired _ => true | _ => false end.

Definition is_KeyboardInterrupt (e : exn) : bool :=
  match e with KeyboardInterrupt => true | _ => false end.

(** [str(e)], as far as the log lines need it. *)
Definition exn_str (e : exn) : string :=
  match e with
  | OSError => "OSError"
  | TimeoutExpired t =>
      "Command timed out after " ++ Py.str (Z.of_nat t) ++ " seconds"
  | KeyError k => "'" ++ k ++ "'"
  | ValueError => "invalid literal for int()"
  | ParsingError => "Source contains parsing errors"
  | KeyboardInterrupt => ""
  | SystemExit c => Py.str c
  end.

Definition SIGINT : Z := 2.
Definition SIGTERM : Z := 15.

(** Where a child's standard stream goes; a file is named by its index
    in the heap of file objects. *)
Inductive Redirect := DEVNULL | ToFile (f : nat) | Inherit.

(** A [subprocess.Popen] object. *)
Record Popen := mkPopen {
  pid : nat;
  args : list string;
  stdout : Redirect;
  stderr : Redirect;
  returncode : option Z
}.

(** A file object returned by [open]. *)
Record FileObj := mkFile {
  f_name : string;
  f_mode : string;
  closed : bool
}.

(** What a bounded [wait] can end in. *)
Inductive WaitResult := Returned (code : Z) | TimedOut | WaitFailed.

(** The calls the program makes, with what they returned. *)
Inductive Event :=
| EPrint (line : string)
| EPrintErr (line : string)
| ESleep (secs : nat)
| EOpen (path mode : string) (res : option nat)
| EPopen (cmd : list string) (out err : Redirect) (res : option nat)
| EPoll (p : nat) (res : option Z)
| ETerminate (p : nat) (ok : bool)
| EKill (p : nat) (ok : bool)
| EWait (p : nat) (timeout : nat) (res : WaitResult)
| EClose (f : nat) (ok : bool)
| EExists (path : string) (res : bool)
| EMkdir (path : string) (ok : bool)
| ESetItem (key : string) (p f : nat)
| EClear
| ESignal (signum : Z).

(** What [config.read(CONFIG_FILE)] finds. *)
Inductive ConfigFile :=
| Unreadable
| Malformed
| Parsed (sections : list (string * Section_)).

(** The environment: the configuration file and, for the [k]-th call the
    program makes, what the operating system answers to it. *)
Record Env := mkEnv {
  config_file : ConfigFile;
  os_open : nat -> bool;
  os_spawn : nat -> option nat;
  os_poll : nat -> option Z;
  os_signal : nat -> bool;
  os_wait : nat -> WaitResult;
  os_elapsed : nat -> nat;
  os_close : nat -> bool;
  os_exists : nat -> bool;
  os_mkdir : nat -> bool
}.

(** The registry [processes]: a dictionary from interface name to the
    pair (process, diagnostic sink), in insertion order. *)
Definition Registry := list (string * (nat * nat)).

Record World := mkWorld {
  popens : list Popen;
  files : list FileObj;
  processes : Registry;
  trace : list Event;
  clock : nat;
  tick : nat;
  sigs : list (nat * Z)
}.

Definition empty_world (pending : list (nat * Z)) : World :=
  mkWorld [] [] [] [] 0 0 pending.

Definition set_popens (l : list Popen) (w : World) : World :=
  mkWorld l (files w) (processes w) (trace w) (clock w) (tick w) (sigs w).
Definition set_files (l : list FileObj) (w : World) : World :=
  mkWorld (popens w) l (processes w) (trace w) (clock w) (tick w) (sigs w).
Definition set_processes (d : Registry) (w : World) : World :=
  mkWorld (popens w) (files w) d (trace w) (clock w) (tick w) (sigs w).
Definition emit (e : Event) (w : World) : World :=
  mkWorld (popens w) (files w) (processes w) (trace w ++ [e]) (clock w)
          (tick w) (sigs w).
Definition advance (n : nat) (w : World) : World :=
  mkWorld (popens w) (files w) (processes w) (trace w) (clock w + n)
          (tick w) (sigs w).
Definition set_tick (k : nat) (w : World) : World :=
  mkWorld (popens w) (files w) (processes w) (trace w) (clock w) k (sigs w).
Definition set_sigs (l : list (nat * Z)) (w : World) : World :=
  mkWorld (popens w) (files w) (processes w) (trace w) (clock w) (tick w) l.

(** [d[k] = v] on an insertion-ordered dictionary: an existing key keeps
    its place, a new key goes to the end. *)
Fixpoint dict_set {V : Type} (k : string) (v : V) (d : list (string * V))
  : list (string * V) :=
  match d with
  | [] => [(k, v)]
  | (k', v') :: r => if k =? k' then (k, v) :: r else (k', v') :: dict_set k v r
  end.

Definition keys {V : Type} (d : list (string * V)) : list string := map fst d.

(** Replace the [n]-th element of a list; nothing out of range. *)
Fixpoint update {A : Type} (n : nat) (f : A -> A) (l : list A) : list A :=
  match l, n with
  | [], _ => []
  | x :: r, O => f x :: r
  | x :: r, S n' => x :: update n' f r
  end.

(** [p.returncode], for the process [p] of a heap of [Popen] objects. *)
Definition returncode_of (heap : list Popen) (p : nat) : option Z :=
  match nth_error heap p with
  | Some o => returncode o
  | None => None
  end.

Definition set_returncode (p : nat) (c : Z) (w : World) : World :=
  set_popens
    (update p (fun o => mkPopen (pid o) (args o) (stdout o) (stderr o) (Some c))
            (popens w)) w.

Definition mark_closed (f : nat) (w : World) : World :=
  set_files (update f (fun o => mkFile (f_name o) (f_mode o) true) (files w)) w.

(** [f.closed], for the file [f] of a heap of file objects. *)
Definition is_closed (heap : list FileObj) (f : nat) : bool :=
  match nth_error heap f with
  | Some o => closed o
  | None => true
  end.

(* ================================================================== *)
(** ** The monad: state passing with exceptions *)
(* ================================================================== *)

Inductive Outcome (A : Type) :=
| Ok (a : A)
| Raise (e : exn).
Arguments Ok {A} a.
Arguments Raise {A} e.

Definition M (A : Type) : Type := World -> Outcome A * World.

Definition ret {A : Type} (a : A) : M A := fun w => (Ok a, w).

Definition raise {A : Type} (e : exn) : M A := fun w => (Raise e, w).

Definition bind {A B : Type} (c : M A) (k : A -> M B) : M B :=
  fun w =>
    match c w with
    | (Ok a, w') => k a w'
    | (Raise e, w') => (Raise e, w')
    end.

Declare Scope py_scope.
Delimit Scope py_scope with py.
Notation "x <- c ;; k" := (bind c (fun x => k))
  (at level 61, c at next level, right associativity) : py_scope.
Notation "c ;; k" := (bind c (fun _ => k))
  (at level 61, right associativity) : py_scope.
Open Scope py_scope.

(** [try: body / except E: handler], for the class of exceptions [catches]. *)
Definition try_except {A : Type} (catches : exn -> bool)
           (body : M A) (handler : exn -> M A) : M A :=
  fun w =>
    match body w with
    | (Ok a, w') => (Ok a, w')
    | (Raise e, w') => if catches e then handler e w' else (Raise e, w')
    end.

(** [try: body / finally: fin]: [fin] always runs; an exception it raises
    replaces the outcome of [body]. *)
Definition try_finally {A : Type} (body : M A) (fin : M unit) : M A :=
  fun w =>
    match body w with
    | (r, w') =>
        match fin w' with
        | (Ok _, w'') => (r, w'')
        | (Raise e, w'') => (Raise e, w'')
        end
    end.

(** [for x in l: body x] *)
Fixpoint for_each {A : Type} (l : list A) (body : A -> M unit) : M unit :=
  match l with
  | [] => ret tt
  | x :: r => body x ;; for_each r body
  end.

(** [sys.exit(code)] *)
Definition sys_exit {A : Type} (code : Z) : M A := raise (SystemExit code).

(** The exit status of the interpreter: [None] while the program has not
    ended, the code of [SystemExit], 130 for an uncaught
    [KeyboardInterrupt] (the interpreter then dies of SIGINT) and 1 for
    any other uncaught exception. *)
Definition exit_status {A : Type} (r : Outcome A) : option Z :=
  match r with
  | Ok _ => None
  | Raise (SystemExit c) => Some c
  | Raise KeyboardInterrupt => Some 130%Z
  | Raise _ => Some 1%Z
  end.

(* ================================================================== *)
(** ** The calls of the program *)
(* ================================================================== *)

(** One call: it takes the next number [k], under which the environment
    is asked for its answer. *)
Definition step {A : Type} (act : nat -> World -> Outcome A * World) : M A :=
  fun w => act (tick w) (set_tick (S (tick w)) w).

(** [p.pid] *)
Definition pid_of (p : nat) : M nat :=
  fun w => (Ok (match nth_error (popens w) p with
                | Some o => pid o
                | None => O
                end), w).

(** [processes.items()], as read when the loop starts: the loops over it
    assign to keys that are present only, and a handler that clears the
    dictionary does not return. *)
Definition items : M Registry := fun w => (Ok (processes w), w).

Section Supervisor.
Variable env : Env.
Variable cfg : Config.

(** What runs between two calls of the main thread: the delivery of a
    pending signal to its handler, once handlers are installed. *)
Variable checkpoint : M unit.

Definition prim {A : Type} (act : nat -> World -> Outcome A * World) : M A :=
  checkpoint ;; step act.

Definition print (line : string) : M unit :=
  prim (fun _ w => (Ok tt, emit (EPrint line) w)).

Definition print_err (line : string) : M unit :=
  prim (fun _ w => (Ok tt, emit (EPrintErr line) w)).

(** [time.sleep(secs)] *)
Definition sleep (secs : nat) : M unit :=
  prim (fun _ w => (Ok tt, advance secs (emit (ESleep secs) w))).

(** [open(path, mode)]: a new file object, or [OSError]. *)
Definition open_ (path mode : string) : M nat :=
  prim (fun k w =>
    if os_open env k then
      let f := length (files w) in
      (Ok f, emit (EOpen path mode (Some f))
                  (set_files (files w ++ [mkFile path mode false]) w))
    else (Raise OSError, emit (EOpen path mode None) w)).

(** [subprocess.Popen(cmd, stdout=out, stderr=err)] *)
Definition Popen_ (cmd : list string) (out err : Redirect) : M nat :=
  prim (fun k w =>
    match os_spawn env k with
    | Some n =>
        let p := length (popens w) in
        (Ok p, emit (EPopen cmd out err (Some p))
                    (set_popens (popens w ++ [mkPopen n cmd out err None]) w))
    | None => (Raise OSError, emit (EPopen cmd out err None) w)
    end).

(** What [p.poll()] finds when it is call number [k]: a return code
    already recorded, or what the environment reports. *)
Definition exit_seen (k : nat) (heap : list Popen) (p : nat) : option Z :=
  match returncode_of heap p with
  | Some c => Some c
  | None => os_poll env k
  end.

(** [p.poll()] *)
Definition poll (p : nat) : M (option Z) :=
  prim (fun k w =>
    match exit_seen k (popens w) p with
    | Some c => (Ok (Some c), emit (EPoll p (Some c)) (set_returncode p c w))
    | None => (Ok None, emit (EPoll p None) w)
    end).

(** [p.terminate()] and [p.kill()]: nothing is sent to a process whose
    return code is known. *)
Definition send_signal (ev : nat -> bool -> Event) (p : nat) : M unit :=
  prim (fun k w =>
    match returncode_of (popens w) p with
    | Some _ => (Ok tt, emit (ev p true) w)
    | None =>
        if os_signal env k then (Ok tt, emit (ev p true) w)
        else (Raise OSError, emit (ev p false) w)
    end).

Definition terminate (p : nat) : M unit := send_signal ETerminate p.
Definition kill (p : nat) : M unit := send_signal EKill p.

(** [p.wait(timeout=timeout)] *)
Definition wait (p : nat) (timeout : nat) : M Z :=
  prim (fun k w =>
    match returncode_of (popens w) p with
    | Some c => (Ok c, emit (EWait p timeout (Returned c)) w)
    | None =>
        match os_wait env k with
        | Returned c =>
            (Ok c, advance (Nat.min (os_elapsed env k) timeout)
                     (emit (EWait p timeout (Returned c))
                           (set_returncode p c w)))
        | TimedOut =>
            (Raise (TimeoutExpired timeout),
             advance timeout (emit (EWait p timeout TimedOut) w))
        | WaitFailed =>
            (Raise OSError,
             advance (Nat.min (os_elapsed env k) timeout)
                     (emit (EWait p timeout WaitFailed) w))
        end
    end).

(** [f.close()]: closing a closed file does nothing; a failing close
    still leaves the file closed. *)
Definition close (f : nat) : M unit :=
  prim (fun k w =>
    if is_closed (files w) f then (Ok tt, emit (EClose f true) w)
    else if os_close env k then (Ok tt, emit (EClose f true) (mark_closed f w))
    else (Raise OSError, emit (EClose f false) (mark_closed f w))).

(** [Path(path).exists()] *)
Definition path_exists (path : string) : M bool :=
  prim (fun k w => (Ok (os_exists env k), emit (EExists path (os_exists env k)) w)).

(** [Path(path).mkdir(parents=True, exist_ok=True)] *)
Definition mkdir (path : string) : M unit :=
  prim (fun k w =>
    if os_mkdir env k then (Ok tt, emit (EMkdir path true) w)
    else (Raise OSError, emit (EMkdir path false) w)).

(** [processes[iface] = (p, f_err)] *)
Definition setitem (iface : string) (p f_err : nat) : M unit :=
  prim (fun _ w =>
    (Ok tt, emit (ESetItem iface p f_err)
                 (set_processes (dict_set iface (p, f_err) (processes w)) w))).

(** [processes.clear()] *)
Definition clear : M unit :=
  prim (fun _ w => (Ok tt, emit EClear (set_processes [] w))).

(* ---------------------------------------------------------------- *)
(** *** The log lines *)

Definition started_line (iface : string) (n : nat) : string :=
  "Started tcpdump for " ++ iface ++ " (pid " ++ Py.str (Z.of_nat n)
  ++ "), writing to " ++ Path.to_string (OUTPUT_DIR cfg) ++ "/" ++ iface
  ++ ".pcap*".

Definition stopping_line (iface : string) (n : nat) : string :=
  "Stopping tcpdump for " ++ iface ++ " (pid " ++ Py.str (Z.of_nat n) ++ ")".

Definition error_line (iface : string) (e : exn) : string :=
  "Error stopping " ++ iface ++ ": " ++ exn_str e.

Definition received_line (signum : Z) : string :=
  "Received signal " ++ Py.str signum ++ ", shutting down...".

Definition exited_line (iface : string) (code : Z) : string :=
  "tcpdump for " ++ iface ++ " exited with code " ++ Py.str code
  ++ "; restarting in 2s...".

Definition restarted_line (iface : string) (n : nat) : string :=
  "Restarted tcpdump for " ++ iface ++ " (pid " ++ Py.str (Z.of_nat n) ++ ")".

(* ---------------------------------------------------------------- *)
(** *** [start_all] *)

(** The body of the loop of [start_all]. *)
Definition start_one (iface : string) : M unit :=
  let cmd := build_cmd cfg iface (OUTPUT_DIR cfg) in
  f_err <- open_ (stderr_path cfg iface) "ab" ;;
  p <- Popen_ cmd DEVNULL (ToFile f_err) ;;
  setitem iface p f_err ;;
  n <- pid_of p ;;
  print (started_line iface n).

Definition start_all : M unit := for_each (INTERFACES cfg) start_one.

(* ---------------------------------------------------------------- *)
(** *** [stop_all] *)

(** The body of the loop of [stop_all], for one entry of the registry. *)
Definition stop_one (unit_ : string * (nat * nat)) : M unit :=
  let iface := fst unit_ in
  let p := fst (snd unit_) in
  let f_err := snd (snd unit_) in
  try_finally
    (try_except is_Exception
       (n <- pid_of p ;;
        print (stopping_line iface n) ;;
        terminate p ;;
        try_except is_TimeoutExpired
          (wait p 5 ;; ret tt)
          (fun _ => kill p ;; wait p 5 ;; ret tt))
       (fun e => print (error_line iface e)))
    (try_except is_Exception (close f_err) (fun _ => ret tt)).

Definition stop_all : M unit :=
  l <- items ;;
  for_each l stop_one ;;
  clear.

(* ---------------------------------------------------------------- *)
(** *** [handle_sig] *)

Definition handle_sig (signum : Z) : M unit :=
  print (received_line signum) ;;
  stop_all ;;
  sys_exit 0.

(* ---------------------------------------------------------------- *)
(** *** The monitoring loop of [main] *)

(** Lines 115 to 125: what follows the detection of an exit. *)
Definition restart (iface : string) (f_err : nat) (code : Z) : M unit :=
  print (exited_line iface code) ;;
  try_except is_Exception (close f_err) (fun _ => ret tt) ;;
  sleep 2 ;;
  let cmd := build_cmd cfg iface (OUTPUT_DIR cfg) in
  f_err' <- open_ (stderr_path cfg iface) "ab" ;;
  newp <- Popen_ cmd DEVNULL (ToFile f_err') ;;
  setitem iface newp f_err' ;;
  n <- pid_of newp ;;
  print (restarted_line iface n).

(** The body of the [for] loop of [main], for one entry. *)
Definition check_unit (unit_ : string * (nat * nat)) : M unit :=
  let iface := fst unit_ in
  let p := fst (snd unit_) in
  let f_err := snd (snd unit_) in
  r <- poll p ;;
  match r with
  | Some code => restart iface f_err code
  | None => ret tt
  end.

(** One turn of [while True]: the pass over a copy of the registry,
    then the pause. *)
Definition monitor_pass : M unit :=
  l <- items ;;
  for_each l check_unit ;;
  sleep 1.

(** [n] turns of [while True]. *)
Fixpoint monitor_loop (n : nat) : M unit :=
  match n with
  | O => ret tt
  | S n' => monitor_pass ;; monitor_loop n'
  end.

(** [main()], with the loop run for [n] turns; the two calls of
    [signal.signal] are what makes [checkpoint] deliver signals to
    [handle_sig]. *)
Definition main (n : nat) : M unit :=
  bin <- path_exists (Path.to_string (Path.of_string (TCPDUMP_BIN cfg))) ;;
  (if negb bin then
     print_err ("tcpdump binary not found at " ++ TCPDUMP_BIN cfg) ;;
     sys_exit 2
   else ret tt) ;;
  dir <- path_exists (Path.to_string (OUTPUT_DIR cfg)) ;;
  (if negb dir then
     try_except is_Exception
       (mkdir (Path.to_string (OUTPUT_DIR cfg)))
       (fun e =>
          print_err ("Failed to create output dir "
                     ++ Path.to_string (OUTPUT_DIR cfg) ++ ": " ++ exn_str e) ;;
          sys_exit 2)
   else ret tt) ;;
  start_all ;;
  try_except is_KeyboardInterrupt
    (monitor_loop n)
    (fun _ => handle_sig SIGINT).

End Supervisor.

(* ================================================================== *)
(** ** Signals *)
(* ================================================================== *)

(** The delivery of a signal: the first pending signal whose time has
    come is taken off the schedule and its handler runs in the main
    thread, at this point of the program. *)
Definition deliver (handler : Z -> M unit) : M unit :=
  fun w =>
    match sigs w with
    | (t, s) :: rest =>
        if (t <=? tick w)%nat
        then handler s (emit (ESignal s) (set_sigs rest w))
        else (Ok tt, w)
    | [] => (Ok tt, w)
    end.

(** Handlers can nest: a signal may arrive while [handle_sig] runs.  The
    depth bounds the nesting; a depth of the number of pending signals
    loses nothing. *)
Fixpoint checkpoint_at (env : Env) (depth : nat) : M unit :=
  match depth with
  | O => ret tt
  | S d => deliver (handle_sig env (checkpoint_at env d))
  end.

(* ================================================================== *)
(** ** The module body and the whole program *)
(* ================================================================== *)

(** Lines 21 to 39, run before handlers are installed. *)
Definition module_init (env : Env) : M Config :=
  match config_file env with
  | Unreadable =>
      print_err (ret tt)
        ("Error: could not read config file " ++ CONFIG_FILE) ;;
      sys_exit 1
  | Malformed => raise ParsingError
  | Parsed sections =>
      match lookup "settings" sections with
      | None => raise (KeyError "settings")
      | Some settings =>
          match load_settings settings with
          | None => raise ValueError
          | Some cfg =>
              mkdir env (ret tt) (Path.to_string (OUTPUT_DIR cfg)) ;;
              (fun w => (Ok cfg, set_processes [] w))
          end
      end
  end.

(** The script, with the loop of [main] run for [n] turns. *)
Definition program (env : Env) (n : nat) : M unit :=
  cfg <- module_init env ;;
  (fun w => main env cfg (checkpoint_at env (length (sigs w))) n w).

(* ================================================================== *)
(** ** Sample configurations and environments *)
(* ================================================================== *)

Definition sample_settings : Section_ :=
  [ ("interfaces", "eth0, eth1, wlan0");
    ("output_dir", "/var/log/tcpdump");
    ("extra_args", "-n, -tttt") ].

Definition sample_cfg : Config :=
  mkConfig ["eth0"; "eth1"; "wlan0"] (Path.of_string "/var/log/tcpdump")
           "/usr/bin/tcpdump" 100 20 ["-n"; "-tttt"].

(** Every call succeeds, no child exits by itself, a child asked to
    terminate exits at once. *)
Definition calm_env : Env :=
  mkEnv (Parsed [("settings", sample_settings)])
        (fun _ => true) (fun k => Some (4000 + k)) (fun _ => None)
        (fun _ => true) (fun _ => Returned 0) (fun _ => 1)
        (fun _ => true) (fun _ => true) (fun _ => true).

(** As [calm_env], but no child ever answers a wait, one request in three
    is refused and no file closes cleanly. *)
Definition stubborn_env : Env :=
  mkEnv (Parsed [("settings", sample_settings)])
        (fun _ => true) (fun k => Some (4000 + k)) (fun _ => None)
        (fun k => negb (k mod 3 =? 0)%nat) (fun _ => TimedOut) (fun _ => 1)
        (fun _ => false) (fun _ => true) (fun _ => true).

(** As [calm_env], but every child is found exited, with code 1, each
    time it is polled. *)
Definition crashing_env : Env :=
  mkEnv (Parsed [("settings", sample_settings)])
        (fun _ => true) (fun k => Some (4000 + k)) (fun _ => Some 1%Z)
        (fun _ => true) (fun _ => Returned 0) (fun _ => 1)
        (fun _ => true) (fun _ => true) (fun _ => true).


(** As [calm_env], but call number 16 (in a run of the whole script, the
    first poll of the second child) finds an exit with code 1. *)
Definition flaky_env : Env :=
  mkEnv (Parsed [("settings", sample_settings)])
        (fun _ => true) (fun k => Some (4000 + k))
        (fun k => if (k =? 16)%nat then Some 1%Z else None)
        (fun _ => true) (fun _ => Returned 0) (fun _ => 1)
        (fun _ => true) (fun _ => true) (fun _ => true).

(** As [calm_env], but the output directory cannot be created. *)
Definition readonly_env : Env :=
  mkEnv (Parsed [("settings", sample_settings)])
        (fun _ => true) (fun k => Some (4000 + k)) (fun _ => None)
        (fun _ => true) (fun _ => Returned 0) (fun _ => 1)
        (fun _ => true) (fun _ => true) (fun _ => false).

(** The same interface named twice. *)
Definition dup_settings : Section_ := [("interfaces", "eth0,eth0")].

Definition dup_cfg : Config :=
  mkConfig ["eth0"; "eth0"] (Path.of_string "/var/log/tcpdump")
           "/usr/bin/tcpdump" 100 20 [].


(** The world after [start_all] in the calm environment. *)
Definition started_world : World :=
  snd (start_all calm_env sample_cfg (ret tt) (empty_world [])).

(* ================================================================== *)
(** ** Observations on traces *)
(* ================================================================== *)

Open Scope list_scope.

Definition handle_of (u : string * (nat * nat)) : nat := fst (snd u).
Definition sink_of (u : string * (nat * nat)) : nat := snd (snd u).

(** The files closed, in order. *)
Definition closes (evs : list Event) : list nat :=
  flat_map (fun e => match e with EClose f _ => [f] | _ => [] end) evs.

(** The processes asked to terminate, in order. *)
Definition terminates (evs : list Event) : list nat :=
  flat_map (fun e => match e with ETerminate p _ => [p] | _ => [] end) evs.

(** The time the bounded waits of a trace can take together. *)
Fixpoint waited (evs : list Event) : nat :=
  match evs with
  | [] => 0
  | EWait _ t _ :: r => t + waited r
  | _ :: r => waited r
  end.

Definition is_signal (e : Event) : bool :=
  match e with ESignal _ => true | _ => false end.

(** Events of the monitoring loop: none of them belongs to a shutdown. *)
Definition is_launch (e : Event) : bool :=
  match e with
  | EOpen _ _ _ | EPopen _ _ _ _ | ESetItem _ _ _ | EPoll _ _ | ESleep _ => true
  | _ => false
  end.

(** The indices of the files of a heap that are open. *)
Fixpoint open_handles_from (n : nat) (heap : list FileObj) : list nat :=
  match heap with
  | [] => []
  | o :: r => if closed o then open_handles_from (S n) r
              else n :: open_handles_from (S n) r
  end.

Definition open_handles (heap : list FileObj) : list nat :=
  open_handles_from 0 heap.

(** The process whose restart is under way at the end of a trace: the
    last exit detected by [poll] that no assignment to the registry has
    followed. *)
Fixpoint restarting (cur : option nat) (evs : list Event) : option nat :=
  match evs with
  | [] => cur
  | EPoll p (Some _) :: r => restarting (Some p) r
  | ESetItem _ _ _ :: r => restarting None r
  | _ :: r => restarting cur r
  end.

(** A shutdown interleaves with a restart when a signal is delivered
    while a restart is under way. *)
Fixpoint interleaved (cur : option nat) (evs : list Event) : bool :=
  match evs with
  | [] => false
  | ESignal _ :: r =>
      match cur with
      | Some _ => true
      | None => interleaved cur r
      end
  | EPoll p (Some _) :: r => interleaved (Some p) r
  | ESetItem _ _ _ :: r => interleaved None r
  | _ :: r => interleaved cur r
  end.

(** A name without a path separator. *)
Fixpoint plain (s : string) : bool :=
  match s with
  | EmptyString => true
  | String c r => negb (Ascii.eqb c "/") && plain r
  end.

(** The registry [start_all] builds from the names [l], when the next
    process and the next file get the indices [P] and [F]. *)
Fixpoint registry_after (l : list string) (P F : nat) (d : Registry) : Registry :=
  match l with
  | [] => d
  | i :: r => registry_after r (S P) (S F) (dict_set i (P, F) d)
  end.

Section Shapes.
Variable cfg : Config.

(** The process objects [start_all] creates for the names [l], the
    first of them writing its errors to the file [F]. *)
Fixpoint launched (l : list string) (F : nat) (new : list Popen) : Prop :=
  match l, new with
  | [], [] => True
  | i :: r, o :: new' =>
      args o = build_cmd cfg i (OUTPUT_DIR cfg) /\ stdout o = DEVNULL
      /\ stderr o = ToFile F /\ returncode o = None
      /\ launched r (S F) new'
  | _, _ => False
  end.

(** The file objects [start_all] creates for the names [l]. *)
Definition sinks_for (l : list string) : list FileObj :=
  map (fun i => mkFile (stderr_path cfg i) "ab" false) l.
End Shapes.

(** The calls [stop_all] makes for one unit: the log line, the request to
    terminate, a wait of at most 5, on a timeout the kill and a second
    wait of at most 5, the line of the error if one was raised, and at
    the end, in every case, the close of the sink. *)
Section StopShape.
Variables (iface : string) (p f : nat).

Inductive stop_seq : list Event -> Prop :=
| stop_graceful n c okc :
    stop_seq [EPrint (stopping_line iface n); ETerminate p true;
              EWait p 5 (Returned c); EClose f okc]
| stop_terminate_error n okc :
    stop_seq [EPrint (stopping_line iface n); ETerminate p false;
              EPrint (error_line iface OSError); EClose f okc]
| stop_wait_error n okc :
    stop_seq [EPrint (stopping_line iface n); ETerminate p true;
              EWait p 5 WaitFailed;
              EPrint (error_line iface OSError); EClose f okc]
| stop_killed n c okc :
    stop_seq [EPrint (stopping_line iface n); ETerminate p true;
              EWait p 5 TimedOut; EKill p true; EWait p 5 (Returned c);
              EClose f okc]
| stop_kill_error n okc :
    stop_seq [EPrint (stopping_line iface n); ETerminate p true;
              EWait p 5 TimedOut; EKill p false;
              EPrint (error_line iface OSError); EClose f okc]
| stop_kill_timeout n okc :
    stop_seq [EPrint (stopping_line iface n); ETerminate p true;
              EWait p 5 TimedOut; EKill p true; EWait p 5 TimedOut;
              EPrint (error_line iface (TimeoutExpired 5)); EClose f okc]
| stop_kill_wait_error n okc :
    stop_seq [EPrint (stopping_line iface n); ETerminate p true;
              EWait p 5 TimedOut; EKill p true; EWait p 5 WaitFailed;
              EPrint (error_line iface OSError); EClose f okc].
End StopShape.

Definition stops (u : string * (nat * nat)) (evs : list Event) : Prop :=
  stop_seq (fst u) (handle_of u) (sink_of u) evs.


(** An open or a spawn that the operating system refused. *)
Definition failed_launch (e : Event) : bool :=
  match e with
  | EOpen _ _ None | EPopen _ _ _ None => true
  | _ => false
  end.

(** The exits [poll] detects in a trace, and the backoffs of 2. *)
Definition is_detect (e : Event) : bool :=
  match e with EPoll _ (Some _) => true | _ => false end.

Definition is_backoff (e : Event) : bool :=
  match e with ESleep 2 => true | _ => false end.

Definition count_if (f : Event -> bool) (evs : list Event) : nat :=
  length (filter f evs).

(** A run that a signal cut short: a signal was pending when it started,
    and the handler that took it ended the program with status 0. *)
Definition interrupted {A : Type} (w : World) (r : Outcome A) : Prop :=
  r = Raise (SystemExit 0) /\ sigs w <> [].

(** What a checkpoint may do: nothing, or, a signal pending, deliver it
    to a handler that ends the program. *)
Definition delivers_or_skips (ck : M unit) : Prop :=
  forall w,
    ck w = (Ok tt, w)
    \/ (sigs w <> [] /\ exists w', ck w = (Raise (SystemExit 0), w')).

(** What holds of every uninterrupted run of the body of the monitoring
    pass: it ends normally or with the error of a refused open or spawn,
    the last call made; it ends normally when no open and no spawn is
    refused; and it has detected as many exits as it has slept 2. *)
Definition pass_post (env : Env) (w : World) (r : Outcome unit) (w' : World)
  : Prop :=
  (r = Ok tt
      \/ r = Raise OSError
         /\ exists pre e, trace w' = pre ++ [e] /\ failed_launch e = true)
  /\ ((forall k, os_open env k = true) ->
      (forall k, os_spawn env k <> None) -> r = Ok tt)
  /\ exists evs, trace w' = trace w ++ evs
                 /\ count_if is_detect evs = count_if is_backoff evs.


(* ================================================================== *)
(** ** Observations on strings *)
(* ================================================================== *)

(** No character of [s] is [c]. *)
Fixpoint lacks (c : ascii) (s : string) : bool :=
  match s with
  | EmptyString => true
  | String a r => negb (Ascii.eqb a c) && lacks c r
  end.

(** Every character of [s] is whitespace. *)
Fixpoint blank (s : string) : bool :=
  match s with
  | EmptyString => true
  | String a r => Py.is_space a && blank r
  end.

(** [s] begins with whitespace. *)
Definition starts_blank (s : string) : bool :=
  match s with
  | EmptyString => false
  | String a _ => Py.is_space a
  end.

(** [s] ends with whitespace. *)
Fixpoint ends_blank (s : string) : bool :=
  match s with
  | EmptyString => false
  | String a EmptyString => Py.is_space a
  | String _ r => ends_blank r
  end.

(** A string without whitespace at either end and without a comma. *)
Definition trimmed (s : string) : Prop :=
  starts_blank s = false /\ ends_blank s = false /\ lacks "," s = true.

(** An item as the lists of the configuration have them: trimmed and
    not empty. *)
Definition tidy (s : string) : Prop := s <> EmptyString /\ trimmed s.

(** An entry of a comma-separated value: an item between two runs of
    whitespace. *)
Record Padded := mkPadded { pad_left : string; item : string; pad_right : string }.

Definition padded_text (e : Padded) : string :=
  (pad_left e ++ item e ++ pad_right e)%string.

Definition well_padded (e : Padded) : Prop :=
  blank (pad_left e) = true /\ blank (pad_right e) = true /\ trimmed (item e).

(** The last character of a string. *)
Fixpoint last_char (s : string) : option ascii :=
  match s with
  | EmptyString => None
  | String c EmptyString => Some c
  | String _ r => last_char r
  end.

(* ================================================================== *)
(** ** What an undisturbed run does *)
(* ================================================================== *)

(** [p.returncode = c] and [f.closed = True], on the heaps. *)
Definition with_returncode (p : nat) (c : Z) (heap : list Popen) : list Popen :=
  update p (fun o => mkPopen (pid o) (args o) (stdout o) (stderr o) (Some c))
         heap.

Definition with_closed (f : nat) (heap : list FileObj) : list FileObj :=
  if is_closed heap f then heap
  else update f (fun o => mkFile (f_name o) (f_mode o) true) heap.

(** A run from [w] to [w'] that made the calls [evs], one tick each, left
    the heaps [ps] and [fs] and the registry [reg], took the time [dt]
    and did not touch the schedule of signals. *)
Definition changes (w w' : World) (evs : list Event) (ps : list Popen)
           (fs : list FileObj) (reg : Registry) (dt : nat) : Prop :=
  sigs w' = sigs w /\ tick w' = length evs + tick w
  /\ trace w' = trace w ++ evs /\ popens w' = ps /\ files w' = fs
  /\ processes w' = reg /\ clock w' = clock w + dt.

Section Units.
Variable env : Env.
Variable cfg : Config.

(** The log of a unit as [open] creates it, and its process as [Popen]
    does, with the pid [n] and the log [F]. *)
Definition sink_for (iface : string) : FileObj :=
  mkFile (stderr_path cfg iface) "ab" false.

Definition child_for (iface : string) (n F : nat) : Popen :=
  mkPopen n (build_cmd cfg iface (OUTPUT_DIR cfg)) DEVNULL (ToFile F) None.

(** The three ways the body of the loop of [start_all] goes, for the
    name [iface] from the world [w]: the unit is started and registered;
    its log cannot be opened; its process cannot be spawned, the log just
    opened staying open. *)
Inductive started_one (iface : string) (w : World)
  : Outcome unit -> World -> Prop :=
| start_done n w' :
    os_open env (tick w) = true ->
    os_spawn env (1 + tick w) = Some n ->
    changes w w'
      [EOpen (stderr_path cfg iface) "ab" (Some (length (files w)));
       EPopen (build_cmd cfg iface (OUTPUT_DIR cfg)) DEVNULL
              (ToFile (length (files w))) (Some (length (popens w)));
       ESetItem iface (length (popens w)) (length (files w));
       EPrint (started_line cfg iface n)]
      (popens w ++ [child_for iface n (length (files w))])
      (files w ++ [sink_for iface])
      (dict_set iface (length (popens w), length (files w)) (processes w)) 0 ->
    started_one iface w (Ok tt) w'
| start_open_refused w' :
    os_open env (tick w) = false ->
    changes w w' [EOpen (stderr_path cfg iface) "ab" None]
            (popens w) (files w) (processes w) 0 ->
    started_one iface w (Raise OSError) w'
| start_spawn_refused w' :
    os_open env (tick w) = true ->
    os_spawn env (1 + tick w) = None ->
    changes w w'
      [EOpen (stderr_path cfg iface) "ab" (Some (length (files w)));
       EPopen (build_cmd cfg iface (OUTPUT_DIR cfg)) DEVNULL
              (ToFile (length (files w))) None]
      (popens w) (files w ++ [sink_for iface]) (processes w) 0 ->
    started_one iface w (Raise OSError) w'.

(** The four ways the body of the monitoring pass goes, for the entry
    [u] from the world [w]: the process runs on; it has exited and is
    replaced; it has exited and its log cannot be opened again; it has
    exited and no new process can be spawned. *)
Inductive checked (u : string * (nat * nat)) (w : World)
  : Outcome unit -> World -> Prop :=
| check_running w' :
    exit_seen env (tick w) (popens w) (handle_of u) = None ->
    changes w w' [EPoll (handle_of u) None]
            (popens w) (files w) (processes w) 0 ->
    checked u w (Ok tt) w'
| check_restarted code okc n w' :
    exit_seen env (tick w) (popens w) (handle_of u) = Some code ->
    os_open env (4 + tick w) = true ->
    os_spawn env (5 + tick w) = Some n ->
    changes w w'
      [EPoll (handle_of u) (Some code); EPrint (exited_line (fst u) code);
       EClose (sink_of u) okc; ESleep 2;
       EOpen (stderr_path cfg (fst u)) "ab" (Some (length (files w)));
       EPopen (build_cmd cfg (fst u) (OUTPUT_DIR cfg)) DEVNULL
              (ToFile (length (files w))) (Some (length (popens w)));
       ESetItem (fst u) (length (popens w)) (length (files w));
       EPrint (restarted_line (fst u) n)]
      (with_returncode (handle_of u) code (popens w)
       ++ [child_for (fst u) n (length (files w))])
      (with_closed (sink_of u) (files w) ++ [sink_for (fst u)])
      (dict_set (fst u) (length (popens w), length (files w)) (processes w))
      2 ->
    checked u w (Ok tt) w'
| check_open_refused code okc w' :
    exit_seen env (tick w) (popens w) (handle_of u) = Some code ->
    os_open env (4 + tick w) = false ->
    changes w w'
      [EPoll (handle_of u) (Some code); EPrint (exited_line (fst u) code);
       EClose (sink_of u) okc; ESleep 2;
       EOpen (stderr_path cfg (fst u)) "ab" None]
      (with_returncode (handle_of u) code (popens w))
      (with_closed (sink_of u) (files w)) (processes w) 2 ->
    checked u w (Raise OSError) w'
| check_spawn_refused code okc w' :
    exit_seen env (tick w) (popens w) (handle_of u) = Some code ->
    os_open env (4 + tick w) = true ->
    os_spawn env (5 + tick w) = None ->
    changes w w'
      [EPoll (handle_of u) (Some code); EPrint (exited_line (fst u) code);
       EClose (sink_of u) okc; ESleep 2;
       EOpen (stderr_path cfg (fst u)) "ab" (Some (length (files w)));
       EPopen (build_cmd cfg (fst u) (OUTPUT_DIR cfg)) DEVNULL
              (ToFile (length (files w))) None]
      (with_returncode (handle_of u) code (popens w))
      (with_closed (sink_of u) (files w) ++ [sink_for (fst u)])
      (processes w) 2 ->
    checked u w (Raise OSError) w'.
End Units.

(** A [for] loop whose body goes as [R] says: the bodies run in the
    order of the list, each from the world the one before has left, and
    the first exception ends the loop. *)
Inductive each {A : Type} (R : A -> World -> Outcome unit -> World -> Prop)
  : list A -> World -> Outcome unit -> World -> Prop :=
| each_nil w : each R [] w (Ok tt) w
| each_next x l w w1 r w2 :
    R x w (Ok tt) w1 -> each R l w1 r w2 -> each R (x :: l) w r w2
| each_raise x l w e w1 :
    R x w (Raise e) w1 -> each R (x :: l) w (Raise e) w1.

(** One turn of the loop of [main]: the pass over the registry as it is
    when the turn begins, then the pause of 1. *)
Inductive turned (env : Env) (cfg : Config) (w : World)
  : Outcome unit -> World -> Prop :=
| turn_done w1 w' :
    each (checked env cfg) (processes w) w (Ok tt) w1 ->
    changes w1 w' [ESleep 1] (popens w1) (files w1) (processes w1) 1 ->
    turned env cfg w (Ok tt) w'
| turn_raise e w' :
    each (checked env cfg) (processes w) w (Raise e) w' ->
    turned env cfg w (Raise e) w'.

(** [n] turns. *)
Inductive looped (env : Env) (cfg : Config)
  : nat -> World -> Outcome unit -> World -> Prop :=
| loop_end w : looped env cfg 0 w (Ok tt) w
| loop_next n w w1 r w2 :
    turned env cfg w (Ok tt) w1 -> looped env cfg n w1 r w2 ->
    looped env cfg (S n) w r w2
| loop_raise n w e w1 :
    turned env cfg w (Raise e) w1 -> looped env cfg (S n) w (Raise e) w1.

(** The pause that ends a turn of the loop of [main]. *)
Definition is_pause (e : Event) : bool :=
  match e with ESleep 1 => true | _ => false end.

(** The calls of a shutdown: no other call stops a child or empties the
    registry. *)
Definition is_stop (e : Event) : bool :=
  match e with
  | ETerminate _ _ | EKill _ _ | EWait _ _ _ | EClear => true
  | _ => false
  end.

(** The account of an undisturbed run of the supervision from [w] to
    [w'] that made the calls [evs]: time has passed in the pauses of 1
    and in the backoffs of 2 that follow a detected exit, no call was
    one of a shutdown, and as many files were closed as exits were
    detected. *)
Definition accounted (w w' : World) (evs : list Event) : Prop :=
  trace w' = trace w ++ evs
  /\ clock w' = clock w + count_if is_pause evs + 2 * count_if is_detect evs
  /\ count_if is_stop evs = 0
  /\ length (closes evs) = count_if is_detect evs.

Section Main.
Variable env : Env.
Variable cfg : Config.

(** The checks of [main] before it starts anything, when they pass: the
    binary is there, and the output directory is there or is created. *)
Inductive prepared (w : World) : World -> Prop :=
| prepared_found w' :
    os_exists env (tick w) = true ->
    os_exists env (1 + tick w) = true ->
    changes w w'
      [EExists (Path.to_string (Path.of_string (TCPDUMP_BIN cfg))) true;
       EExists (Path.to_string (OUTPUT_DIR cfg)) true]
      (popens w) (files w) (processes w) 0 ->
    prepared w w'
| prepared_made w' :
    os_exists env (tick w) = true ->
    os_exists env (1 + tick w) = false ->
    os_mkdir env (2 + tick w) = true ->
    changes w w'
      [EExists (Path.to_string (Path.of_string (TCPDUMP_BIN cfg))) true;
       EExists (Path.to_string (OUTPUT_DIR cfg)) false;
       EMkdir (Path.to_string (OUTPUT_DIR cfg)) true]
      (popens w) (files w) (processes w) 0 ->
    prepared w w'.

(** The four ways [main] goes, its loop run for [n] turns: the binary is
    missing; the output directory is missing and cannot be created; a
    unit cannot be started; the units are started and the loop runs. *)
Inductive ran (n : nat) (w : World) : Outcome unit -> World -> Prop :=
| ran_no_binary w' :
    os_exists env (tick w) = false ->
    changes w w'
      [EExists (Path.to_string (Path.of_string (TCPDUMP_BIN cfg))) false;
       EPrintErr ("tcpdump binary not found at " ++ TCPDUMP_BIN cfg)%string]
      (popens w) (files w) (processes w) 0 ->
    ran n w (Raise (SystemExit 2)) w'
| ran_no_directory w' :
    os_exists env (tick w) = true ->
    os_exists env (1 + tick w) = false ->
    os_mkdir env (2 + tick w) = false ->
    changes w w'
      [EExists (Path.to_string (Path.of_string (TCPDUMP_BIN cfg))) true;
       EExists (Path.to_string (OUTPUT_DIR cfg)) false;
       EMkdir (Path.to_string (OUTPUT_DIR cfg)) false;
       EPrintErr ("Failed to create output dir "
                  ++ Path.to_string (OUTPUT_DIR cfg) ++ ": "
                  ++ exn_str OSError)%string]
      (popens w) (files w) (processes w) 0 ->
    ran n w (Raise (SystemExit 2)) w'
| ran_start_failed w0 e w' :
    prepared w w0 ->
    each (started_one env cfg) (INTERFACES cfg) w0 (Raise e) w' ->
    ran n w (Raise e) w'
| ran_loop w0 w1 r w' :
    prepared w w0 ->
    each (started_one env cfg) (INTERFACES cfg) w0 (Ok tt) w1 ->
    looped env cfg n w1 r w' ->
    ran n w r w'.
End Main.

(** The polls of a pass that finds every unit of [reg] running. *)
Definition polls (reg : Registry) : list Event :=
  map (fun u => EPoll (handle_of u) None) reg.

(** No process of the registry is known to have exited. *)
Definition all_running (heap : list Popen) (reg : Registry) : Prop :=
  Forall (fun u => returncode_of heap (handle_of u) = None) reg.

Section Supervised.
Variable cfg : Config.

(** A unit in order: its process is the capture of its interface, not
    known to have exited, with its errors going to its sink; its sink is
    the log of its interface, open for appending. *)
Definition unit_ok (w : World) (u : string * (nat * nat)) : Prop :=
  (exists n, nth_error (popens w) (handle_of u)
             = Some (child_for cfg (fst u) n (sink_of u)))
  /\ nth_error (files w) (sink_of u) = Some (sink_for cfg (fst u)).

(** The registry in order: no name, process or sink is registered twice,
    every unit is in order, and no file is open but the sinks of the
    units. *)
Definition supervised (w : World) : Prop :=
  NoDup (keys (processes w))
  /\ NoDup (map handle_of (processes w))
  /\ NoDup (map sink_of (processes w))
  /\ Forall (unit_ok w) (processes w)
  /\ (forall g, is_closed (files w) g = false ->
                In g (map sink_of (processes w))).
End Supervised.

(** The files after the sinks of the units [l] were closed. *)
Definition close_all (l : Registry) (heap : list FileObj) : list FileObj :=
  fold_left (fun h u => with_closed (sink_of u) h) l heap.

(** The heap [ps'] is the heap [ps] but for what has become known of the
    processes [l]: the same objects, those outside [l] as they were. *)
Definition settled (l : list nat) (ps ps' : list Popen) : Prop :=
  length ps' = length ps
  /\ forall q, ~ In q l -> nth_error ps' q = nth_error ps q.

(** The processes polled, in order. *)
Definition polled (evs : list Event) : list nat :=
  flat_map (fun e => match e with EPoll p _ => [p] | _ => [] end) evs.

(** Every process of the registry is known to have exited. *)
Definition all_exited (heap : list Popen) (reg : Registry) : Prop :=
  Forall (fun u => returncode_of heap (handle_of u) <> None) reg.

(** The calls [stop_all] makes for a unit whose process has exited with
    the code [c]: nothing is sent to the process and the wait returns at
    once. *)
Definition stops_dead (heap : list Popen) (u : string * (nat * nat))
           (evs : list Event) : Prop :=
  exists n c okc,
    returncode_of heap (handle_of u) = Some c
    /\ evs = [EPrint (stopping_line (fst u) n); ETerminate (handle_of u) true;
              EWait (handle_of u) 5 (Returned c); EClose (sink_of u) okc].

(* ================================================================== *)
(** ** Further sample environments *)
(* ================================================================== *)




(** As [calm_env], but call number 5 (in [start_all] from the empty
    world, the spawn of the second unit) is refused. *)
Definition spawn_refusing_env : Env :=
  mkEnv (Parsed [("settings", sample_settings)])
        (fun _ => true)
        (fun k => if (k =? 5)%nat then None else Some (4000 + k))
        (fun _ => None)
        (fun _ => true) (fun _ => Returned 0) (fun _ => 1)
        (fun _ => true) (fun _ => true) (fun _ => true).

(** A configuration without interfaces. *)
Definition idle_cfg : Config :=
  mkConfig [] (Path.of_string "/var/log/tcpdump") "/usr/bin/tcpdump" 100 20 [].

(** A value of [interfaces] written loosely. *)
Definition loose_entries : list Padded :=
  [ mkPadded " " "eth0" ""; mkPadded "" "" " "; mkPadded "  " "wlan0" " ";
    mkPadded "" "" "" ]%string.

(** The world after [start_all] in the calm environment, every child
    since found exited with code 1. *)
Definition exited_world : World :=
  set_popens
    (map (fun o => mkPopen (pid o) (args o) (stdout o) (stderr o) (Some 1%Z))
         (popens started_world))
    started_world.

(** The world after [start_all], a termination signal due at the seventh
    call from there. *)
Definition restart_race_world : World :=
  set_sigs [(6 + tick started_world, SIGTERM)] started_world.

(* ================================================================== *)
(** ** Reasoning about runs *)
(* ================================================================== *)

Arguments started_line : simpl never.
Arguments stopping_line : simpl never.
Arguments error_line : simpl never.
Arguments received_line : simpl never.
Arguments exited_line : simpl never.
Arguments restarted_line : simpl never.
Arguments build_cmd : simpl never.
Arguments stderr_path : simpl never.

(** [wp c Q w]: the run of [c] from [w] ends in an outcome and a world
    that satisfy [Q]. *)
Definition wp {A : Type} (c : M A) (Q : Outcome A -> World -> Prop) (w : World)
  : Prop :=
  Q (fst (c w)) (snd (c w)).

Arguments wp : simpl never.
Arguments bind : simpl never.
Arguments try_except : simpl never.
Arguments try_finally : simpl never.
Arguments prim : simpl never.
Arguments for_each : simpl never.

(** The registry a trace builds from the registry [d]: its assignments
    and clears, in order. *)
Fixpoint replay (d : Registry) (evs : list Event) : Registry :=
  match evs with
  | [] => d
  | ESetItem k p f :: r => replay (dict_set k (p, f) d) r
  | EClear :: r => replay [] r
  | _ :: r => replay d r
  end.

(** A run during which the pending signal [(t, s)] was not delivered: it
    is still pending, no handler has run, the registry is what the calls
    made have built, every call made came before time [t], and the run
    has not ended in an exit with status 0. *)
Definition still_pending {A : Type} (t : nat) (s : Z) (w : World)
           (r : Outcome A) (w' : World) : Prop :=
  sigs w' = [(t, s)]
  /\ (exists evs, trace w' = trace w ++ evs
                  /\ count_if is_signal evs = 0
                  /\ processes w' = replay (processes w) evs)
  /\ (tick w' <= t \/ tick w' = tick w)
  /\ r <> Raise (SystemExit 0)
  /\ r <> Raise KeyboardInterrupt.

(** A run during which the signal [s] was delivered, after the calls
    [evs]: the handler logged it, ran [stop_all] once, on the registry as
    those calls had built it, and left the program with status 0; nothing
    of the interrupted code ran after the delivery. *)
Definition shut_down {A : Type} (s : Z) (w : World)
           (r : Outcome A) (w' : World) : Prop :=
  r = Raise (SystemExit 0)
  /\ sigs w' = []
  /\ processes w' = []
  /\ exists evs evss,
       trace w' = trace w ++ evs ++ ESignal s :: EPrint (received_line s)
                          :: concat evss ++ [EClear]
       /\ count_if is_signal evs = 0
       /\ Forall2 stops (replay (processes w) evs) evss.

Definition sig_post {A : Type} (t : nat) (s : Z) (w : World)
           (r : Outcome A) (w' : World) : Prop :=
  still_pending t s w r w' \/ shut_down s w r w'.

(** A computation that meets one pending signal as described. *)
Definition sig_safe {A : Type} (c : M A) : Prop :=
  forall t s w, sigs w = [(t, s)] -> wp c (sig_post t s w) w.

(** A call that makes one event, none of a signal, changes the registry
    as that event says, leaves the schedule and the counter alone and
    raises no exit. *)
Definition well_behaved {A : Type} (act : nat -> World -> Outcome A * World)
  : Prop :=
  forall k w,
    sigs (snd (act k w)) = sigs w
    /\ tick (snd (act k w)) = tick w
    /\ (exists e, trace (snd (act k w)) = trace w ++ [e]
                  /\ is_signal e = false
                  /\ processes (snd (act k w)) = replay (processes w) [e])
    /\ fst (act k w) <> Raise (SystemExit 0)
    /\ fst (act k w) <> Raise KeyboardInterrupt.

Lemma wp_ret {A} (a : A) (Q : Outcome A -> World -> Prop) w :
  Q (Ok a) w -> wp (ret a) Q w.
Proof. exact (fun H => H). Qed.

Lemma wp_bind {A B} (c : M A) (k : A -> M B)
      (Q : Outcome B -> World -> Prop) w :
  wp c (fun r w1 => match r with
                    | Ok a => wp (k a) Q w1
                    | Raise e => Q (Raise e) w1
                    end) w ->
  wp (bind c k) Q w.
Proof. unfold wp, bind. destruct (c w) as [[a|e] w1]; cbn; auto. Qed.

Lemma wp_try_except {A} (P : exn -> bool) (body : M A) (h : exn -> M A)
      (Q : Outcome A -> World -> Prop) w :
  wp body (fun r w1 => match r with
                       | Ok a => Q (Ok a) w1
                       | Raise e => if P e then wp (h e) Q w1 else Q (Raise e) w1
                       end) w ->
  wp (try_except P body h) Q w.
Proof.
  unfold wp, try_except. destruct (body w) as [[a|e] w1]; cbn; auto.
  destruct (P e); auto.
Qed.

Lemma wp_try_finally {A} (body : M A) (fin : M unit)
      (Q : Outcome A -> World -> Prop) w :
  wp body (fun r w1 =>
    wp fin (fun r2 w2 => match r2 with
                         | Ok _ => Q r w2
                         | Raise e => Q (Raise e) w2
                         end) w1) w ->
  wp (try_finally body fin) Q w.
Proof.
  unfold wp, try_finally. destruct (body w) as [r w1]; cbn.
  destruct (fin w1) as [[u|e] w2]; cbn; auto.
Qed.

Lemma wp_pid_of p (Q : Outcome nat -> World -> Prop) w :
  Q (Ok (match nth_error (popens w) p with Some o => pid o | None => O end)) w ->
  wp (pid_of p) Q w.
Proof. exact (fun H => H). Qed.

Lemma wp_items (Q : Outcome Registry -> World -> Prop) w :
  Q (Ok (processes w)) w -> wp items Q w.
Proof. exact (fun H => H). Qed.

Lemma wp_mono {A} (c : M A) (Q Q' : Outcome A -> World -> Prop) w :
  wp c Q w -> (forall r w', Q r w' -> Q' r w') -> wp c Q' w.
Proof. unfold wp; auto. Qed.

Lemma wp_run {A} (c : M A) (Q : Outcome A -> World -> Prop) w r w' :
  wp c Q w -> c w = (r, w') -> Q r w'.
Proof. unfold wp. intros H E. now rewrite E in H. Qed.

Lemma wp_result {A} (c : M A) (Q : Outcome A -> World -> Prop) w :
  wp c Q w -> exists r w', c w = (r, w') /\ Q r w'.
Proof.
  unfold wp. intros H. exists (fst (c w)), (snd (c w)).
  split; [apply surjective_pairing | exact H].
Qed.

(** A call, under a checkpoint that delivers or skips: either a pending
    signal is delivered and the program ends, or the call is made. *)
Lemma wp_prim {A} ck (act : nat -> World -> Outcome A * World)
      (Q : Outcome A -> World -> Prop) w :
  delivers_or_skips ck ->
  (sigs w <> [] -> forall w1, Q (Raise (SystemExit 0)) w1) ->
  (let r := act (tick w) (set_tick (S (tick w)) w) in Q (fst r) (snd r)) ->
  wp (prim ck act) Q w.
Proof.
  intros Hck Hd Ha. unfold wp, prim, bind.
  destruct (Hck w) as [E|(Hs & w' & E)]; rewrite E.
  - exact Ha.
  - cbn. now apply Hd.
Qed.

Lemma wp_for_each_nil {A} (body : A -> M unit)
      (Q : Outcome unit -> World -> Prop) w :
  Q (Ok tt) w -> wp (for_each [] body) Q w.
Proof. exact (fun H => H). Qed.

Lemma wp_for_each_cons {A} (body : A -> M unit) x l
      (Q : Outcome unit -> World -> Prop) w :
  wp (body x) (fun r w1 => match r with
                           | Ok _ => wp (for_each l body) Q w1
                           | Raise e => Q (Raise e) w1
                           end) w ->
  wp (for_each (x :: l) body) Q w.
Proof.
  intros H.
  change (for_each (x :: l) body) with (bind (body x) (fun _ => for_each l body)).
  now apply wp_bind.
Qed.

Lemma interrupted_from {A B} w w1 (r : Outcome A) e :
  sigs w1 = sigs w -> interrupted w1 (@Raise B e) -> r = Raise e ->
  interrupted w r.
Proof.
  intros Hs [E Hn] ->. split; [congruence|]. now rewrite <- Hs.
Qed.

Ltac norm :=
  cbn [fst snd popens files processes trace clock tick sigs emit advance
       set_tick set_popens set_files set_processes set_sigs set_returncode
       mark_closed is_Exception is_TimeoutExpired is_KeyboardInterrupt].

Ltac norm_in H :=
  cbn [fst snd popens files processes trace clock tick sigs emit advance
       set_tick set_popens set_files set_processes set_sigs set_returncode
       mark_closed is_Exception is_TimeoutExpired is_KeyboardInterrupt] in H.

Ltac cut_short :=
  lazymatch goal with
  | |- interrupted _ _ \/ _ => left; split; [reflexivity | assumption]
  end.

Ltac wp_step :=
  lazymatch goal with
  | |- wp (bind _ _) _ _ => apply wp_bind
  | |- wp (try_except _ _ _) _ _ => apply wp_try_except
  | |- wp (try_finally _ _) _ _ => apply wp_try_finally
  | |- wp (ret _) _ _ => apply wp_ret
  | |- wp (pid_of _) _ _ => apply wp_pid_of
  | |- wp items _ _ => apply wp_items
  | |- wp (prim _ _) _ _ =>
      apply wp_prim;
      [ assumption
      | let H := fresh "Hsig" in
        intros H ?; norm_in H; cbv beta; norm; try cut_short
      | cbv beta zeta ]
  | |- wp (print _ _) _ _ => unfold print
  | |- wp (sleep _ _) _ _ => unfold sleep
  | |- wp (terminate _ _ _) _ _ => unfold terminate, send_signal
  | |- wp (kill _ _ _) _ _ => unfold kill, send_signal
  | |- wp (wait _ _ _ _) _ _ => unfold wait
  | |- wp (close _ _ _) _ _ => unfold close
  | |- wp (open_ _ _ _ _) _ _ => unfold open_
  | |- wp (Popen_ _ _ _ _ _) _ _ => unfold Popen_
  | |- wp (poll _ _ _) _ _ => unfold poll
  | |- wp (setitem _ _ _ _) _ _ => unfold setitem
  | |- wp (clear _) _ _ => unfold clear
  end.

Ltac case_env :=
  match goal with
  | |- context [match returncode_of ?h ?p with _ => _ end] =>
      destruct (returncode_of h p) eqn:?
  | |- context [if is_closed ?h ?f then _ else _] =>
      destruct (is_closed h f) eqn:?
  | |- context [match exit_seen ?e ?k ?h ?p with _ => _ end] =>
      destruct (exit_seen e k h p) eqn:?
  | |- context [match os_wait ?e ?k with _ => _ end] =>
      destruct (os_wait e k) eqn:?
  | |- context [if os_signal ?e ?k then _ else _] =>
      destruct (os_signal e k) eqn:?
  | |- context [if os_close ?e ?k then _ else _] =>
      destruct (os_close e k) eqn:?
  | |- context [if os_open ?e ?k then _ else _] =>
      destruct (os_open e k) eqn:?
  | |- context [match os_spawn ?e ?k with _ => _ end] =>
      destruct (os_spawn e k) eqn:?
  end.

(** Symbolic execution of a block: one rule for each construct, then the
    case analysis on what the environment answers. *)
Ltac wp_go :=
  repeat first [wp_step | progress norm
               | lazymatch goal with
                 | |- interrupted _ _ \/ _ => fail
                 | |- _ => case_env
                 end].

Ltac trace_eq := repeat rewrite <- app_assoc; cbn [app]; reflexivity.

(* ================================================================== *)
(** ** The command builder *)
(* ================================================================== *)

Lemma split_plain s : plain s = true -> Py.split "/" s = [s].
Proof.
  induction s as [|c r IH]; cbn; [reflexivity|].
  intros H. apply andb_prop in H as [Hc Hr].
  destruct (Ascii.eqb c "/"); [discriminate|].
  now rewrite (IH Hr).
Qed.

Lemma plain_app a b : plain (a ++ b)%string = plain a && plain b.
Proof.
  induction a as [|c r IH]; cbn; [reflexivity|].
  now rewrite IH, andb_assoc.
Qed.

Lemma parse_root_plain s : plain s = true -> Path.parse_root s = "".
Proof.
  destruct s as [|c r]; [reflexivity|].
  cbn [plain]. intros H. apply andb_prop in H as [Hc _].
  destruct c as [[] [] [] [] [] [] [] []]; try reflexivity; discriminate.
Qed.

(** A plain name with an extension is one path component. *)
Lemma of_string_component i a e :
  plain i = true -> plain (String a e) = true ->
  Path.of_string (i ++ String "." (String a e)) =
  Path.mk "" [(i ++ String "." (String a e))%string].
Proof.
  intros Hi He.
  assert (Hp : plain (i ++ String "." (String a e)) = true).
  { rewrite plain_app, Hi. cbn [plain andb] in *. exact He. }
  unfold Path.of_string. rewrite (parse_root_plain _ Hp), (split_plain _ Hp).
  f_equal. unfold Path.clean. cbn [filter].
  destruct i as [|c r]; [reflexivity|].
  cbn [String.append String.eqb negb andb].
  destruct (Ascii.eqb c "."); [|reflexivity].
  destruct r; reflexivity.
Qed.

Lemma div_component b i a e :
  plain i = true -> plain (String a e) = true ->
  Path.div b (i ++ String "." (String a e)) =
  Path.mk (Path.root b) (Path.parts b ++ [(i ++ String "." (String a e))%string]).
Proof.
  intros Hi He. unfold Path.div. now rewrite (of_string_component i a e Hi He).
Qed.

(** C7.  [build_cmd] is a function of the interface, the output base and
    the configuration alone (it takes no world and returns none).  Its
    vector is the binary, the interface, the snapshot length 0 (whole
    packets), the output file [out_base / "<interface>.pcap"], the
    rotation size and the number of files kept, followed by the extra
    arguments, verbatim and in their configured order.  For a name
    without a separator the output file is the component
    [<interface>.pcap] under the output base.  Two configurations with
    the same binary, sizes and extra arguments build the same vector. *)
Theorem build_cmd_contract cfg iface out_base :
  build_cmd cfg iface out_base =
    [ TCPDUMP_BIN cfg; "-i"; iface; "-s"; "0"; "-w";
      Path.to_string (Path.div out_base (iface ++ ".pcap"));
      "-C"; Py.str (ROTATE_SIZE_MB cfg);
      "-W"; Py.str (MAX_ROTATED_FILES cfg) ] ++ EXTRA_ARGS cfg
  /\ (plain iface = true ->
      Path.div out_base (iface ++ ".pcap") =
      Path.mk (Path.root out_base)
              (Path.parts out_base ++ [(iface ++ ".pcap")%string]))
  /\ (forall cfg',
        TCPDUMP_BIN cfg' = TCPDUMP_BIN cfg ->
        ROTATE_SIZE_MB cfg' = ROTATE_SIZE_MB cfg ->
        MAX_ROTATED_FILES cfg' = MAX_ROTATED_FILES cfg ->
        EXTRA_ARGS cfg' = EXTRA_ARGS cfg ->
        build_cmd cfg' iface out_base = build_cmd cfg iface out_base).
Proof.
  split; [reflexivity|]. split.
  - intros Hi. now apply div_component.
  - intros cfg' Hb Hr Hm He. unfold build_cmd. now rewrite Hb, Hr, Hm, He.
Qed.

Lemma build_cmd_contract_witness :
  build_cmd
    (mkConfig ["eth0"] (Path.of_string "/var/log/tcpdump") "/usr/bin/tcpdump"
              100 20 ["-n"; "port 80"])
    "eth0" (Path.of_string "/var/log/tcpdump") =
  ["/usr/bin/tcpdump"; "-i"; "eth0"; "-s"; "0"; "-w";
   "/var/log/tcpdump/eth0.pcap"; "-C"; "100"; "-W"; "20"; "-n"; "port 80"]%string
  /\ Path.div (Path.of_string "/var/log/tcpdump") "eth0.pcap" =
     Path.mk "/" ["var"; "log"; "tcpdump"; "eth0.pcap"]%string
  /\ build_cmd
       (mkConfig [] (Path.of_string "/tmp") "/usr/bin/tcpdump"
                 100 20 ["-n"; "port 80"])
       "eth0" (Path.of_string "/var/log/tcpdump") =
     build_cmd
       (mkConfig ["eth0"] (Path.of_string "/var/log/tcpdump") "/usr/bin/tcpdump"
                 100 20 ["-n"; "port 80"])
       "eth0" (Path.of_string "/var/log/tcpdump").
Proof.
  pose proof (build_cmd_contract
    (mkConfig ["eth0"] (Path.of_string "/var/log/tcpdump") "/usr/bin/tcpdump"
              100 20 ["-n"; "port 80"])
    "eth0" (Path.of_string "/var/log/tcpdump")) as [H1 [H2 H3]].
  split; [exact H1|]. split.
  - exact (H2 eq_refl).
  - exact (H3 (mkConfig [] (Path.of_string "/tmp") "/usr/bin/tcpdump"
                        100 20 ["-n"; "port 80"])
              eq_refl eq_refl eq_refl eq_refl).
Defined.

(* ================================================================== *)
(** ** The registry as a dictionary *)
(* ================================================================== *)

Section Dict.
Context {V : Type}.
Implicit Types (d : list (string * V)) (k : string) (v : V).


Lemma lookup_dict_set_other k k' v d :
  k <> k' -> lookup k' (dict_set k v d) = lookup k' d.
Proof.
  intros N. induction d as [|[k0 v0] d IH]; cbn.
  - assert (E : (k' =? k)%string = false) by (apply String.eqb_neq; congruence).
    now rewrite E.
  - destruct (String.eqb_spec k k0) as [->|N0]; cbn.
    + assert (E : (k' =? k0)%string = false) by (apply String.eqb_neq; congruence).
      now rewrite E.
    + now rewrite IH.
Qed.

Lemma dict_set_notin k v d :
  ~ In k (keys d) -> dict_set k v d = d ++ [(k, v)].
Proof.
  induction d as [|[k' v'] d IH]; cbn; intros N; [reflexivity|].
  destruct (String.eqb_spec k k') as [->|N0]; [tauto|].
  rewrite IH; tauto.
Qed.

Lemma keys_dict_set_in k v d :
  In k (keys d) -> keys (dict_set k v d) = keys d.
Proof.
  induction d as [|[k' v'] d IH]; cbn; intros H; [tauto|].
  destruct (String.eqb_spec k k') as [->|N0]; [reflexivity|].
  cbn. f_equal. apply IH. destruct H as [E|H]; [congruence | exact H].
Qed.

Lemma in_keys_dict_set x k v d :
  In x (keys (dict_set k v d)) <-> x = k \/ In x (keys d).
Proof.
  destruct (in_dec string_dec k (keys d)) as [H|H].
  - rewrite keys_dict_set_in by assumption. split; [tauto|].
    intros [->|]; assumption.
  - rewrite dict_set_notin by assumption. unfold keys.
    rewrite map_app, in_app_iff. cbn. intuition congruence.
Qed.

Lemma NoDup_keys_dict_set k v d :
  NoDup (keys d) -> NoDup (keys (dict_set k v d)).
Proof.
  intros H. destruct (in_dec string_dec k (keys d)) as [I|I].
  - now rewrite keys_dict_set_in.
  - rewrite dict_set_notin by assumption. unfold keys. rewrite map_app. cbn.
    apply NoDup_app; [assumption | repeat constructor; cbn; tauto |].
    intros a Ha [<-|[]]. exact (I Ha).
Qed.

End Dict.

Lemma keys_registry_after l : forall P F d,
  NoDup (keys d) ->
  NoDup (keys (registry_after l P F d))
  /\ forall x, In x (keys (registry_after l P F d)) <-> In x (keys d) \/ In x l.
Proof.
  induction l as [|i l IH]; intros P F d H; cbn [registry_after].
  - split; [assumption|]. cbn. tauto.
  - destruct (IH (S P) (S F) (dict_set i (P, F) d)) as [H1 H2].
    { now apply NoDup_keys_dict_set. }
    split; [assumption|]. intros x. rewrite H2, in_keys_dict_set. cbn.
    intuition congruence.
Qed.









(* ================================================================== *)
(** ** Runs under an arbitrary schedule of signals *)
(* ================================================================== *)

Lemma closes_app a b : closes (a ++ b) = closes a ++ closes b.
Proof. apply flat_map_app. Qed.

Lemma terminates_app a b : terminates (a ++ b) = terminates a ++ terminates b.
Proof. apply flat_map_app. Qed.

Lemma waited_app a b : waited (a ++ b) = waited a + waited b.
Proof. induction a as [|[] a IHa]; cbn; rewrite ?IHa; lia. Qed.

Lemma count_if_app f a b : count_if f (a ++ b) = count_if f a + count_if f b.
Proof. unfold count_if. now rewrite filter_app, length_app. Qed.

Lemma length_update {A} (g : A -> A) l : forall n, length (update n g l) = length l.
Proof.
  induction l as [|x l IH]; intros [|n]; cbn; auto.
Qed.

Lemma nth_error_update_same {A} (g : A -> A) l : forall n,
  nth_error (update n g l) n = option_map g (nth_error l n).
Proof.
  induction l as [|x l IH]; intros [|n]; cbn; auto.
Qed.

Lemma nth_error_snoc {A} (l : list A) x : nth_error (l ++ [x]) (length l) = Some x.
Proof. now rewrite nth_error_app2, Nat.sub_diag by lia. Qed.

Lemma nth_error_update_snoc {A} (g : A -> A) n l x :
  nth_error (update n g l ++ [x]) (length l) = Some x.
Proof.
  rewrite nth_error_app2 by (rewrite length_update; lia).
  now rewrite length_update, Nat.sub_diag.
Qed.


Lemma is_closed_marked l f :
  is_closed (update f (fun o => mkFile (f_name o) (f_mode o) true) l) f = true.
Proof.
  unfold is_closed. rewrite nth_error_update_same.
  now destruct (nth_error l f).
Qed.

Lemma pass_post_trans env w w1 w2 r :
  pass_post env w (Ok tt) w1 -> pass_post env w1 r w2 -> pass_post env w r w2.
Proof.
  intros (_ & _ & evs1 & T1 & C1) (R2 & K2 & evs2 & T2 & C2).
  split; [assumption|]. split; [assumption|].
  exists (evs1 ++ evs2). rewrite T2, T1, app_assoc, !count_if_app. auto.
Qed.

Lemma pass_post_refl env w : pass_post env w (Ok tt) w.
Proof.
  split; [now left|]. split; [reflexivity|].
  exists []. now rewrite app_nil_r.
Qed.

Section Runs.
Variable env : Env.
Variable cfg : Config.
Variable ck : M unit.
Hypothesis Hck : delivers_or_skips ck.

(** One unit of [stop_all]: whatever the process and the file system
    answer, the body of the loop ends normally, unless a signal cuts it
    short. *)
Lemma stop_one_spec u w :
  wp (stop_one env ck u)
     (fun r w' =>
        interrupted w r
        \/ (r = Ok tt /\ sigs w' = sigs w /\ processes w' = processes w
            /\ exists evs, trace w' = trace w ++ evs /\ stops u evs
                           /\ clock w' <= clock w + waited evs)) w.
Proof.
  destruct u as [iface [p f]].
  unfold stop_one, stops, handle_of, sink_of. cbn [fst snd].
  wp_go.
  all: try cut_short.
  all: right; (split; [reflexivity|]; split; [reflexivity|]; split; [reflexivity|];
        eexists; split; [trace_eq|];
        split; [econstructor | cbn [waited]; lia]).
Qed.

Lemma stop_loop_spec l : forall w,
  wp (for_each l (stop_one env ck))
     (fun r w' =>
        interrupted w r
        \/ (r = Ok tt /\ sigs w' = sigs w /\ processes w' = processes w
            /\ exists evss, trace w' = trace w ++ concat evss
                            /\ Forall2 stops l evss
                            /\ clock w' <= clock w + waited (concat evss))) w.
Proof.
  induction l as [|u l IH]; intros w.
  - apply wp_for_each_nil. right. repeat split; auto.
    exists []. cbn. rewrite app_nil_r. repeat split; auto; lia.
  - apply wp_for_each_cons.
    eapply wp_mono; [apply stop_one_spec|].
    intros r w1 [[-> Hn]|(-> & H1 & Hp & evs & Ht & Hs & Hc)];
      [left; split; [reflexivity | assumption]|].
    eapply wp_mono; [apply IH|].
    intros r w2 [[-> Hn]|(-> & H2 & Hp2 & evss & Ht2 & Hs2 & Hc2)];
      [left; split; [reflexivity | congruence]|].
    right. split; [reflexivity|]. split; [congruence|]. split; [congruence|].
    exists (evs :: evss). cbn [concat].
    split; [rewrite Ht2, Ht; now rewrite app_assoc|].
    split; [now constructor|].
    rewrite waited_app. lia.
Qed.

Lemma stop_all_spec w :
  wp (stop_all env ck)
     (fun r w' =>
        interrupted w r
        \/ (r = Ok tt /\ sigs w' = sigs w /\ processes w' = []
            /\ exists evss, trace w' = trace w ++ concat evss ++ [EClear]
               /\ Forall2 stops (processes w) evss
               /\ clock w' <= clock w + waited (concat evss))) w.
Proof.
  unfold stop_all. wp_step. wp_step. wp_step.
  eapply wp_mono; [apply stop_loop_spec|].
  intros r w1 [[-> Hn]|(-> & H1 & Hp & evss & Ht & Hs & Hc)];
    [left; split; [reflexivity | assumption]|].
  wp_go.
  - left. split; [reflexivity | congruence].
  - right. repeat split; auto.
    exists evss. rewrite Ht, app_assoc. auto.
Qed.

(** The handler never returns: it ends the program with status 0. *)
Lemma handle_sig_exits s w :
  exists w', handle_sig env ck s w = (Raise (SystemExit 0), w').
Proof.
  assert (W : wp (handle_sig env ck s)
                 (fun r _ => r = Raise (SystemExit 0)) w).
  { unfold handle_sig. wp_go; [reflexivity|].
    eapply wp_mono; [apply stop_all_spec|].
    intros r w1 [[-> _]|(-> & _)]; reflexivity. }
  apply wp_result in W as (r & w' & E & ->). now exists w'.
Qed.

(** The body of the loop of [start_all]. *)
Lemma start_one_spec iface w :
  wp (start_one env cfg ck iface)
     (fun r w' =>
        r = Ok tt ->
        sigs w' = sigs w
        /\ exists n,
             popens w' = popens w ++
               [mkPopen n (build_cmd cfg iface (OUTPUT_DIR cfg)) DEVNULL
                        (ToFile (length (files w))) None]
             /\ files w' = files w ++ [mkFile (stderr_path cfg iface) "ab" false]
             /\ processes w' =
                dict_set iface (length (popens w), length (files w))
                         (processes w)) w.
Proof.
  unfold start_one. wp_go.
  all: intros E; try discriminate E.
  split; [reflexivity|]. eexists; repeat split; reflexivity.
Qed.

Lemma start_loop_spec l : forall w,
  wp (for_each l (start_one env cfg ck))
     (fun r w' =>
        r = Ok tt ->
        sigs w' = sigs w
        /\ exists new,
             popens w' = popens w ++ new
             /\ launched cfg l (length (files w)) new
             /\ files w' = files w ++ sinks_for cfg l
             /\ processes w' =
                registry_after l (length (popens w)) (length (files w))
                               (processes w)) w.
Proof.
  induction l as [|i l IH]; intros w.
  - apply wp_for_each_nil. intros _. split; [reflexivity|].
    exists []. cbn. now rewrite !app_nil_r.
  - apply wp_for_each_cons.
    eapply wp_mono; [apply start_one_spec|].
    intros [[]|e] w1 Hok; [|discriminate].
    destruct (Hok eq_refl) as (H1 & n & Hp & Hf & Hr).
    eapply wp_mono; [apply IH|].
    intros r w2 Hok2 ->.
    destruct (Hok2 eq_refl) as (H2 & new & Hp2 & Hl2 & Hf2 & Hr2).
    split; [congruence|].
    exists (mkPopen n (build_cmd cfg i (OUTPUT_DIR cfg)) DEVNULL
                    (ToFile (length (files w))) None :: new).
    rewrite Hp, Hf, Hr in *. rewrite !length_app in *. cbn [length] in *.
    rewrite !Nat.add_1_r in *.
    split; [rewrite Hp2, <- app_assoc; reflexivity|].
    split; [cbn; auto 10|].
    split; [rewrite Hf2, <- app_assoc; reflexivity|].
    exact Hr2.
Qed.

Lemma start_all_spec w w' :
  start_all env cfg ck w = (Ok tt, w') ->
  sigs w' = sigs w
  /\ exists new,
       popens w' = popens w ++ new
       /\ launched cfg (INTERFACES cfg) (length (files w)) new
       /\ files w' = files w ++ sinks_for cfg (INTERFACES cfg)
       /\ processes w' =
          registry_after (INTERFACES cfg) (length (popens w)) (length (files w))
                         (processes w).
Proof.
  intros E.
  exact (wp_run _ _ _ _ _ (start_loop_spec (INTERFACES cfg) w) E eq_refl).
Qed.

(** The body of the monitoring pass, for one entry. *)
Lemma check_unit_spec u w :
  wp (check_unit env cfg ck u)
     (fun r w' =>
        interrupted w r
        \/ (sigs w' = sigs w
            /\ (In (fst u) (keys (processes w)) ->
                keys (processes w') = keys (processes w))
            /\ pass_post env w r w')) w.
Proof.
  destruct u as [iface [p f]].
  unfold check_unit, restart, pass_post. cbn [fst snd].
  wp_go.
  all: try cut_short.
  all: right;
       (split; [reflexivity|];
        split; [intros I; first [reflexivity | apply keys_dict_set_in; exact I]|];
        split; [first [left; reflexivity
                      | right; split; [reflexivity|];
                        do 2 eexists; split; reflexivity]|];
        split; [intros Ho Hs;
                first [reflexivity
                      | exfalso;
                        match goal with
                        | E : os_open _ _ = false |- _ =>
                            rewrite Ho in E; discriminate E
                        | E : os_spawn _ _ = None |- _ => exact (Hs _ E)
                        end]|];
        eexists; split; [trace_eq | reflexivity]).
Qed.

Lemma check_loop_spec l : forall w,
  (forall u, In u l -> In (fst u) (keys (processes w))) ->
  wp (for_each l (check_unit env cfg ck))
     (fun r w' =>
        interrupted w r
        \/ (sigs w' = sigs w
            /\ keys (processes w') = keys (processes w)
            /\ pass_post env w r w')) w.
Proof.
  induction l as [|u l IH]; intros w Hin.
  - apply wp_for_each_nil. right.
    split; [reflexivity|]. split; [reflexivity | apply pass_post_refl].
  - apply wp_for_each_cons.
    eapply wp_mono; [apply check_unit_spec|].
    intros r w1 [[-> Hn]|(Hs & Hk & Hp)];
      [left; split; [reflexivity | assumption]|].
    specialize (Hk (Hin u (or_introl eq_refl))).
    destruct r as [[]|e]; [|right; auto].
    eapply wp_mono; [apply IH|].
    + intros u' Hu'. rewrite Hk. apply Hin. now right.
    + intros r w2 [[-> Hn]|(Hs2 & Hk2 & Hp2)];
        [left; split; [reflexivity | congruence]|].
      right. split; [congruence|]. split; [congruence|].
      eapply pass_post_trans; eassumption.
Qed.

Lemma monitor_pass_spec w :
  wp (monitor_pass env cfg ck)
     (fun r w' =>
        interrupted w r
        \/ (sigs w' = sigs w
            /\ keys (processes w') = keys (processes w)
            /\ pass_post env w r w')) w.
Proof.
  unfold monitor_pass. wp_step. wp_step. wp_step.
  eapply wp_mono.
  { apply check_loop_spec. intros u Hu. unfold keys. now apply in_map. }
  intros r w1 [[-> Hn]|(Hs & Hk & Hp)];
    [left; split; [reflexivity | assumption]|].
  destruct r as [[]|e]; [|right; auto].
  wp_go.
  - left. split; [reflexivity | congruence].
  - right. split; [exact Hs|]. split; [exact Hk|].
    eapply pass_post_trans; [exact Hp|].
    split; [now left|]. split; [reflexivity|].
    exists [ESleep 1]. split; reflexivity.
Qed.

Lemma monitor_loop_spec n : forall w,
  wp (monitor_loop env cfg ck n)
     (fun r w' =>
        interrupted w r
        \/ (sigs w' = sigs w
            /\ keys (processes w') = keys (processes w)
            /\ pass_post env w r w')) w.
Proof.
  induction n as [|n IH]; intros w; cbn [monitor_loop].
  - apply wp_ret. right.
    split; [reflexivity|]. split; [reflexivity | apply pass_post_refl].
  - apply wp_bind.
    eapply wp_mono; [apply monitor_pass_spec|].
    intros r w1 [[-> Hn]|(Hs & Hk & Hp)];
      [left; split; [reflexivity | assumption]|].
    destruct r as [[]|e]; [|right; auto].
    eapply wp_mono; [apply IH|].
    intros r w2 [[-> Hn]|(Hs2 & Hk2 & Hp2)];
      [left; split; [reflexivity | congruence]|].
    right. split; [congruence|]. split; [congruence|].
    eapply pass_post_trans; eassumption.
Qed.


End Runs.

(** The checkpoints of the program deliver or skip, at every depth. *)
Lemma checkpoint_ok env d : delivers_or_skips (checkpoint_at env d).
Proof.
  induction d as [|d IH]; intros w; cbn [checkpoint_at].
  - now left.
  - unfold deliver. destruct (sigs w) as [|[t s] rest] eqn:E; [now left|].
    destruct (t <=? tick w)%nat; [|now left].
    right. split; [discriminate|].
    apply handle_sig_exits. exact IH.
Qed.

Lemma not_interrupted {A} w (r : Outcome A) : sigs w = [] -> ~ interrupted w r.
Proof. intros H [_ N]. exact (N H). Qed.

(* ================================================================== *)
(** ** [stop_all] *)
(* ================================================================== *)



Lemma stops_terminates l : forall evss,
  Forall2 stops l evss -> terminates (concat evss) = map handle_of l.
Proof.
  induction 1 as [|u evs l evss Hs _ IH]; [reflexivity|].
  cbn [concat map]. rewrite terminates_app, IH.
  unfold stops in Hs. inversion Hs; subst; reflexivity.
Qed.


Lemma stops_between l : forall evss,
  Forall2 stops l evss ->
  count_if is_signal (concat evss) = 0 /\ count_if is_launch (concat evss) = 0.
Proof.
  induction 1 as [|u evs l evss Hs _ [IH1 IH2]]; [split; reflexivity|].
  cbn [concat]. rewrite !count_if_app, IH1, IH2.
  unfold stops in Hs. inversion Hs; subst; split; reflexivity.
Qed.



(* ================================================================== *)
(** ** [start_all] *)
(* ================================================================== *)





(* ================================================================== *)
(** ** The monitoring loop *)
(* ================================================================== *)


(** Over any number of turns of the loop every detected exit has its
    backoff: the exits detected and the sleeps of 2 are equally many. *)
Lemma every_detected_exit_backs_off env cfg d n w r w' :
  monitor_loop env cfg (checkpoint_at env d) n w = (r, w') ->
  interrupted w r
  \/ exists evs, trace w' = trace w ++ evs
                 /\ count_if is_detect evs = count_if is_backoff evs.
Proof.
  intros E.
  destruct (wp_run _ _ _ _ _
              (monitor_loop_spec env cfg _ (checkpoint_ok env d) n w) E)
    as [I|(_ & _ & _ & _ & P)]; [now left | now right].
Qed.

(** C5.  After [start_all] has returned, from an empty registry, the keys
    of the registry are pairwise distinct and are the configured
    interface names.  Any number of turns of the monitoring loop,
    whatever exits, restarts or failures happen in them, leaves the list
    of keys as it is: no key is added, removed or duplicated.  This
    lasts until a signal is delivered, whose handler runs [stop_all] and
    ends the program. *)
Theorem registry_keys_invariant env cfg d n w0 w r w' :
  processes w0 = [] ->
  start_all env cfg (checkpoint_at env d) w0 = (Ok tt, w) ->
  monitor_loop env cfg (checkpoint_at env d) n w = (r, w') ->
  NoDup (keys (processes w))
  /\ (forall x, In x (keys (processes w)) <-> In x (INTERFACES cfg))
  /\ (interrupted w r \/ keys (processes w') = keys (processes w)).
Proof.
  intros Hd Es El.
  destruct (start_all_spec env cfg _ (checkpoint_ok env d) w0 w Es)
    as (_ & new & _ & _ & _ & Hr).
  rewrite Hd in Hr.
  destruct (keys_registry_after (INTERFACES cfg) (length (popens w0))
              (length (files w0)) [] (NoDup_nil _)) as [Hnd Hkeys].
  rewrite <- Hr in Hnd, Hkeys.
  split; [exact Hnd|]. split.
  { intros x. rewrite Hkeys. cbn. tauto. }
  destruct (wp_run _ _ _ _ _
              (monitor_loop_spec env cfg _ (checkpoint_ok env d) n w) El)
    as [I|(_ & Hk & _)]; [now left | now right].
Qed.


(* ================================================================== *)
(** ** Signals *)
(* ================================================================== *)

(** While no signal is pending, a call is made as it stands. *)
Lemma prim_quiet {A} env d (act : nat -> World -> Outcome A * World) w :
  sigs w = [] ->
  prim (checkpoint_at env d) act w = act (tick w) (set_tick (S (tick w)) w).
Proof.
  intros H. unfold prim, bind.
  destruct (checkpoint_ok env d w) as [E|(N & _)]; [|contradiction].
  now rewrite E.
Qed.

(** The handler, when no further signal is pending: the log line, one
    [stop_all] on the registry as it is, and the exit with status 0. *)
Lemma handle_sig_quiet env d s w :
  sigs w = [] ->
  exists w' evss,
    handle_sig env (checkpoint_at env d) s w = (Raise (SystemExit 0), w')
    /\ sigs w' = [] /\ processes w' = []
    /\ trace w' = trace w ++ EPrint (received_line s) :: concat evss ++ [EClear]
    /\ Forall2 stops (processes w) evss.
Proof.
  intros H. unfold handle_sig, print, bind.
  rewrite prim_quiet by exact H.
  destruct (wp_result _ _ _
              (stop_all_spec env _ (checkpoint_ok env d)
                 (emit (EPrint (received_line s)) (set_tick (S (tick w)) w))))
    as (r & w' & E & [[_ N]|(-> & H1 & Hp & evss & Ht & Hs & _)]);
    [exfalso; apply N; exact H|].
  rewrite E. exists w', evss. cbn in Ht, H1. rewrite <- app_assoc in Ht.
  repeat split; try assumption. congruence.
Qed.

Lemma replay_app d a : forall b, replay d (a ++ b) = replay (replay d a) b.
Proof.
  revert d. induction a as [|[] a IH]; intros d b; cbn; auto.
Qed.

Lemma still_pending_refl {A} t s w (r : Outcome A) :
  sigs w = [(t, s)] ->
  r <> Raise (SystemExit 0) -> r <> Raise KeyboardInterrupt ->
  still_pending t s w r w.
Proof.
  intros H N1 N2. split; [assumption|]. split.
  { exists []. now rewrite app_nil_r. }
  auto.
Qed.

Lemma sig_safe_ret {A} (a : A) : sig_safe (ret a).
Proof.
  intros t s w H. apply wp_ret. left.
  apply still_pending_refl; [assumption | discriminate | discriminate].
Qed.

Lemma sig_safe_raise {A} e :
  e <> SystemExit 0 -> e <> KeyboardInterrupt -> sig_safe (@raise A e).
Proof.
  intros N1 N2 t s w H. unfold wp, raise. cbn. left.
  apply still_pending_refl; [assumption | congruence | congruence].
Qed.

(** What a run does after a stretch that left the signal pending. *)
Lemma still_pending_then {A B} t s w w1 (r1 : Outcome A) (r : Outcome B) w2 :
  still_pending t s w r1 w1 -> sig_post t s w1 r w2 -> sig_post t s w r w2.
Proof.
  intros (S1 & (evs1 & T1 & C1 & P1) & K1 & _) [Q|Q]; [left|right].
  - destruct Q as (S2 & (evs2 & T2 & C2 & P2) & K2 & N2).
    split; [assumption|]. split.
    { exists (evs1 ++ evs2).
      rewrite T2, T1, app_assoc, count_if_app, C1, C2, P2, P1, replay_app.
      auto. }
    split; [lia | exact N2].
  - destruct Q as (R & S2 & P2 & evs2 & evss & T2 & C2 & F).
    split; [assumption|]. split; [assumption|]. split; [assumption|].
    exists (evs1 ++ evs2), evss.
    rewrite T2, T1, <- !app_assoc, count_if_app, C1, C2, replay_app, <- P1.
    auto.
Qed.

Lemma sig_post_raise {A B} t s w e w1 :
  sig_post t s w (@Raise A e) w1 -> sig_post t s w (@Raise B e) w1.
Proof.
  intros [(S1 & C1 & T1 & N1 & N2)|(E & R)]; [left|right].
  - repeat split; auto; congruence.
  - split; [congruence | exact R].
Qed.

Lemma sig_safe_bind {A B} (c : M A) (k : A -> M B) :
  sig_safe c -> (forall a, sig_safe (k a)) -> sig_safe (bind c k).
Proof.
  intros Hc Hk t s w H. apply wp_bind.
  eapply wp_mono; [apply Hc; eassumption|].
  intros [a|e] w1 P.
  - destruct P as [P|(E & _)]; [|discriminate E].
    eapply wp_mono; [apply Hk; apply P|].
    intros r w2 P2. eapply still_pending_then; eassumption.
  - exact (@sig_post_raise A B t s w e w1 P).
Qed.

Lemma sig_safe_try_except {A} (P : exn -> bool) (body : M A) (h : exn -> M A) :
  P (SystemExit 0) = false ->
  sig_safe body -> (forall e, sig_safe (h e)) -> sig_safe (try_except P body h).
Proof.
  intros HP Hb Hh t s w H. apply wp_try_except.
  eapply wp_mono; [apply Hb; eassumption|].
  intros [a|e] w1 Q; [exact Q|].
  destruct (P e) eqn:Pe; [|exact Q].
  destruct Q as [Q|(E & _)].
  - eapply wp_mono; [apply Hh; apply Q|].
    intros r w2 Q2. eapply still_pending_then; eassumption.
  - inversion E; subst. congruence.
Qed.

Lemma sig_safe_try_except_dead {A} (P : exn -> bool) (body : M A) (h : exn -> M A) :
  (forall e, P e = true -> e = KeyboardInterrupt) ->
  sig_safe body -> sig_safe (try_except P body h).
Proof.
  intros HP Hb t s w H. apply wp_try_except.
  eapply wp_mono; [apply Hb; eassumption|].
  intros [a|e] w1 Q; [exact Q|].
  destruct (P e) eqn:Pe; [|exact Q]. exfalso.
  apply HP in Pe. subst e.
  destruct Q as [(_ & _ & _ & _ & N)|(E & _)]; [now apply N | discriminate E].
Qed.

Lemma sig_safe_pid_of p : sig_safe (pid_of p).
Proof.
  intros t s w H. apply wp_pid_of. left.
  apply still_pending_refl; [assumption | discriminate | discriminate].
Qed.

Lemma sig_safe_items : sig_safe items.
Proof.
  intros t s w H. apply wp_items. left.
  apply still_pending_refl; [assumption | discriminate | discriminate].
Qed.

Lemma sig_safe_for_each {A} (body : A -> M unit) l :
  (forall x, sig_safe (body x)) -> sig_safe (for_each l body).
Proof.
  intros Hb. induction l as [|x l IH].
  - apply (sig_safe_ret tt).
  - change (for_each (x :: l) body) with (bind (body x) (fun _ => for_each l body)).
    apply sig_safe_bind; auto.
Qed.

(** A call, when one signal is pending: either the signal is due, and
    the handler runs in place of the call, or the call is made. *)
Lemma sig_safe_prim {A} env (act : nat -> World -> Outcome A * World) :
  well_behaved act -> sig_safe (prim (checkpoint_at env 1) act).
Proof.
  intros Hact t s w H. unfold wp, prim, bind. cbn [checkpoint_at].
  unfold deliver. rewrite H.
  destruct (t <=? tick w)%nat eqn:Due.
  - destruct (handle_sig_quiet env 0 s (emit (ESignal s) (set_sigs [] w)) eq_refl)
      as (w' & evss & E & H1 & Hp & Ht & Hs).
    cbn [checkpoint_at] in E. rewrite E. cbn [fst snd]. right.
    split; [reflexivity|]. split; [assumption|]. split; [assumption|].
    exists [], evss.
    split; [|split; [reflexivity | exact Hs]].
    rewrite Ht. cbn [emit set_sigs trace app]. now rewrite <- app_assoc.
  - apply Nat.leb_gt in Due. unfold ret, step.
    destruct (Hact (tick w) (set_tick (S (tick w)) w))
      as (Hs & Hk & (e & He & Hne & Hp) & N1 & N2).
    cbn [set_tick sigs tick trace processes] in *. left.
    split; [congruence|]. split.
    { exists [e]. split; [exact He|]. split; [|exact Hp].
      unfold count_if. cbn. now rewrite Hne. }
    split; [left; lia|]. split; assumption.
Qed.

Create HintDb sig.

Ltac behaved :=
  intros k w; cbn;
  repeat match goal with
         | |- context [match ?x with _ => _ end] => destruct x
         end;
  cbn; (split; [reflexivity|]; split; [reflexivity|];
        split; [eexists; split; [reflexivity|]; split; reflexivity|];
        split; discriminate).

Section SigSafe.
Variable env : Env.
Variable cfg : Config.
Let ck := checkpoint_at env 1.

Lemma sig_safe_print line : sig_safe (print ck line).
Proof. apply sig_safe_prim. behaved. Qed.

Lemma sig_safe_print_err line : sig_safe (print_err ck line).
Proof. apply sig_safe_prim. behaved. Qed.

Lemma sig_safe_sleep n : sig_safe (sleep ck n).
Proof. apply sig_safe_prim. behaved. Qed.

Lemma sig_safe_open path mode : sig_safe (open_ env ck path mode).
Proof. apply sig_safe_prim. behaved. Qed.

Lemma sig_safe_Popen cmd out err : sig_safe (Popen_ env ck cmd out err).
Proof. apply sig_safe_prim. behaved. Qed.

Lemma sig_safe_poll p : sig_safe (poll env ck p).
Proof. apply sig_safe_prim. behaved. Qed.

Lemma sig_safe_close f : sig_safe (close env ck f).
Proof. apply sig_safe_prim. behaved. Qed.

Lemma sig_safe_path_exists path : sig_safe (path_exists env ck path).
Proof. apply sig_safe_prim. behaved. Qed.

Lemma sig_safe_mkdir path : sig_safe (mkdir env ck path).
Proof. apply sig_safe_prim. behaved. Qed.

Lemma sig_safe_setitem iface p f : sig_safe (setitem ck iface p f).
Proof. apply sig_safe_prim. behaved. Qed.

#[local] Hint Resolve sig_safe_print sig_safe_print_err sig_safe_sleep sig_safe_open
     sig_safe_Popen sig_safe_poll sig_safe_close sig_safe_path_exists
     sig_safe_mkdir sig_safe_setitem sig_safe_pid_of sig_safe_items
  : sig.

Ltac sig_safe_go :=
  repeat first
    [ solve [auto with sig]
    | apply sig_safe_bind; [|intros ?]
    | apply sig_safe_ret
    | apply sig_safe_try_except; [reflexivity| |intros ?]
    | apply sig_safe_for_each; intros ?
    | apply sig_safe_raise; discriminate
    | progress cbv beta zeta ].

Lemma sig_safe_start_all : sig_safe (start_all env cfg ck).
Proof. unfold start_all, start_one. sig_safe_go. Qed.

Lemma sig_safe_check_unit u : sig_safe (check_unit env cfg ck u).
Proof.
  unfold check_unit, restart. sig_safe_go.
  match goal with |- context [match ?x with _ => _ end] => destruct x end;
    sig_safe_go.
Qed.

Lemma sig_safe_monitor_loop n : sig_safe (monitor_loop env cfg ck n).
Proof.
  induction n as [|n IH]; cbn [monitor_loop]; [apply sig_safe_ret|].
  apply sig_safe_bind; [|intros _; exact IH].
  unfold monitor_pass.
  apply sig_safe_bind; [apply sig_safe_items|]. intros l.
  apply sig_safe_bind; [|intros _; apply sig_safe_sleep].
  apply sig_safe_for_each. apply sig_safe_check_unit.
Qed.

Lemma sig_safe_main n : sig_safe (main env cfg ck n).
Proof.
  unfold main.
  apply sig_safe_bind; [auto with sig|]. intros bin.
  apply sig_safe_bind.
  { destruct bin; cbn [negb]; unfold sys_exit; sig_safe_go. }
  intros _. apply sig_safe_bind; [auto with sig|]. intros dir.
  apply sig_safe_bind.
  { destruct dir; cbn [negb]; unfold sys_exit; sig_safe_go. }
  intros _. apply sig_safe_bind; [apply sig_safe_start_all|]. intros _.
  apply sig_safe_try_except_dead.
  - intros []; cbn; congruence.
  - apply sig_safe_monitor_loop.
Qed.
End SigSafe.

(** C9, as the code has it.  A termination or interrupt signal is not
    turned into a flag and no lock is taken: the handler itself runs the
    shutdown, in the main thread, at the point the signal is delivered.
    With one signal [(t, s)] pending when [main] starts, either the run
    ends before the signal is due, every call made coming before [t]; or
    the signal is delivered, once, after some calls [evs] of the program:
    the handler logs it, runs [stop_all] once, on the registry as those
    calls have left it (the entry of a unit whose restart is under way
    included), and the program exits with status 0, the registry empty.
    Nothing of the interrupted code runs after the delivery: no poll,
    sleep, open, spawn or assignment to the registry follows it, so an
    interrupted restart is abandoned. *)
Theorem signal_runs_shutdown env cfg n w t s :
  sigs w = [(t, s)] ->
  exists r w',
    main env cfg (checkpoint_at env 1) n w = (r, w')
    /\ ((sigs w' = [(t, s)]
         /\ (exists evs, trace w' = trace w ++ evs
                         /\ count_if is_signal evs = 0)
         /\ (tick w' <= t \/ tick w' = tick w)
         /\ r <> Raise (SystemExit 0))
        \/ (r = Raise (SystemExit 0)
            /\ exit_status r = Some 0%Z
            /\ sigs w' = []
            /\ processes w' = []
            /\ exists evs evss,
                 trace w' = trace w ++ evs ++ ESignal s
                                    :: EPrint (received_line s)
                                    :: concat evss ++ [EClear]
                 /\ count_if is_signal evs = 0
                 /\ Forall2 stops (replay (processes w) evs) evss
                 /\ count_if is_signal (concat evss) = 0
                 /\ count_if is_launch (concat evss) = 0)).
Proof.
  intros H.
  destruct (wp_result _ _ _ (sig_safe_main env cfg n t s w H))
    as (r & w' & E & P).
  exists r, w'. split; [exact E|].
  destruct P as [(S1 & (evs & T1 & C1 & _) & K1 & N1 & _)
                |(R & S1 & P1 & evs & evss & T & Cp & F)].
  - left. split; [assumption|]. split; [now exists evs|]. auto.
  - right. subst r. repeat (split; [assumption || reflexivity|]).
    exists evs, evss. destruct (stops_between _ _ F). auto.
Qed.

Lemma signal_runs_shutdown_witness :
  exists w',
    main flaky_env sample_cfg (checkpoint_at flaky_env 1) 1
         (empty_world [(19, SIGTERM)]) = (Raise (SystemExit 0), w')
    /\ processes w' = [].
Proof.
  destruct (signal_runs_shutdown flaky_env sample_cfg 1
              (empty_world [(19, SIGTERM)]) 19 SIGTERM eq_refl)
    as (r & w' & E & [(S1 & _)|(R & _ & _ & P & _)]).
  - exfalso. revert S1.
    replace w' with (snd (main flaky_env sample_cfg (checkpoint_at flaky_env 1) 1
                               (empty_world [(19, SIGTERM)])))
      by (rewrite E; reflexivity).
    vm_compute. discriminate.
  - exists w'. subst r. split; assumption.
Defined.

(** C9, as stated, fails: a signal that arrives during the backoff of a
    restart is handled on the spot.  The shutdown starts while the
    restart of the second unit is under way (its exit detected, its sink
    closed, no replacement spawned yet); [stop_all] then works on that
    same unit, asks its dead process to terminate and closes its sink a
    second time. *)
Lemma shutdown_interleaves_restart :
  let run := program flaky_env 1 (empty_world [(20, SIGTERM)]) in
  fst run = Raise (SystemExit 0)
  /\ interleaved None (trace (snd run)) = true
  /\ trace (snd run) =
     firstn 20 (trace (snd run)) ++ ESignal SIGTERM :: skipn 21 (trace (snd run))
  /\ restarting None (firstn 20 (trace (snd run))) = Some 1
  /\ closes (firstn 20 (trace (snd run))) = [1]
  /\ terminates (skipn 21 (trace (snd run))) = [0; 1; 2]
  /\ closes (skipn 21 (trace (snd run))) = [0; 1; 2].
Proof. vm_compute. repeat split; reflexivity. Qed.

(* ================================================================== *)
(** ** Exit statuses *)
(* ================================================================== *)

(** C6, where the code departs from it.  When the configuration is read
    and the output directory cannot be created, the [mkdir] of the module
    body raises before [main] is entered: the interpreter ends with
    status 1, not 2, the [mkdir] being the only call made and no child
    spawned. *)
Theorem output_dir_failure_exits_1 env n w sections settings cfg :
  config_file env = Parsed sections ->
  lookup "settings" sections = Some settings ->
  load_settings settings = Some cfg ->
  os_mkdir env (tick w) = false ->
  exists w',
    program env n w = (Raise OSError, w')
    /\ exit_status (fst (program env n w)) = Some 1%Z
    /\ trace w' = trace w ++ [EMkdir (Path.to_string (OUTPUT_DIR cfg)) false]
    /\ popens w' = popens w.
Proof.
  intros Hc Hs Hl Hm.
  assert (E : program env n w =
              (Raise OSError,
               emit (EMkdir (Path.to_string (OUTPUT_DIR cfg)) false)
                    (set_tick (S (tick w)) w))).
  { unfold program, module_init. rewrite Hc, Hs, Hl.
    unfold bind, mkdir, prim, bind, ret, step. now rewrite Hm. }
  rewrite E. eexists. repeat split; reflexivity.
Qed.

Lemma output_dir_failure_exits_1_witness :
  exists w',
    program readonly_env 1 (empty_world []) = (Raise OSError, w')
    /\ exit_status (fst (program readonly_env 1 (empty_world []))) = Some 1%Z
    /\ trace w' = [EMkdir "/var/log/tcpdump" false]
    /\ popens w' = [].
Proof.
  exact (output_dir_failure_exits_1 readonly_env 1 (empty_world [])
           [("settings"%string, sample_settings)] sample_settings sample_cfg
           eq_refl eq_refl eq_refl eq_refl).
Defined.


(** A missing binary ends the program with status 2 before any child is
    spawned. *)
Lemma missing_binary_exits_2 env n w sections settings cfg :
  sigs w = [] ->
  config_file env = Parsed sections ->
  lookup "settings" sections = Some settings ->
  load_settings settings = Some cfg ->
  os_mkdir env (tick w) = true ->
  os_exists env (S (tick w)) = false ->
  exists w',
    program env n w = (Raise (SystemExit 2), w')
    /\ exit_status (fst (program env n w)) = Some 2%Z
    /\ popens w' = popens w.
Proof.
  intros H Hc Hs Hl Hm He.
  unfold program, module_init. rewrite Hc, Hs, Hl.
  unfold bind, mkdir, prim, bind, ret, step. rewrite Hm. cbn. rewrite H. cbn.
  unfold main, bind, path_exists, print_err, prim, bind, ret, step, sys_exit, raise.
  cbn. rewrite He. cbn. eexists. repeat split; reflexivity.
Qed.

(** When the output directory is missing as [main] looks for it and
    cannot be created then, the program ends with status 2 before any
    child is spawned. *)
Lemma missing_output_dir_exits_2 env cfg n w :
  sigs w = [] ->
  os_exists env (tick w) = true ->
  os_exists env (S (tick w)) = false ->
  os_mkdir env (S (S (tick w))) = false ->
  exists w',
    main env cfg (checkpoint_at env 0) n w = (Raise (SystemExit 2), w')
    /\ popens w' = popens w.
Proof.
  intros H Hb Hd Hm.
  unfold main, bind, try_except, path_exists, mkdir, print_err, prim, bind, ret,
    step, sys_exit, raise.
  cbn. rewrite Hb. cbn. rewrite Hd. cbn. rewrite Hm. cbn.
  eexists. repeat split; reflexivity.
Qed.


(* ================================================================== *)
(** ** The theorems at work on sample runs *)
(* ================================================================== *)

Lemma sample_cfg_loaded : load_settings sample_settings = Some sample_cfg.
Proof. reflexivity. Qed.

Lemma dup_cfg_loaded : load_settings dup_settings = Some dup_cfg.
Proof. reflexivity. Qed.

Lemma started_world_quiet : sigs started_world = [].
Proof. vm_compute. reflexivity. Qed.





Lemma registry_keys_invariant_witness :
  NoDup (keys (processes started_world))
  /\ (forall x, In x (keys (processes started_world))
                <-> In x (INTERFACES sample_cfg))
  /\ keys (processes (snd (monitor_loop crashing_env sample_cfg (ret tt) 2
                                        started_world)))
     = keys (processes started_world).
Proof.
  destruct (registry_keys_invariant crashing_env sample_cfg 0 2 (empty_world [])
              started_world
              (fst (monitor_loop crashing_env sample_cfg (ret tt) 2 started_world))
              (snd (monitor_loop crashing_env sample_cfg (ret tt) 2 started_world)))
    as (H1 & H2 & [I|H3]).
  - reflexivity.
  - vm_compute; reflexivity.
  - vm_compute; reflexivity.
  - exfalso. exact (not_interrupted _ _ started_world_quiet I).
  - split; [exact H1|]. split; [exact H2 | exact H3].
Defined.





(* ================================================================== *)
(** * Further properties of the program *)
(* ================================================================== *)

(* ================================================================== *)
(** ** The lists and the numbers of the configuration *)
(* ================================================================== *)

Lemma lstrip_starts s : starts_blank (Py.lstrip s) = false.
Proof.
  induction s as [|c r IH]; cbn; [reflexivity|].
  destruct (Py.is_space c) eqn:E; [exact IH | cbn; exact E].
Qed.

Lemma lstrip_id s : starts_blank s = false -> Py.lstrip s = s.
Proof. destruct s as [|c r]; cbn; [reflexivity|]. now intros ->. Qed.

Lemma rstrip_keeps_head c r :
  Py.is_space c = false -> exists r', Py.rstrip (String c r) = String c r'.
Proof.
  intros H. cbn. destruct (Py.rstrip r); rewrite ?H; eauto.
Qed.

Lemma rstrip_starts s : starts_blank s = false -> starts_blank (Py.rstrip s) = false.
Proof.
  destruct s as [|c r]; [reflexivity|]. cbn [starts_blank]. intros H.
  destruct (rstrip_keeps_head c r H) as [r' ->]. exact H.
Qed.

Lemma rstrip_ends s : ends_blank (Py.rstrip s) = false.
Proof.
  induction s as [|c r IH]; cbn; [reflexivity|].
  destruct (Py.rstrip r) as [|c' r'] eqn:E.
  - destruct (Py.is_space c) eqn:Ec; cbn; [reflexivity | exact Ec].
  - cbn in *. exact IH.
Qed.

Lemma rstrip_id s : ends_blank s = false -> Py.rstrip s = s.
Proof.
  induction s as [|c r IH]; [reflexivity|].
  cbn. destruct r as [|c' r'].
  - cbn. now intros ->.
  - intros H. now rewrite (IH H).
Qed.

Lemma strip_starts s : starts_blank (Py.strip s) = false.
Proof. unfold Py.strip. apply rstrip_starts, lstrip_starts. Qed.

Lemma strip_ends s : ends_blank (Py.strip s) = false.
Proof. apply rstrip_ends. Qed.


Lemma lacks_lstrip c s : lacks c s = true -> lacks c (Py.lstrip s) = true.
Proof.
  induction s as [|a r IH]; cbn; [reflexivity|].
  intros H. apply andb_prop in H as [Ha Hr].
  destruct (Py.is_space a); [now apply IH | cbn; now rewrite Ha, Hr].
Qed.

Lemma lacks_rstrip c s : lacks c s = true -> lacks c (Py.rstrip s) = true.
Proof.
  induction s as [|a r IH]; cbn; [reflexivity|].
  intros H. apply andb_prop in H as [Ha Hr]. specialize (IH Hr).
  destruct (Py.rstrip r).
  - destruct (Py.is_space a); cbn; [reflexivity | now rewrite Ha].
  - cbn [lacks] in *. now rewrite Ha, IH.
Qed.

Lemma lacks_strip c s : lacks c s = true -> lacks c (Py.strip s) = true.
Proof. intros H. now apply lacks_rstrip, lacks_lstrip. Qed.

Lemma split_lacks c s : Forall (fun x => lacks c x = true) (Py.split c s).
Proof.
  induction s as [|a r IH]; cbn; [repeat constructor|].
  destruct (Ascii.eqb a c) eqn:E.
  - constructor; [reflexivity | exact IH].
  - destruct (Py.split c r) as [|h t]; [repeat constructor; cbn; now rewrite E|].
    inversion IH; subst. constructor; [cbn; now rewrite E | assumption].
Qed.

Lemma split_whole c s : lacks c s = true -> Py.split c s = [s].
Proof.
  induction s as [|a r IH]; cbn; [reflexivity|].
  intros H. apply andb_prop in H as [Ha Hr].
  destruct (Ascii.eqb a c); [discriminate|]. now rewrite (IH Hr).
Qed.

Lemma split_app c x s :
  lacks c x = true ->
  Py.split c (x ++ String c s)%string = x :: Py.split c s.
Proof.
  induction x as [|a r IH]; cbn; intros H.
  - now rewrite Ascii.eqb_refl.
  - apply andb_prop in H as [Ha Hr].
    destruct (Ascii.eqb a c); [discriminate|]. now rewrite (IH Hr).
Qed.

Lemma split_join c l :
  l <> [] -> Forall (fun x => lacks c x = true) l ->
  Py.split c (Py.join (String c EmptyString) l) = l.
Proof.
  induction l as [|x l IH]; [congruence|]. intros _ H.
  inversion H as [|? ? Hx Hl]; subst.
  destruct l as [|y l].
  - cbn. now apply split_whole.
  - change (Py.join (String c "") (x :: y :: l))
      with (x ++ String c (Py.join (String c "") (y :: l)))%string.
    rewrite split_app by assumption. f_equal. apply IH; [discriminate | assumption].
Qed.

Lemma blank_lacks_comma s : blank s = true -> lacks "," s = true.
Proof.
  induction s as [|a r IH]; cbn; [reflexivity|].
  intros H. apply andb_prop in H as [Ha Hr]. rewrite (IH Hr), andb_true_r.
  destruct (Ascii.eqb_spec a ","); [subst; discriminate | reflexivity].
Qed.

Lemma lacks_app c a b : lacks c (a ++ b)%string = lacks c a && lacks c b.
Proof.
  induction a as [|x r IH]; cbn; [reflexivity|]. now rewrite IH, andb_assoc.
Qed.

Lemma lstrip_blank_app a s : blank a = true -> Py.lstrip (a ++ s)%string = Py.lstrip s.
Proof.
  induction a as [|x r IH]; cbn; [reflexivity|].
  intros H. apply andb_prop in H as [Hx Hr]. rewrite Hx. now apply IH.
Qed.

Lemma rstrip_blank b : blank b = true -> Py.rstrip b = EmptyString.
Proof.
  induction b as [|x r IH]; cbn; [reflexivity|].
  intros H. apply andb_prop in H as [Hx Hr]. now rewrite (IH Hr), Hx.
Qed.

Lemma rstrip_app_blank s b : blank b = true -> Py.rstrip (s ++ b)%string = Py.rstrip s.
Proof.
  intros H. induction s as [|x r IH]; cbn.
  - now apply rstrip_blank.
  - now rewrite IH.
Qed.

Lemma lstrip_blank b : blank b = true -> Py.lstrip b = EmptyString.
Proof.
  induction b as [|x r IH]; cbn; [reflexivity|].
  intros H. apply andb_prop in H as [Hx Hr]. rewrite Hx. now apply IH.
Qed.

(** Whitespace around a trimmed item is stripped off. *)
Lemma strip_padded e : well_padded e -> Py.strip (padded_text e) = item e.
Proof.
  destruct e as [a s b]. unfold well_padded, padded_text, trimmed. cbn.
  intros (Ha & Hb & H1 & H2 & _). unfold Py.strip.
  rewrite (lstrip_blank_app a _ Ha).
  destruct s as [|c r].
  - cbn [String.append]. now rewrite (lstrip_blank b Hb).
  - rewrite (lstrip_id (String c r ++ b)) by exact H1.
    rewrite (rstrip_app_blank _ _ Hb). now apply rstrip_id.
Qed.

Lemma padded_lacks_comma e : well_padded e -> lacks "," (padded_text e) = true.
Proof.
  destruct e as [a s b]. unfold well_padded, padded_text, trimmed. cbn.
  intros (Ha & Hb & _ & _ & Hs).
  now rewrite !lacks_app, Hs, (blank_lacks_comma a Ha), (blank_lacks_comma b Hb).
Qed.

Lemma strip_tidy s : Py.truthy (Py.strip s) = true -> lacks "," s = true ->
  tidy (Py.strip s).
Proof.
  intros Ht Hl. split.
  - intros E. rewrite E in Ht. discriminate Ht.
  - split; [apply strip_starts|]. split; [apply strip_ends|]. now apply lacks_strip.
Qed.

Lemma comma_list_tidy s : Forall tidy (Py.comma_list s).
Proof.
  unfold Py.comma_list.
  pose proof (split_lacks "," s) as H.
  induction H as [|x l Hx _ IH]; cbn; [constructor|].
  destruct (Py.truthy (Py.strip x)) eqn:E; [|exact IH].
  cbn. constructor; [now apply strip_tidy | exact IH].
Qed.

Lemma comma_list_items (l : list Padded) :
  Forall well_padded l ->
  map Py.strip (filter (fun i => Py.truthy (Py.strip i)) (map padded_text l)) =
  filter Py.truthy (map item l).
Proof.
  induction 1 as [|e l He _ IH]; [reflexivity|].
  cbn [map filter]. rewrite (strip_padded e He).
  destruct (Py.truthy (item e)); cbn [map]; rewrite ?(strip_padded e He), IH;
    reflexivity.
Qed.

(** X1.  The lists the configuration yields hold tidy items only:
    whatever the text of [interfaces] and [extra_args], no interface name
    and no extra argument is empty, begins or ends with whitespace, or
    holds a comma. *)
Theorem settings_lists_tidy settings cfg :
  load_settings settings = Some cfg ->
  Forall tidy (INTERFACES cfg) /\ Forall tidy (EXTRA_ARGS cfg).
Proof.
  unfold load_settings. intros H.
  destruct (getint settings "rotate_size_mb" 100); [|discriminate].
  destruct (getint settings "max_rotated_files" 20); [|discriminate].
  inversion H; subst; cbn. split; apply comma_list_tidy.
Qed.

(** X2.  What a comma-separated value means: written as entries joined
    by commas, each a trimmed item between two runs of whitespace, it
    yields the items that are not empty, in their order; whitespace
    around an item and empty entries (as a trailing comma leaves one) do
    not count. *)
Theorem comma_list_padded (l : list Padded) :
  Forall well_padded l ->
  Py.comma_list (Py.join "," (map padded_text l)) =
  filter Py.truthy (map item l).
Proof.
  intros H. unfold Py.comma_list.
  destruct l as [|e l]; [reflexivity|].
  change ","%string with (String "," EmptyString).
  rewrite split_join.
  - now apply comma_list_items.
  - discriminate.
  - apply Forall_map. eapply Forall_impl; [|exact H].
    intros a. apply padded_lacks_comma.
Qed.

(** *** Numbers *)











(** *** Configurations that cannot be used *)



(* ================================================================== *)
(** ** Undisturbed runs, call by call *)
(* ================================================================== *)

Lemma wp_raise {A} e (Q : Outcome A -> World -> Prop) w :
  Q (Raise e) w -> wp (raise e) Q w.
Proof. exact (fun H => H). Qed.

Lemma with_closed_closed heap f :
  is_closed heap f = true -> with_closed f heap = heap.
Proof. unfold with_closed. now intros ->. Qed.

Lemma with_closed_open heap f :
  is_closed heap f = false ->
  with_closed f heap = update f (fun o => mkFile (f_name o) (f_mode o) true) heap.
Proof. unfold with_closed. now intros ->. Qed.

Section Effects.
Variable env : Env.
Variable cfg : Config.
Variable ck : M unit.
Hypothesis Hck : delivers_or_skips ck.

Lemma start_one_effect iface w :
  wp (start_one env cfg ck iface)
     (fun r w' => interrupted w r \/ started_one env cfg iface w r w') w.
Proof.
  unfold start_one. wp_go.
  all: try cut_short.
  all: right; rewrite ?nth_error_snoc; cbn [pid].
  all: first
    [ eapply start_done; [eassumption | eassumption |]
    | eapply start_spawn_refused; [eassumption | eassumption |]
    | eapply start_open_refused; [eassumption |] ].
  all: unfold changes; norm.
  all: repeat split; try reflexivity; try trace_eq; lia.
Qed.

Lemma check_unit_effect u w :
  wp (check_unit env cfg ck u)
     (fun r w' => interrupted w r \/ checked env cfg u w r w') w.
Proof.
  destruct u as [iface [p f]].
  unfold check_unit, restart. cbn [fst snd].
  wp_go.
  all: try cut_short.
  all: right; rewrite ?length_update, ?nth_error_update_snoc, ?nth_error_snoc;
       cbn [pid].
  all: first
    [ eapply check_restarted; [eassumption | eassumption | eassumption |]
    | eapply check_spawn_refused; [eassumption | eassumption | eassumption |]
    | eapply check_open_refused; [eassumption | eassumption |]
    | eapply check_running; [eassumption |] ].
  all: unfold changes, handle_of, sink_of, with_returncode; cbn [fst snd]; norm.
  all: rewrite ?with_closed_closed, ?with_closed_open by eassumption.
  all: repeat split; try reflexivity; try trace_eq; lia.
Qed.

Lemma each_effect {A} (body : A -> M unit)
      (R : A -> World -> Outcome unit -> World -> Prop) :
  (forall x w w', R x w (Ok tt) w' -> sigs w' = sigs w) ->
  (forall x w, wp (body x) (fun r w' => interrupted w r \/ R x w r w') w) ->
  forall l w,
    wp (for_each l body) (fun r w' => interrupted w r \/ each R l w r w') w.
Proof.
  intros Hs Hb. induction l as [|x l IH]; intros w.
  - apply wp_for_each_nil. right. constructor.
  - apply wp_for_each_cons.
    eapply wp_mono; [apply Hb|].
    intros r w1 [[-> Hn]|HR]; [left; split; [reflexivity | assumption]|].
    destruct r as [[]|e]; [|right; now apply each_raise].
    eapply wp_mono; [apply IH|].
    intros r w2 [[-> Hn]|HE].
    + left. split; [reflexivity|]. now rewrite <- (Hs _ _ _ HR).
    + right. eapply each_next; eassumption.
Qed.

End Effects.

Section Effects2.
Variable env : Env.
Variable cfg : Config.
Variable ck : M unit.
Hypothesis Hck : delivers_or_skips ck.

Lemma start_all_effect w :
  wp (start_all env cfg ck)
     (fun r w' =>
        interrupted w r
        \/ each (started_one env cfg) (INTERFACES cfg) w r w') w.
Proof.
  unfold start_all. apply each_effect.
  - intros x w0 w' H. inversion H; subst.
    match goal with H : changes _ _ _ _ _ _ _ |- _ => apply H end.
  - intros x w0. now apply start_one_effect.
Qed.

Lemma checked_sigs u w r w' : checked env cfg u w r w' -> sigs w' = sigs w.
Proof.
  intros H. inversion H; subst;
    match goal with H : changes _ _ _ _ _ _ _ |- _ => apply H end.
Qed.

Lemma each_checked_sigs l : forall w r w',
  each (checked env cfg) l w r w' -> sigs w' = sigs w.
Proof.
  induction 1 as [w|x l w w1 r w2 H _ IH|x l w e w1 H]; [reflexivity|..].
  - rewrite IH. eapply checked_sigs; eassumption.
  - eapply checked_sigs; eassumption.
Qed.

Lemma monitor_pass_effect w :
  wp (monitor_pass env cfg ck)
     (fun r w' => interrupted w r \/ turned env cfg w r w') w.
Proof.
  unfold monitor_pass. wp_step. wp_step. wp_step.
  eapply wp_mono.
  { apply each_effect with (R := checked env cfg).
    - intros x w0 w'. apply checked_sigs.
    - intros x w0. now apply check_unit_effect. }
  intros r w1 [[-> Hn]|HE]; [left; split; [reflexivity | assumption]|].
  destruct r as [[]|e]; [|right; now apply turn_raise].
  pose proof (each_checked_sigs _ _ _ _ HE) as Hs.
  wp_go.
  - left. split; [reflexivity | congruence].
  - right. eapply turn_done; [exact HE|].
    unfold changes. norm. repeat split; reflexivity.
Qed.

Lemma turned_sigs w r w' : turned env cfg w r w' -> sigs w' = sigs w.
Proof.
  intros H. inversion H; subst.
  - match goal with H : changes _ _ _ _ _ _ _ |- _ => destruct H as [-> _] end.
    eapply each_checked_sigs; eassumption.
  - eapply each_checked_sigs; eassumption.
Qed.

Lemma monitor_loop_effect n : forall w,
  wp (monitor_loop env cfg ck n)
     (fun r w' => interrupted w r \/ looped env cfg n w r w') w.
Proof.
  induction n as [|n IH]; intros w; cbn [monitor_loop].
  - apply wp_ret. right. constructor.
  - apply wp_bind.
    eapply wp_mono; [apply monitor_pass_effect|].
    intros r w1 [[-> Hn]|HT]; [left; split; [reflexivity | assumption]|].
    destruct r as [[]|e]; [|right; now apply loop_raise].
    eapply wp_mono; [apply IH|].
    intros r w2 [[-> Hn]|HL].
    + left. split; [reflexivity|]. now rewrite <- (turned_sigs _ _ _ HT).
    + right. eapply loop_next; eassumption.
Qed.

End Effects2.

Lemma checked_raises env cfg u w e w' :
  checked env cfg u w (Raise e) w' -> e = OSError.
Proof. intros H. now inversion H. Qed.

Lemma started_raises env cfg i w e w' :
  started_one env cfg i w (Raise e) w' -> e = OSError.
Proof. intros H. now inversion H. Qed.

Lemma each_raises {A} (R : A -> World -> Outcome unit -> World -> Prop) :
  (forall x w e w', R x w (Raise e) w' -> e = OSError) ->
  forall l w e w', each R l w (Raise e) w' -> e = OSError.
Proof.
  intros HR l w e w' H. remember (Raise e) as r eqn:Er.
  induction H as [w|x l w w1 r w2 H _ IH|x l w e' w1 H].
  - discriminate.
  - now apply IH.
  - inversion Er; subst. eapply HR; eassumption.
Qed.

Lemma turned_raises env cfg w e w' :
  turned env cfg w (Raise e) w' -> e = OSError.
Proof.
  intros H. inversion H; subst.
  eapply each_raises; [|eassumption]. apply checked_raises.
Qed.

Lemma looped_raises env cfg n w e w' :
  looped env cfg n w (Raise e) w' -> e = OSError.
Proof.
  intros H. remember (Raise e) as r eqn:Er.
  induction H as [w|n w w1 r w2 H _ IH|n w e' w1 H].
  - discriminate.
  - now apply IH.
  - inversion Er; subst. eapply turned_raises; eassumption.
Qed.

Lemma started_sigs env cfg i w r w' :
  started_one env cfg i w r w' -> sigs w' = sigs w.
Proof.
  intros H. inversion H; subst;
    match goal with H : changes _ _ _ _ _ _ _ |- _ => apply H end.
Qed.

Lemma each_sigs {A} (R : A -> World -> Outcome unit -> World -> Prop) :
  (forall x w r w', R x w r w' -> sigs w' = sigs w) ->
  forall l w r w', each R l w r w' -> sigs w' = sigs w.
Proof.
  intros HR l w r w' H.
  induction H as [w|x l w w1 r w2 H _ IH|x l w e w1 H]; [reflexivity|..].
  - rewrite IH. eapply HR; eassumption.
  - eapply HR; eassumption.
Qed.

Section Effects3.
Variable env : Env.
Variable cfg : Config.
Variable ck : M unit.
Hypothesis Hck : delivers_or_skips ck.

Lemma main_supervises n w w0 :
  prepared env cfg w w0 ->
  wp (start_all env cfg ck)
     (fun r w1 =>
        match r with
        | Ok _ =>
            wp (try_except is_KeyboardInterrupt (monitor_loop env cfg ck n)
                           (fun _ => handle_sig env ck SIGINT))
               (fun r w' => interrupted w r \/ ran env cfg n w r w') w1
        | Raise e =>
            interrupted w (@Raise unit e) \/ ran env cfg n w (Raise e) w1
        end) w0.
Proof.
  intros Hp.
  assert (Hs0 : sigs w0 = sigs w)
    by (inversion Hp; subst;
        match goal with H : changes _ _ _ _ _ _ _ |- _ => apply H end).
  eapply wp_mono; [apply (start_all_effect env cfg ck Hck)|].
  intros r w1 [[-> Hn]|HE]; [left; split; [reflexivity | congruence]|].
  destruct r as [[]|e]; [|right; eapply ran_start_failed; eassumption].
  pose proof (each_sigs _ (started_sigs env cfg) _ _ _ _ HE) as Hs1.
  apply wp_try_except.
  eapply wp_mono; [apply (monitor_loop_effect env cfg ck Hck)|].
  intros r w2 [[-> Hn]|HL]; [left; split; [reflexivity | congruence]|].
  destruct r as [[]|e].
  - right. eapply ran_loop; eassumption.
  - pose proof (looped_raises _ _ _ _ _ _ HL) as ->. cbn [is_KeyboardInterrupt].
    right. eapply ran_loop; eassumption.
Qed.

Lemma main_effect n w :
  wp (main env cfg ck n)
     (fun r w' => interrupted w r \/ ran env cfg n w r w') w.
Proof.
  unfold main, path_exists, print_err, mkdir, sys_exit.
  wp_go.
  destruct (os_exists env (tick w)) eqn:Eb; cbn [negb].
  2:{ wp_go. apply wp_raise. right. apply ran_no_binary; [exact Eb|].
      unfold changes. norm. repeat split; try reflexivity; try trace_eq; lia. }
  wp_go.
  destruct (os_exists env (S (tick w))) eqn:Ed; cbn [negb].
  - wp_go. apply main_supervises.
    apply prepared_found; [exact Eb | exact Ed |].
    unfold changes; norm.
    repeat split; try reflexivity; try trace_eq; lia.
  - wp_go.
    destruct (os_mkdir env (S (S (tick w)))) eqn:Em; norm.
    + wp_go. apply main_supervises.
      apply prepared_made; [exact Eb | exact Ed | exact Em |].
      unfold changes; norm.
      repeat split; try reflexivity; try trace_eq; lia.
    + wp_go. apply wp_raise. right.
      apply ran_no_directory; [exact Eb | exact Ed | exact Em |].
      unfold changes; norm.
      repeat split; try reflexivity; try trace_eq; lia.
Qed.

End Effects3.

(* ================================================================== *)
(** ** The account of an undisturbed run *)
(* ================================================================== *)

Lemma accounted_refl w : accounted w w [].
Proof. unfold accounted. cbn. rewrite app_nil_r. repeat split; lia. Qed.

Lemma accounted_trans w w1 w2 a b :
  accounted w w1 a -> accounted w1 w2 b -> accounted w w2 (a ++ b).
Proof.
  intros (T1 & C1 & S1 & K1) (T2 & C2 & S2 & K2). unfold accounted.
  rewrite closes_app, length_app, !count_if_app, T2, T1, app_assoc.
  repeat split; lia.
Qed.

Lemma accounted_changes w w' evs ps fs reg dt :
  changes w w' evs ps fs reg dt ->
  dt = count_if is_pause evs + 2 * count_if is_detect evs ->
  count_if is_stop evs = 0 ->
  length (closes evs) = count_if is_detect evs ->
  accounted w w' evs.
Proof.
  intros (_ & _ & T & _ & _ & _ & C) -> S K. unfold accounted.
  repeat split; try assumption. lia.
Qed.

Lemma started_accounted env cfg i w r w' :
  started_one env cfg i w r w' -> exists evs, accounted w w' evs.
Proof.
  intros H. inversion H; subst; eexists;
    (eapply accounted_changes; [eassumption | reflexivity..]).
Qed.

Lemma checked_accounted env cfg u w r w' :
  checked env cfg u w r w' ->
  exists evs, accounted w w' evs /\ count_if is_pause evs = 0.
Proof.
  intros H. inversion H; subst; eexists;
    (split; [eapply accounted_changes; [eassumption | reflexivity..]
            | reflexivity]).
Qed.

Lemma each_accounted {A} (R : A -> World -> Outcome unit -> World -> Prop)
      (P : list Event -> Prop) :
  P [] -> (forall a b, P a -> P b -> P (a ++ b)) ->
  (forall x w r w', R x w r w' -> exists evs, accounted w w' evs /\ P evs) ->
  forall l w r w',
    each R l w r w' -> exists evs, accounted w w' evs /\ P evs.
Proof.
  intros P0 Pa HR l w r w' H.
  induction H as [w|x l w w1 r w2 H _ IH|x l w e w1 H].
  - exists []. split; [apply accounted_refl | exact P0].
  - destruct (HR _ _ _ _ H) as (a & Ha & Pa').
    destruct IH as (b & Hb & Pb).
    exists (a ++ b). split; [eapply accounted_trans; eassumption | auto].
  - eapply HR; eassumption.
Qed.

Lemma no_pause_app a b :
  count_if is_pause a = 0 -> count_if is_pause b = 0 ->
  count_if is_pause (a ++ b) = 0.
Proof. intros Ha Hb. rewrite count_if_app. lia. Qed.

Lemma turned_accounted env cfg w r w' :
  turned env cfg w r w' ->
  exists evs, accounted w w' evs
              /\ count_if is_pause evs = match r with Ok _ => 1 | Raise _ => 0 end.
Proof.
  intros H. inversion H as [w1 w2 HE HC|e w2 HE]; subst.
  - destruct (each_accounted (checked env cfg)
                (fun evs => count_if is_pause evs = 0) eq_refl no_pause_app
                (checked_accounted env cfg) _ _ _ _ HE) as (a & Ha & Pa).
    exists (a ++ [ESleep 1]). split.
    + eapply accounted_trans; [exact Ha|].
      eapply accounted_changes; [eassumption | reflexivity..].
    + rewrite count_if_app, Pa. reflexivity.
  - exact (each_accounted (checked env cfg)
             (fun evs => count_if is_pause evs = 0) eq_refl no_pause_app
             (checked_accounted env cfg) _ _ _ _ HE).
Qed.

Lemma looped_accounted env cfg n w r w' :
  looped env cfg n w r w' ->
  exists evs, accounted w w' evs
              /\ count_if is_pause evs <= n
              /\ (r = Ok tt -> count_if is_pause evs = n).
Proof.
  induction 1 as [w|n w w1 r w2 H _ IH|n w e w1 H].
  - exists []. split; [apply accounted_refl|]. split; [cbn; lia | reflexivity].
  - destruct (turned_accounted _ _ _ _ _ H) as (a & Ha & Pa).
    destruct IH as (b & Hb & Pb & Pb').
    exists (a ++ b). split; [eapply accounted_trans; eassumption|].
    rewrite count_if_app, Pa. split; [lia|]. intros E. rewrite (Pb' E). lia.
  - destruct (turned_accounted _ _ _ _ _ H) as (a & Ha & Pa).
    exists a. split; [exact Ha|]. rewrite Pa. split; [lia | discriminate].
Qed.


Lemma start_all_accounted env cfg l w r w' :
  each (started_one env cfg) l w r w' -> exists evs, accounted w w' evs.
Proof.
  intros H.
  destruct (each_accounted (started_one env cfg) (fun _ => True) I
              (fun _ _ _ _ => I)
              (fun x w r w' H =>
                 match started_accounted env cfg x w r w' H with
                 | ex_intro _ evs Ha => ex_intro _ evs (conj Ha I)
                 end) _ _ _ _ H) as (evs & Ha & _).
  now exists evs.
Qed.


(* ================================================================== *)
(** ** How [main] ends *)
(* ================================================================== *)








(* ================================================================== *)
(** ** The loop while nothing exits *)
(* ================================================================== *)

Lemma changes_nothing w : changes w w [] (popens w) (files w) (processes w) 0.
Proof. unfold changes. cbn. rewrite app_nil_r. repeat split; lia. Qed.

Lemma changes_then w w1 w2 a b da db :
  changes w w1 a (popens w) (files w) (processes w) da ->
  changes w1 w2 b (popens w1) (files w1) (processes w1) db ->
  changes w w2 (a ++ b) (popens w) (files w) (processes w) (da + db).
Proof.
  intros (S1 & K1 & T1 & P1 & F1 & R1 & C1) (S2 & K2 & T2 & P2 & F2 & R2 & C2).
  unfold changes. rewrite length_app, T2, T1, app_assoc.
  repeat split; try congruence; lia.
Qed.

Section Quiet.
Variable env : Env.
Variable cfg : Config.
Hypothesis Hquiet : forall k, os_poll env k = None.

Lemma checked_quiet u w r w' :
  returncode_of (popens w) (handle_of u) = None ->
  checked env cfg u w r w' ->
  r = Ok tt
  /\ changes w w' [EPoll (handle_of u) None] (popens w) (files w) (processes w) 0.
Proof.
  intros Hr H.
  assert (E : exit_seen env (tick w) (popens w) (handle_of u) = None)
    by (unfold exit_seen; rewrite Hr; apply Hquiet).
  inversion H; subst; try congruence. split; [reflexivity | assumption].
Qed.

Lemma each_quiet l : forall w r w',
  all_running (popens w) l ->
  each (checked env cfg) l w r w' ->
  r = Ok tt
  /\ changes w w' (polls l) (popens w) (files w) (processes w) 0.
Proof.
  intros w r w' Hl H. revert Hl.
  induction H as [w|u l w w1 r w2 H _ IH|u l w e w1 H]; intros Hl.
  - split; [reflexivity | apply changes_nothing].
  - inversion Hl as [|? ? Hu Hl']; subst.
    destruct (checked_quiet _ _ _ _ Hu H) as [_ C].
    assert (Hp : popens w1 = popens w) by apply C.
    destruct IH as [-> C2]; [unfold all_running; now rewrite Hp|].
    split; [reflexivity|].
    exact (changes_then _ _ _ _ _ _ _ C C2).
  - inversion Hl as [|? ? Hu Hl']; subst.
    destruct (checked_quiet _ _ _ _ Hu H) as [N _]. discriminate N.
Qed.

Lemma turned_quiet w r w' :
  all_running (popens w) (processes w) ->
  turned env cfg w r w' ->
  r = Ok tt
  /\ changes w w' (polls (processes w) ++ [ESleep 1])
             (popens w) (files w) (processes w) 1.
Proof.
  intros Hl H. inversion H as [w1 w2 HE HC|e w2 HE]; subst.
  - destruct (each_quiet _ _ _ _ Hl HE) as [_ C].
    split; [reflexivity|]. exact (changes_then _ _ _ _ _ _ _ C HC).
  - destruct (each_quiet _ _ _ _ Hl HE) as [N _]. discriminate N.
Qed.

Lemma looped_quiet n : forall w r w',
  all_running (popens w) (processes w) ->
  looped env cfg n w r w' ->
  r = Ok tt
  /\ changes w w' (concat (repeat (polls (processes w) ++ [ESleep 1]) n))
             (popens w) (files w) (processes w) n.
Proof.
  intros w r w' Hl H. revert Hl.
  induction H as [w|n w w1 r w2 H _ IH|n w e w1 H]; intros Hl.
  - split; [reflexivity | apply changes_nothing].
  - destruct (turned_quiet _ _ _ Hl H) as [_ C].
    assert (Hp : popens w1 = popens w) by apply C.
    assert (Hr : processes w1 = processes w) by apply C.
    destruct IH as [-> C2]; [now rewrite Hp, Hr|].
    split; [reflexivity|]. rewrite Hr in C2 at 1.
    exact (changes_then _ _ _ _ _ _ _ C C2).
  - destruct (turned_quiet _ _ _ Hl H) as [N _]. discriminate N.
Qed.
End Quiet.

(** X8.  The steady state.  While no child exits, a turn of the loop
    polls each unit of the registry once, in the order of the registry,
    and pauses for 1: [n] turns take the time [n], and leave the
    registry, the processes and the files exactly as they were; nothing
    is printed, opened, closed or spawned.  With no interface configured
    the turn is the pause alone.  (Unless a pending signal is delivered
    meanwhile.) *)
Theorem steady_state env cfg d n w :
  (forall k, os_poll env k = None) ->
  all_running (popens w) (processes w) ->
  exists r w',
    monitor_loop env cfg (checkpoint_at env d) n w = (r, w')
    /\ (interrupted w r
        \/ (r = Ok tt
            /\ trace w' =
               trace w ++ concat (repeat (polls (processes w) ++ [ESleep 1]) n)
            /\ popens w' = popens w /\ files w' = files w
            /\ processes w' = processes w
            /\ clock w' = clock w + n)).
Proof.
  intros Hq Hl.
  destruct (wp_result _ _ _
              (monitor_loop_effect env cfg _ (checkpoint_ok env d) n w))
    as (r & w' & E & P).
  exists r, w'. split; [exact E|].
  destruct P as [I|L]; [now left | right].
  destruct (looped_quiet env cfg Hq n _ _ _ Hl L)
    as (-> & _ & _ & T & Pp & Pf & Pr & C).
  repeat split; assumption.
Qed.

(* ================================================================== *)
(** ** What a restart touches *)
(* ================================================================== *)

Lemma nth_error_update_other {A} (g : A -> A) l : forall n m,
  n <> m -> nth_error (update n g l) m = nth_error l m.
Proof.
  induction l as [|x l IH]; intros [|n] [|m] N; cbn; auto; try congruence.
Qed.

Lemma nth_error_with_closed_other heap f g :
  g <> f -> nth_error (with_closed f heap) g = nth_error heap g.
Proof.
  intros N. unfold with_closed. destruct (is_closed heap f); [reflexivity|].
  apply nth_error_update_other. congruence.
Qed.

Lemma length_with_closed heap f : length (with_closed f heap) = length heap.
Proof.
  unfold with_closed. destruct (is_closed heap f); [reflexivity|].
  apply length_update.
Qed.

Lemma nth_error_with_returncode_other heap p c q :
  q <> p -> nth_error (with_returncode p c heap) q = nth_error heap q.
Proof. intros N. apply nth_error_update_other. congruence. Qed.

Lemma length_with_returncode heap p c :
  length (with_returncode p c heap) = length heap.
Proof. apply length_update. Qed.

Lemma checked_frame env cfg u w r w' :
  checked env cfg u w r w' ->
  (forall k, k <> fst u -> lookup k (processes w') = lookup k (processes w))
  /\ (forall q, q <> handle_of u -> q < length (popens w) ->
        nth_error (popens w') q = nth_error (popens w) q)
  /\ (forall g, g <> sink_of u -> g < length (files w) ->
        nth_error (files w') g = nth_error (files w) g)
  /\ length (popens w) <= length (popens w')
  /\ length (files w) <= length (files w').
Proof.
  intros H.
  inversion H; subst;
    match goal with
    | H : changes _ _ _ _ _ _ _ |- _ =>
        destruct H as (_ & _ & _ & -> & -> & -> & _)
    end.
  all: rewrite ?length_app, ?length_with_closed, ?length_with_returncode.
  all: repeat split; try lia.
  all: intros x Hx; try intros Hlt.
  all: rewrite ?lookup_dict_set_other by congruence.
  all: rewrite ?nth_error_app1
         by (rewrite ?length_with_closed, ?length_with_returncode; exact Hlt).
  all: rewrite ?nth_error_with_closed_other, ?nth_error_with_returncode_other
         by exact Hx.
  all: reflexivity.
Qed.

(** X9.  A restart is local.  Whatever the body of the monitoring pass
    does with one unit (nothing, a restart, or a restart that fails), it
    leaves every other name of the registry bound as it was, every
    process object but the one polled and every file object but the sink
    of that unit as they were, and it destroys no object.  (Unless a
    pending signal is delivered meanwhile.) *)
Theorem restart_is_local env cfg d u w :
  exists r w',
    check_unit env cfg (checkpoint_at env d) u w = (r, w')
    /\ (interrupted w r
        \/ ((forall k, k <> fst u ->
               lookup k (processes w') = lookup k (processes w))
            /\ (forall q, q <> handle_of u -> q < length (popens w) ->
                  nth_error (popens w') q = nth_error (popens w) q)
            /\ (forall g, g <> sink_of u -> g < length (files w) ->
                  nth_error (files w') g = nth_error (files w) g)
            /\ length (popens w) <= length (popens w')
            /\ length (files w) <= length (files w'))).
Proof.
  destruct (wp_result _ _ _
              (check_unit_effect env cfg _ (checkpoint_ok env d) u w))
    as (r & w' & E & P).
  exists r, w'. split; [exact E|].
  destruct P as [I|C]; [now left | right].
  eapply checked_frame; eassumption.
Qed.

(* ================================================================== *)
(** ** The registry in order *)
(* ================================================================== *)

Lemma dict_set_replace {V} (k : string) (v v0 : V) d :
  NoDup (keys d) -> In (k, v0) d ->
  exists d1 d2, d = d1 ++ (k, v0) :: d2
                /\ dict_set k v d = d1 ++ (k, v) :: d2.
Proof.
  induction d as [|[k' v'] d IH]; cbn; [tauto|].
  intros Hn [E|H].
  - inversion E; subst. exists [], d. rewrite String.eqb_refl. auto.
  - inversion Hn as [|? ? Hk Hd]; subst.
    destruct (String.eqb_spec k k') as [->|N0].
    + exfalso. apply Hk. change k' with (fst (k', v0)). now apply in_map.
    + destruct (IH Hd H) as (d1 & d2 & -> & ->).
      exists ((k', v') :: d1), d2. auto.
Qed.

Lemma in_dict_set_other {V} (k k' : string) (v v' : V) d :
  k' <> k -> In (k', v') d -> In (k', v') (dict_set k v d).
Proof.
  intros N. induction d as [|[k0 v0] d IH]; cbn; [tauto|].
  intros [E|H].
  - inversion E; subst.
    destruct (String.eqb_spec k k'); [congruence | now left].
  - destruct (String.eqb_spec k k0); [now right | right; auto].
Qed.

Lemma unit_ok_bounds cfg w u :
  unit_ok cfg w u ->
  handle_of u < length (popens w) /\ sink_of u < length (files w).
Proof.
  intros [[n Hp] Hf]. split; apply nth_error_Some; congruence.
Qed.

Lemma is_closed_app_old a b g :
  g < length a -> is_closed (a ++ b) g = is_closed a g.
Proof. intros H. unfold is_closed. now rewrite nth_error_app1. Qed.

Lemma is_closed_beyond heap g : length heap <= g -> is_closed heap g = true.
Proof.
  intros H. unfold is_closed.
  now rewrite (proj2 (nth_error_None heap g) H).
Qed.

Lemma is_closed_with_closed heap f g :
  is_closed (with_closed f heap) g = is_closed heap g || (g =? f)%nat.
Proof.
  unfold with_closed. destruct (is_closed heap f) eqn:E.
  - destruct (Nat.eqb_spec g f) as [->|N]; [now rewrite E | now rewrite orb_false_r].
  - destruct (Nat.eqb_spec g f) as [->|N].
    + rewrite is_closed_marked. now rewrite orb_true_r.
    + unfold is_closed. rewrite nth_error_update_other by congruence.
      now rewrite orb_false_r.
Qed.

Lemma NoDup_app_disjoint {A} (a b : list A) x :
  NoDup (a ++ b) -> In x a -> In x b -> False.
Proof.
  induction a as [|y a IH]; cbn; [tauto|].
  intros H [->|Ia] Ib; inversion H as [|? ? Hy Hn]; subst.
  - apply Hy. apply in_or_app. now right.
  - now apply IH.
Qed.

Lemma NoDup_replace {A} (a o b : list A) x :
  NoDup (a ++ o ++ b) -> ~ In x (a ++ b) -> NoDup (a ++ x :: b).
Proof.
  induction a as [|y a IH]; cbn; intros H N.
  - constructor; [exact N|]. now apply NoDup_app_remove_l in H.
  - inversion H as [|? ? Hy Hn]; subst. constructor.
    + rewrite in_app_iff in *. cbn. rewrite in_app_iff in Hy.
      intros [I|[E|I]]; [tauto | subst; tauto | tauto].
    + apply IH; [exact Hn | tauto].
Qed.

Lemma NoDup_middle {A} (a o b : list A) x :
  NoDup (a ++ o ++ b) -> In x a \/ In x b -> ~ In x o.
Proof.
  intros H [I|I] Io.
  - apply (NoDup_app_disjoint a (o ++ b) x H I). apply in_or_app. now left.
  - apply NoDup_app_remove_l in H. exact (NoDup_app_disjoint o b x H Io I).
Qed.

(** The heart of the invariant: in a registry in order, one entry (or
    none) gives way to a new unit whose process and sink are new
    objects, the sink of the old entry now closed, the other objects as
    they were but for return codes of processes no longer registered. *)
Lemma supervised_replace cfg w w' k n (old : Registry) d1 d2 :
  supervised cfg w ->
  processes w = d1 ++ old ++ d2 ->
  processes w' = d1 ++ (k, (length (popens w), length (files w))) :: d2 ->
  NoDup (keys (processes w')) ->
  length (files w') = S (length (files w)) ->
  nth_error (popens w') (length (popens w))
  = Some (child_for cfg k n (length (files w))) ->
  nth_error (files w') (length (files w)) = Some (sink_for cfg k) ->
  (forall q, q < length (popens w) -> ~ In q (map handle_of old) ->
             nth_error (popens w') q = nth_error (popens w) q) ->
  (forall g, g < length (files w) -> ~ In g (map sink_of old) ->
             nth_error (files w') g = nth_error (files w) g) ->
  (forall g, In g (map sink_of old) -> is_closed (files w') g = true) ->
  supervised cfg w'.
Proof.
  intros (Hk & Hh & Hs & Hu & Ho) Hr Hr' Hk' Lf Np Nf Fp Ff Fc.
  rewrite Hr in Hh, Hs, Hu, Ho.
  rewrite !map_app in Hh, Hs, Ho.
  assert (Hb : forall u, In u (d1 ++ old ++ d2) ->
                 handle_of u < length (popens w) /\ sink_of u < length (files w)).
  { intros u Iu. apply (unit_ok_bounds cfg).
    exact (proj1 (Forall_forall _ _) Hu u Iu). }
  assert (Hin : forall u, In u d1 \/ In u d2 -> In u (d1 ++ old ++ d2)).
  { intros u Iu. rewrite !in_app_iff. tauto. }
  assert (Hfresh_p : ~ In (length (popens w)) (map handle_of d1 ++ map handle_of d2)).
  { rewrite <- map_app. intros I. apply in_map_iff in I as (u & E & Iu).
    apply in_app_or in Iu. destruct (Hb u (Hin u Iu)). lia. }
  assert (Hfresh_f : ~ In (length (files w)) (map sink_of d1 ++ map sink_of d2)).
  { rewrite <- map_app. intros I. apply in_map_iff in I as (u & E & Iu).
    apply in_app_or in Iu. destruct (Hb u (Hin u Iu)). lia. }
  unfold supervised. rewrite Hr'. rewrite !map_app. cbn [map].
  split; [now rewrite Hr' in Hk'|].
  split; [exact (NoDup_replace _ _ _ _ Hh Hfresh_p)|].
  split; [exact (NoDup_replace _ _ _ _ Hs Hfresh_f)|].
  split.
  - apply Forall_forall. intros u Iu.
    apply in_app_or in Iu. destruct Iu as [Iu|[<-|Iu]].
    2:{ split; [exists n; exact Np | exact Nf]. }
    all: (assert (Iu' : In u d1 \/ In u d2) by tauto);
         destruct (Hb u (Hin u Iu')) as [Bp Bf];
         destruct (proj1 (Forall_forall _ _) Hu u (Hin u Iu')) as [[m Hm] Hf];
         (split; [exists m; rewrite Fp; [exact Hm | exact Bp |]
                 | rewrite Ff; [exact Hf | exact Bf |]]).
    all: first [ apply (NoDup_middle _ _ _ _ Hh)
               | apply (NoDup_middle _ _ _ _ Hs) ].
    all: first [ left; now apply in_map | right; now apply in_map ].
  - intros g Hg. rewrite in_app_iff. cbn [In].
    destruct (Nat.lt_ge_cases g (length (files w))) as [Lt|Ge].
    + destruct (in_dec Nat.eq_dec g (map sink_of old)) as [Io|Io].
      { rewrite (Fc g Io) in Hg. discriminate Hg. }
      assert (Hg' : is_closed (files w) g = false).
      { unfold is_closed in *. now rewrite <- (Ff g Lt Io). }
      specialize (Ho g Hg'). rewrite !in_app_iff in Ho. tauto.
    + destruct (Nat.eq_dec g (length (files w))) as [->|N];
        [right; now left|].
      rewrite is_closed_beyond in Hg by lia. discriminate Hg.
Qed.

Lemma supervised_same cfg w w' :
  popens w' = popens w -> files w' = files w -> processes w' = processes w ->
  supervised cfg w -> supervised cfg w'.
Proof.
  unfold supervised, unit_ok. intros -> -> ->. exact (fun H => H).
Qed.

Lemma supervised_fresh cfg w :
  processes w = [] -> (forall g, is_closed (files w) g = true) ->
  supervised cfg w.
Proof.
  intros Hr Hc. unfold supervised. rewrite Hr. cbn.
  repeat split; try constructor.
  intros g Hg. rewrite Hc in Hg. discriminate Hg.
Qed.

Lemma open_handles_from_none heap : forall n,
  open_handles_from n heap = [] -> Forall (fun o => closed o = true) heap.
Proof.
  induction heap as [|o heap IH]; intros n H; [constructor|].
  cbn in H. destruct (closed o) eqn:E; [|discriminate].
  constructor; [exact E | exact (IH _ H)].
Qed.

Lemma open_handles_none heap g :
  open_handles heap = [] -> is_closed heap g = true.
Proof.
  intros H. apply open_handles_from_none in H. unfold is_closed.
  destruct (nth_error heap g) as [o|] eqn:E; [|reflexivity].
  exact (proj1 (Forall_forall _ _) H o (nth_error_In _ _ E)).
Qed.

Lemma started_supervised env cfg i w w' :
  supervised cfg w -> ~ In i (keys (processes w)) ->
  started_one env cfg i w (Ok tt) w' ->
  supervised cfg w' /\ processes w' = processes w ++ [(i, (length (popens w), length (files w)))].
Proof.
  intros Hs Hi H. inversion H as [n w1 Ho Hp HC| |]; subst.
  destruct HC as (_ & _ & _ & Pp & Pf & Pr & _).
  rewrite dict_set_notin in Pr by exact Hi. split; [|exact Pr].
  apply (supervised_replace cfg w w' i n [] (processes w) []); try assumption.
  - cbn. now rewrite app_nil_r.
  - rewrite Pr. unfold keys. rewrite map_app. cbn.
    apply NoDup_app; [apply Hs | repeat constructor; cbn; tauto |].
    intros a Ha [<-|[]]. exact (Hi Ha).
  - rewrite Pf, length_app. cbn. lia.
  - rewrite Pp. apply nth_error_snoc.
  - rewrite Pf. apply nth_error_snoc.
  - intros q Hq _. rewrite Pp. now apply nth_error_app1.
  - intros g Hg _. rewrite Pf. now apply nth_error_app1.
  - intros g [].
Qed.

Lemma start_all_supervised env cfg l : forall w w',
  supervised cfg w -> NoDup l ->
  (forall i, In i l -> ~ In i (keys (processes w))) ->
  each (started_one env cfg) l w (Ok tt) w' ->
  supervised cfg w' /\ keys (processes w') = keys (processes w) ++ l.
Proof.
  intros w w' Hs Hn Hf H. remember (Ok tt) as r eqn:Er.
  revert Hs Hn Hf.
  induction H as [w|i l w w1 r w2 H _ IH|i l w e w1 H]; intros Hs Hn Hf.
  - split; [exact Hs | now rewrite app_nil_r].
  - inversion Hn as [|? ? Hi Hl]; subst.
    destruct (started_supervised _ _ _ _ _ Hs (Hf i (or_introl eq_refl)) H)
      as [Hs1 Hr1].
    destruct IH as [Hs2 Hk2]; try assumption; try reflexivity.
    + intros j Hj. rewrite Hr1. unfold keys. rewrite map_app, in_app_iff. cbn.
      intros [I|[E|[]]]; [exact (Hf j (or_intror Hj) I) | congruence].
    + split; [exact Hs2|]. rewrite Hk2, Hr1. unfold keys.
      rewrite map_app, <- app_assoc. reflexivity.
  - discriminate.
Qed.

Lemma checked_supervised env cfg u w w' :
  supervised cfg w -> In u (processes w) ->
  checked env cfg u w (Ok tt) w' ->
  supervised cfg w'
  /\ forall u', fst u' <> fst u -> In u' (processes w) -> In u' (processes w').
Proof.
  intros Hs Hu H.
  inversion H as [w1 He HC|code okc n w1 He Ho Hp HC| |]; subst.
  - destruct HC as (_ & _ & _ & Pp & Pf & Pr & _).
    split; [now apply (supervised_same cfg w)|]. intros u' _. now rewrite Pr.
  - destruct HC as (_ & _ & _ & Pp & Pf & Pr & _).
    destruct u as [k [p f]]. unfold handle_of, sink_of in *. cbn [fst snd] in *.
    assert (Hk : NoDup (keys (processes w))) by apply Hs.
    assert (Hb : p < length (popens w) /\ f < length (files w)).
    { apply (unit_ok_bounds cfg w (k, (p, f))).
      destruct Hs as (_ & _ & _ & Hf & _).
      exact (proj1 (Forall_forall _ _) Hf _ Hu). }
    destruct (dict_set_replace k (length (popens w), length (files w)) (p, f)
                _ Hk Hu) as (d1 & d2 & E1 & E2).
    split.
    + apply (supervised_replace cfg w w' k n [(k, (p, f))] d1 d2);
        try assumption.
      * congruence.
      * rewrite Pr. now apply NoDup_keys_dict_set.
      * rewrite Pf, length_app, length_with_closed. cbn. lia.
      * rewrite Pp. unfold with_returncode. apply nth_error_update_snoc.
      * rewrite Pf, nth_error_app2 by (rewrite length_with_closed; lia).
        now rewrite length_with_closed, Nat.sub_diag.
      * intros q Hq Nq. rewrite Pp.
        rewrite nth_error_app1 by (now rewrite length_with_returncode).
        apply nth_error_with_returncode_other.
        intros E. apply Nq. left. subst. reflexivity.
      * intros g Hg Ng. rewrite Pf.
        rewrite nth_error_app1 by (now rewrite length_with_closed).
        apply nth_error_with_closed_other.
        intros E. apply Ng. left. subst. reflexivity.
      * intros g [E|[]]. cbn in E. subst g. rewrite Pf.
        rewrite is_closed_app_old by (rewrite length_with_closed; lia).
        now rewrite is_closed_with_closed, Nat.eqb_refl, orb_true_r.
    + intros [k' v'] N I. rewrite Pr. cbn in N. now apply in_dict_set_other.
Qed.

Lemma pass_supervised env cfg l : forall w w',
  supervised cfg w -> NoDup (map fst l) ->
  (forall u, In u l -> In u (processes w)) ->
  each (checked env cfg) l w (Ok tt) w' ->
  supervised cfg w'.
Proof.
  intros w w' Hs Hn Hf H. remember (Ok tt) as r eqn:Er.
  revert Hs Hn Hf.
  induction H as [w|u l w w1 r w2 H _ IH|u l w e w1 H]; intros Hs Hn Hf.
  - exact Hs.
  - cbn in Hn. inversion Hn as [|? ? Hu Hl]; subst.
    destruct (checked_supervised _ _ _ _ _ Hs (Hf u (or_introl eq_refl)) H)
      as [Hs1 Hkeep].
    apply IH; try assumption; try reflexivity.
    intros u' Iu'. apply Hkeep; [|apply Hf; now right].
    intros E. apply Hu. rewrite <- E. now apply in_map.
  - discriminate.
Qed.

Lemma turned_supervised env cfg w w' :
  supervised cfg w -> turned env cfg w (Ok tt) w' -> supervised cfg w'.
Proof.
  intros Hs H. inversion H as [w1 w2 HE HC|]; subst.
  destruct HC as (_ & _ & _ & Pp & Pf & Pr & _).
  apply (supervised_same cfg w1); try assumption.
  eapply pass_supervised; [exact Hs | apply Hs | auto | exact HE].
Qed.

Lemma looped_supervised env cfg n : forall w w',
  supervised cfg w -> looped env cfg n w (Ok tt) w' -> supervised cfg w'.
Proof.
  intros w w' Hs H. remember (Ok tt) as r eqn:Er. revert Hs.
  induction H as [w|n w w1 r w2 H _ IH|n w e w1 H]; intros Hs.
  - exact Hs.
  - apply IH; [exact Er|]. eapply turned_supervised; eassumption.
  - discriminate.
Qed.

(** X10.  The registry stays in order.  When [start_all] has returned,
    from a world without registered units and without open files and
    for names that are pairwise distinct, the registry is in order: no
    name, process or sink is registered twice; the process of each unit
    is the capture of its interface, built by [build_cmd], not known to
    have exited, with its errors going to the sink of the unit; that
    sink is the log of the interface, open for appending; and no other
    file is open.  Turns of the loop that end normally keep it so,
    whatever exits and restarts happen in them: a restart closes the old
    sink and registers the new process with the new one. *)
Theorem registry_stays_in_order env cfg d n w0 w r w' :
  processes w0 = [] ->
  open_handles (files w0) = [] ->
  NoDup (INTERFACES cfg) ->
  start_all env cfg (checkpoint_at env d) w0 = (Ok tt, w) ->
  monitor_loop env cfg (checkpoint_at env d) n w = (r, w') ->
  supervised cfg w /\ (r = Ok tt -> supervised cfg w').
Proof.
  intros Hr Ho Hn Es El.
  assert (S0 : supervised cfg w0).
  { apply supervised_fresh; [exact Hr|]. intros g. now apply open_handles_none. }
  assert (S1 : supervised cfg w).
  { destruct (wp_run _ _ _ _ _
                (start_all_effect env cfg _ (checkpoint_ok env d) w0) Es)
      as [[N _]|HE]; [discriminate N|].
    eapply start_all_supervised; [exact S0 | exact Hn | | exact HE].
    intros i _. now rewrite Hr. }
  split; [exact S1|]. intros ->.
  destruct (wp_run _ _ _ _ _
              (monitor_loop_effect env cfg _ (checkpoint_ok env d) n w) El)
    as [[N _]|HL]; [discriminate N|].
  eapply looped_supervised; eassumption.
Qed.

(* ================================================================== *)
(** ** What a shutdown leaves *)
(* ================================================================== *)

Lemma settled_refl l ps : settled l ps ps.
Proof. split; auto. Qed.

Lemma settled_returncode p c ps : settled [p] ps (with_returncode p c ps).
Proof.
  split; [apply length_with_returncode|].
  intros q N. apply nth_error_with_returncode_other. cbn in N. intuition.
Qed.

Lemma settled_trans a b ps1 ps2 ps3 :
  settled a ps1 ps2 -> settled b ps2 ps3 -> settled (a ++ b) ps1 ps3.
Proof.
  intros [L1 F1] [L2 F2]. split; [congruence|].
  intros q N. rewrite in_app_iff in N. rewrite F2, F1; tauto.
Qed.

Lemma is_closed_close_all l : forall heap g,
  is_closed (close_all l heap) g =
  is_closed heap g || existsb (Nat.eqb g) (map sink_of l).
Proof.
  induction l as [|u l IH]; intros heap g; cbn.
  - now rewrite orb_false_r.
  - unfold close_all in IH. rewrite IH, is_closed_with_closed.
    now rewrite orb_assoc.
Qed.

Lemma length_close_all l : forall heap, length (close_all l heap) = length heap.
Proof.
  induction l as [|u l IH]; intros heap; cbn; [reflexivity|].
  unfold close_all in IH. now rewrite IH, length_with_closed.
Qed.

Section Shutdown.
Variable env : Env.
Variable ck : M unit.
Hypothesis Hck : delivers_or_skips ck.

Lemma stop_one_effect u w :
  wp (stop_one env ck u)
     (fun r w' =>
        interrupted w r
        \/ (r = Ok tt /\ sigs w' = sigs w /\ processes w' = processes w
            /\ files w' = with_closed (sink_of u) (files w)
            /\ settled [handle_of u] (popens w) (popens w')
            /\ exists evs, trace w' = trace w ++ evs /\ stops u evs)) w.
Proof.
  destruct u as [iface [p f]].
  unfold stop_one, stops, handle_of, sink_of. cbn [fst snd].
  wp_go.
  all: try cut_short.
  all: right; norm.
  all: rewrite ?with_closed_closed, ?with_closed_open by eassumption.
  all: split; [reflexivity|]; split; [reflexivity|]; split; [reflexivity|];
       split; [reflexivity|].
  all: split;
         [first [apply settled_refl | apply settled_returncode]
         | eexists; split; [trace_eq | econstructor]].
Qed.

Lemma stop_loop_effect l : forall w,
  wp (for_each l (stop_one env ck))
     (fun r w' =>
        interrupted w r
        \/ (r = Ok tt /\ sigs w' = sigs w /\ processes w' = processes w
            /\ files w' = close_all l (files w)
            /\ settled (map handle_of l) (popens w) (popens w')
            /\ exists evss, trace w' = trace w ++ concat evss
                            /\ Forall2 stops l evss)) w.
Proof.
  induction l as [|u l IH]; intros w.
  - apply wp_for_each_nil. right. repeat split; auto.
    exists []. cbn. rewrite app_nil_r. auto.
  - apply wp_for_each_cons.
    eapply wp_mono; [apply stop_one_effect|].
    intros r w1 [[-> Hn]|(-> & H1 & Hp & Hf & Hs & evs & Ht & Hst)];
      [left; split; [reflexivity | assumption]|].
    eapply wp_mono; [apply IH|].
    intros r w2 [[-> Hn]|(-> & H2 & Hp2 & Hf2 & Hs2 & evss & Ht2 & Hst2)];
      [left; split; [reflexivity | congruence]|].
    right. split; [reflexivity|]. split; [congruence|]. split; [congruence|].
    split; [rewrite Hf2, Hf; reflexivity|].
    split; [exact (settled_trans [handle_of u] _ _ _ _ Hs Hs2)|].
    exists (evs :: evss). cbn [concat].
    split; [rewrite Ht2, Ht; now rewrite app_assoc | now constructor].
Qed.

Lemma stop_all_effect w :
  wp (stop_all env ck)
     (fun r w' =>
        interrupted w r
        \/ (r = Ok tt /\ sigs w' = sigs w /\ processes w' = []
            /\ files w' = close_all (processes w) (files w)
            /\ settled (map handle_of (processes w)) (popens w) (popens w')
            /\ exists evss, trace w' = trace w ++ concat evss ++ [EClear]
                            /\ Forall2 stops (processes w) evss)) w.
Proof.
  unfold stop_all. wp_step. wp_step. wp_step.
  eapply wp_mono; [apply stop_loop_effect|].
  intros r w1 [[-> Hn]|(-> & H1 & Hp & Hf & Hs & evss & Ht & Hst)];
    [left; split; [reflexivity | assumption]|].
  wp_go.
  - left. split; [reflexivity | congruence].
  - right. repeat split; auto; try apply Hs.
    exists evss. rewrite Ht, app_assoc. auto.
Qed.
End Shutdown.

(** X11.  A shutdown closes the sinks of the registry and nothing
    else.  When [stop_all] has returned, a file is closed exactly if it
    was closed before or is the sink of a registered unit: every sink
    is closed, also one whose close failed or whose unit could not be
    stopped, and no other file is touched.  No process object is made
    or lost, and those outside the registry are as they were.  (Unless a
    pending signal is delivered meanwhile and its handler ends the
    program.) *)
Theorem stop_all_closes_the_sinks env d w :
  exists r w',
    stop_all env (checkpoint_at env d) w = (r, w')
    /\ (interrupted w r
        \/ (r = Ok tt
            /\ (forall g, is_closed (files w') g =
                          is_closed (files w) g
                          || existsb (Nat.eqb g) (map sink_of (processes w)))
            /\ length (files w') = length (files w)
            /\ length (popens w') = length (popens w)
            /\ (forall q, ~ In q (map handle_of (processes w)) ->
                          nth_error (popens w') q = nth_error (popens w) q))).
Proof.
  destruct (wp_result _ _ _ (stop_all_effect env _ (checkpoint_ok env d) w))
    as (r & w' & E & P).
  exists r, w'. split; [exact E|].
  destruct P as [I|(-> & _ & _ & Hf & [Hl Hq] & _)]; [now left | right].
  split; [reflexivity|]. rewrite Hf.
  split; [intros g; apply is_closed_close_all|].
  split; [apply length_close_all|]. split; assumption.
Qed.

Lemma run_supervised env cfg d n w0 w1 w2 :
  processes w0 = [] ->
  open_handles (files w0) = [] ->
  NoDup (INTERFACES cfg) ->
  start_all env cfg (checkpoint_at env d) w0 = (Ok tt, w1) ->
  monitor_loop env cfg (checkpoint_at env d) n w1 = (Ok tt, w2) ->
  supervised cfg w2.
Proof.
  intros Hr Ho Hn Es El.
  assert (S0 : supervised cfg w0).
  { apply supervised_fresh; [exact Hr|]. intros g. now apply open_handles_none. }
  assert (S1 : supervised cfg w1).
  { destruct (wp_run _ _ _ _ _
                (start_all_effect env cfg _ (checkpoint_ok env d) w0) Es)
      as [[N _]|HE]; [discriminate N|].
    eapply start_all_supervised; [exact S0 | exact Hn | | exact HE].
    intros i _. now rewrite Hr. }
  destruct (wp_run _ _ _ _ _
              (monitor_loop_effect env cfg _ (checkpoint_ok env d) n w1) El)
    as [[N _]|HL]; [discriminate N|].
  eapply looped_supervised; eassumption.
Qed.

Lemma existsb_eqb_in g l : In g l -> existsb (Nat.eqb g) l = true.
Proof.
  intros H. apply existsb_exists. exists g. split; [exact H | apply Nat.eqb_refl].
Qed.

Lemma existsb_eqb_notin g l : ~ In g l -> existsb (Nat.eqb g) l = false.
Proof.
  intros H. destruct (existsb (Nat.eqb g) l) eqn:E; [|reflexivity].
  apply existsb_exists in E as (x & Ix & Ex). apply Nat.eqb_eq in Ex.
  subst. contradiction.
Qed.

(** X12.  A shutdown after a healthy run leaves nothing behind.  When
    the units were started for pairwise distinct names, from a world
    without units or open files, and the loop has run any number of
    turns without an error, [stop_all] asks each registered process to
    terminate, once, closes every file that is open, and empties the
    registry.  (Unless a pending signal is delivered meanwhile and its
    handler ends the program.) *)
Theorem shutdown_leaves_nothing_open env cfg d n w0 w1 w2 r w3 :
  processes w0 = [] ->
  open_handles (files w0) = [] ->
  NoDup (INTERFACES cfg) ->
  start_all env cfg (checkpoint_at env d) w0 = (Ok tt, w1) ->
  monitor_loop env cfg (checkpoint_at env d) n w1 = (Ok tt, w2) ->
  stop_all env (checkpoint_at env d) w2 = (r, w3) ->
  interrupted w2 r
  \/ (r = Ok tt
      /\ processes w3 = []
      /\ (forall g, is_closed (files w3) g = true)
      /\ exists evss,
           trace w3 = trace w2 ++ concat evss ++ [EClear]
           /\ terminates (concat evss) = map handle_of (processes w2)
           /\ NoDup (terminates (concat evss))).
Proof.
  intros Hr Ho Hn Es El Ex.
  pose proof (run_supervised env cfg d n w0 w1 w2 Hr Ho Hn Es El)
    as (_ & Hh & _ & _ & Hopen).
  destruct (wp_run _ _ _ _ _
              (stop_all_effect env _ (checkpoint_ok env d) w2) Ex)
    as [I|(-> & _ & Hp & Hf & _ & evss & Ht & Hst)]; [now left | right].
  split; [reflexivity|]. split; [exact Hp|]. split.
  - intros g. rewrite Hf, is_closed_close_all.
    destruct (is_closed (files w2) g) eqn:E; [reflexivity|].
    cbn. apply existsb_eqb_in. now apply Hopen.
  - exists evss. split; [exact Ht|].
    rewrite (stops_terminates _ _ Hst). split; [reflexivity | exact Hh].
Qed.



(* ================================================================== *)
(** ** A start that fails *)
(* ================================================================== *)

Lemma each_raise_split {A} (R : A -> World -> Outcome unit -> World -> Prop) l :
  forall w e w',
    each R l w (Raise e) w' ->
    exists l1 x l2 w1,
      l = l1 ++ x :: l2 /\ each R l1 w (Ok tt) w1 /\ R x w1 (Raise e) w'.
Proof.
  intros w e w' H. remember (Raise e) as r eqn:Er.
  induction H as [w|x l w w1 r w2 H _ IH|x l w e' w1 H].
  - discriminate.
  - destruct (IH Er) as (l1 & y & l2 & w3 & -> & H1 & H2).
    exists (x :: l1), y, l2, w3. split; [reflexivity|].
    split; [eapply each_next; eassumption | exact H2].
  - inversion Er; subst. exists [], x, l, w.
    split; [reflexivity|]. split; [constructor | exact H].
Qed.

Lemma started_all_heaps env cfg l : forall w w',
  each (started_one env cfg) l w (Ok tt) w' ->
  (exists new, popens w' = popens w ++ new
               /\ launched cfg l (length (files w)) new)
  /\ files w' = files w ++ sinks_for cfg l
  /\ processes w' =
     registry_after l (length (popens w)) (length (files w)) (processes w).
Proof.
  intros w w' H. remember (Ok tt) as r eqn:Er.
  induction H as [w|i l w w1 r w2 H _ IH|i l w e w1 H].
  - split; [exists []; cbn; now rewrite app_nil_r|].
    cbn. now rewrite app_nil_r.
  - inversion H as [n w3 Ho Hs HC| |]; subst.
    destruct HC as (_ & _ & _ & Pp & Pf & Pr & _).
    destruct (IH eq_refl) as ((new & Hp2 & Hl2) & Hf2 & Hr2).
    rewrite Pp, Pf, Pr in *. rewrite !length_app in *. cbn [length] in *.
    rewrite !Nat.add_1_r in *.
    split; [|split].
    + exists (child_for cfg i n (length (files w)) :: new).
      split; [rewrite Hp2, <- app_assoc; reflexivity|].
      cbn. auto 10.
    + rewrite Hf2, <- app_assoc. reflexivity.
    + exact Hr2.
  - discriminate.
Qed.

Lemma started_trace env cfg i w r w' :
  started_one env cfg i w r w' ->
  exists evs, accounted w w' evs /\ count_if is_detect evs = 0.
Proof.
  intros H. inversion H; subst; eexists;
    (split; [eapply accounted_changes; [eassumption | reflexivity..]
            | reflexivity]).
Qed.

Lemma no_detect_app a b :
  count_if is_detect a = 0 -> count_if is_detect b = 0 ->
  count_if is_detect (a ++ b) = 0.
Proof. intros Ha Hb. rewrite count_if_app. lia. Qed.

(** X14.  A unit that cannot be started ends [start_all] with the
    error, in the middle of the list: the units before it stay
    registered, their processes spawned and their logs open; the units
    after it are not attempted; nothing is stopped and nothing is
    closed.  The log of the unit that failed stays open when it was the
    spawn that was refused.  The last call made is the refused one. *)
Theorem failed_start_leaves_units_running env cfg d w e w' :
  start_all env cfg (checkpoint_at env d) w = (Raise e, w') ->
  interrupted w (@Raise unit e)
  \/ (e = OSError
      /\ exists l1 i l2,
           INTERFACES cfg = l1 ++ i :: l2
           /\ (exists new, popens w' = popens w ++ new
                           /\ launched cfg l1 (length (files w)) new)
           /\ processes w' =
              registry_after l1 (length (popens w)) (length (files w))
                             (processes w)
           /\ (files w' = files w ++ sinks_for cfg l1
               \/ files w' = files w ++ sinks_for cfg (l1 ++ [i]))
           /\ exists pre e',
                trace w' = trace w ++ pre ++ [e']
                /\ failed_launch e' = true
                /\ count_if is_stop (pre ++ [e']) = 0
                /\ closes (pre ++ [e']) = []).
Proof.
  intros E.
  destruct (wp_run _ _ _ _ _
              (start_all_effect env cfg _ (checkpoint_ok env d) w) E)
    as [I|HE]; [now left | right].
  split; [eapply each_raises; [apply started_raises | exact HE]|].
  destruct (each_accounted (started_one env cfg)
              (fun evs => count_if is_detect evs = 0) eq_refl no_detect_app
              (started_trace env cfg) _ _ _ _ HE)
    as (evs & (T & _ & S & K) & D).
  destruct (each_raise_split _ _ _ _ _ HE) as (l1 & i & l2 & w1 & El & H1 & H2).
  destruct (started_all_heaps _ _ _ _ _ H1) as ((new & Hp & Hl) & Hf & Hr).
  destruct (start_all_accounted _ _ _ _ _ _ H1) as (evs1 & T1 & _).
  exists l1, i, l2. split; [exact El|].
  assert (Hevs : forall x, trace w' = trace w1 ++ x -> evs = evs1 ++ x).
  { intros x Tx. rewrite T1, <- app_assoc in Tx. rewrite Tx in T.
    now apply app_inv_head in T. }
  assert (Hc : closes evs = []).
  { rewrite D in K. now apply length_zero_iff_nil. }
  inversion H2 as [|w2 Ho HC|w2 Ho Hs HC]; subst;
    destruct HC as (_ & _ & Tc & Pp & Pf & Pr & _).
  - split; [exists new; split; [congruence | exact Hl]|].
    split; [congruence|]. split; [left; congruence|].
    rewrite (Hevs _ Tc) in *.
    exists evs1, (EOpen (stderr_path cfg i) "ab" None).
    split; [exact T|]. split; [reflexivity|]. split; assumption.
  - split; [exists new; split; [congruence | exact Hl]|].
    split; [congruence|].
    split; [right; rewrite Pf, Hf; unfold sinks_for;
            rewrite map_app, <- app_assoc; reflexivity|].
    rewrite (Hevs _ Tc) in *.
    exists (evs1 ++ [EOpen (stderr_path cfg i) "ab" (Some (length (files w1)))]),
           (EPopen (build_cmd cfg i (OUTPUT_DIR cfg)) DEVNULL
                   (ToFile (length (files w1))) None).
    rewrite <- !app_assoc. cbn [app].
    split; [exact T|]. split; [reflexivity|]. split; assumption.
Qed.

(* ================================================================== *)
(** ** The time the loop takes *)
(* ================================================================== *)

(** X15.  Time passes in the loop in the pauses and the backoffs only: a
    run of [n] turns that ends normally has taken [n] plus 2 for each
    exit detected; one that an error has ended has taken 1 for each
    turn completed, fewer than [n], and 2 for each exit detected.
    (Unless a pending signal is delivered meanwhile and its handler ends
    the program.) *)
Theorem monitor_loop_time env cfg d n w :
  exists r w',
    monitor_loop env cfg (checkpoint_at env d) n w = (r, w')
    /\ (interrupted w r
        \/ exists evs,
             trace w' = trace w ++ evs
             /\ clock w' =
                clock w + count_if is_pause evs + 2 * count_if is_detect evs
             /\ match r with
                | Ok _ => count_if is_pause evs = n
                | Raise _ => count_if is_pause evs < n
                end).
Proof.
  destruct (wp_result _ _ _
              (monitor_loop_effect env cfg _ (checkpoint_ok env d) n w))
    as (r & w' & E & P).
  exists r, w'. split; [exact E|].
  destruct P as [I|L]; [now left | right].
  assert (H : exists evs, accounted w w' evs
                /\ match r with
                   | Ok _ => count_if is_pause evs = n
                   | Raise _ => count_if is_pause evs < n
                   end).
  { clear E. induction L as [w|n w w1 r w2 H _ IH|n w e w1 H].
    - exists []. split; [apply accounted_refl | reflexivity].
    - destruct (turned_accounted _ _ _ _ _ H) as (a & Ha & Pa).
      destruct IH as (b & Hb & Pb).
      exists (a ++ b). split; [eapply accounted_trans; eassumption|].
      rewrite count_if_app, Pa. destruct r; lia.
    - destruct (turned_accounted _ _ _ _ _ H) as (a & Ha & Pa).
      exists a. split; [exact Ha|]. rewrite Pa. lia. }
  destruct H as (evs & (T & C & _) & Pn).
  exists evs. repeat split; assumption.
Qed.

(* ================================================================== *)
(** ** The files of the units *)
(* ================================================================== *)

Lemma length_append a b :
  String.length (a ++ b)%string = String.length a + String.length b.
Proof. induction a as [|c a IH]; cbn; [reflexivity | now rewrite IH]. Qed.

Lemma append_inj_l a s t : (a ++ s)%string = (a ++ t)%string -> s = t.
Proof.
  induction a as [|c a IH]; cbn; [exact (fun H => H)|].
  intros H. inversion H. now apply IH.
Qed.

Lemma append_inj_r e : forall a b, (a ++ e)%string = (b ++ e)%string -> a = b.
Proof.
  induction a as [|c a IH]; intros [|c' b] H; cbn in H.
  - reflexivity.
  - exfalso. apply (f_equal String.length) in H. cbn in H.
    rewrite length_append in H. lia.
  - exfalso. apply (f_equal String.length) in H. cbn in H.
    rewrite length_append in H. lia.
  - inversion H; subst. f_equal. now apply IH.
Qed.

Lemma last_char_app a c e :
  last_char (a ++ String c e)%string = last_char (String c e).
Proof.
  induction a as [|x a IH]; [reflexivity|].
  cbn [String.append]. rewrite <- IH.
  cbn [last_char]. destruct (a ++ String c e)%string eqn:E; [|reflexivity].
  destruct a; discriminate E.
Qed.

Lemma append_assoc (a b c : string) :
  ((a ++ b) ++ c)%string = (a ++ b ++ c)%string.
Proof. induction a as [|x a IH]; cbn; [reflexivity | now rewrite IH]. Qed.

Lemma join_snoc sep ps x :
  ps <> [] ->
  Py.join sep (ps ++ [x]) = (Py.join sep ps ++ sep ++ x)%string.
Proof.
  induction ps as [|p ps IH]; [congruence|]. intros _.
  destruct ps as [|q ps]; [reflexivity|].
  change (Py.join sep ((p :: q :: ps) ++ [x]))
    with (p ++ sep ++ Py.join sep ((q :: ps) ++ [x]))%string.
  rewrite IH by discriminate.
  change (Py.join sep (p :: q :: ps))
    with (p ++ sep ++ Py.join sep (q :: ps))%string.
  now rewrite !append_assoc.
Qed.

(** The text of a path that ends in the component [y]: a prefix that
    the other components fix, then [y]. *)
Lemma to_string_snoc r ps :
  exists pre, forall y,
    Path.to_string (Path.mk r (ps ++ [y])) = (pre ++ y)%string.
Proof.
  destruct ps as [|p ps].
  - exists r. intros y. unfold Path.to_string. cbn.
    destruct r; reflexivity.
  - exists (r ++ Py.join "/" (p :: ps) ++ "/")%string. intros y.
    assert (E : Path.to_string (Path.mk r ((p :: ps) ++ [y]))
                = (r ++ Py.join "/" ((p :: ps) ++ [y]))%string)
      by (destruct r; reflexivity).
    rewrite E, join_snoc by discriminate.
    now rewrite !append_assoc.
Qed.

Lemma unit_file_text b :
  exists pre, forall j a e,
    plain j = true -> plain (String a e) = true ->
    Path.to_string (Path.div b (j ++ String "." (String a e)))
    = (pre ++ j ++ String "." (String a e))%string.
Proof.
  destruct (to_string_snoc (Path.root b) (Path.parts b)) as [pre H].
  exists pre. intros j a e Hj He.
  rewrite (div_component b j a e Hj He). apply H.
Qed.

(** X16.  Two units never share a file.  For interface names without a
    path separator, the capture file given to [tcpdump] and the log the
    supervisor opens determine the name: two names with the same
    capture file, or with the same log, are the same name; and the
    capture file of one name is never the log of another. *)
Theorem units_have_their_own_files cfg i j :
  plain i = true -> plain j = true ->
  (nth_error (build_cmd cfg i (OUTPUT_DIR cfg)) 6
   = nth_error (build_cmd cfg j (OUTPUT_DIR cfg)) 6 -> i = j)
  /\ (stderr_path cfg i = stderr_path cfg j -> i = j)
  /\ nth_error (build_cmd cfg i (OUTPUT_DIR cfg)) 6
     <> Some (stderr_path cfg j).
Proof.
  intros Hi Hj.
  destruct (unit_file_text (OUTPUT_DIR cfg)) as [pre H].
  unfold build_cmd, stderr_path. cbn [app nth_error].
  change ".pcap"%string with (String "." (String "p" "cap")).
  change ".stderr.log"%string with (String "." (String "s" "tderr.log")).
  rewrite !H by (assumption || reflexivity).
  split; [|split].
  - intros E. inversion E as [E']. apply append_inj_l in E'.
    now apply append_inj_r in E'.
  - intros E. apply append_inj_l in E. now apply append_inj_r in E.
  - intros E. inversion E as [E']. apply append_inj_l in E'.
    apply (f_equal last_char) in E'. rewrite !last_char_app in E'.
    discriminate E'.
Qed.

(* ================================================================== *)
(** ** The exit statuses of the program *)
(* ================================================================== *)


(* ================================================================== *)
(** ** The handler *)
(* ================================================================== *)


(* ================================================================== *)
(** ** Nothing to supervise, and a capture that keeps dying *)
(* ================================================================== *)

Lemma looped_idle env cfg n : forall w r w',
  processes w = [] ->
  looped env cfg n w r w' ->
  r = Ok tt
  /\ changes w w' (repeat (ESleep 1) n) (popens w) (files w) (processes w) n.
Proof.
  intros w r w' Hr H. revert Hr.
  induction H as [w|n w w1 r w2 H _ IH|n w e w1 H]; intros Hr.
  - split; [reflexivity | apply changes_nothing].
  - inversion H as [w3 w4 HE HC|]; subst. rewrite Hr in HE.
    inversion HE; subst.
    assert (Hr1 : processes w1 = []) by (rewrite <- Hr; apply HC).
    destruct (IH Hr1) as [-> C2]. split; [reflexivity|].
    assert (C2' : changes w1 w2 (repeat (ESleep 1) n) (popens w1) (files w1)
                          (processes w1) n).
    { destruct C2 as (A & B & C & D & E & F & G).
      repeat split; try assumption. }
    exact (changes_then _ _ _ [ESleep 1] _ 1 n HC C2').
  - inversion H as [|e' w3 HE]; subst. rewrite Hr in HE. inversion HE.
Qed.

(** X19.  Nothing to supervise.  With no interface configured the
    program is content: [main], once its two checks have passed, starts
    nothing and then pauses, turn after turn; no file is opened, no
    process is spawned, nothing is reported.  (Unless a pending signal
    is delivered meanwhile, or [main] exits with status 2.) *)
Theorem no_interfaces_idles env cfg d n w :
  INTERFACES cfg = [] ->
  processes w = [] ->
  exists r w',
    main env cfg (checkpoint_at env d) n w = (r, w')
    /\ (interrupted w r
        \/ r = Raise (SystemExit 2)
        \/ (r = Ok tt
            /\ popens w' = popens w /\ files w' = files w
            /\ processes w' = []
            /\ clock w' = clock w + n
            /\ exists pre,
                 trace w' = trace w ++ pre ++ repeat (ESleep 1) n
                 /\ count_if is_launch pre = 0)).
Proof.
  intros Hi Hr.
  destruct (wp_result _ _ _ (main_effect env cfg _ (checkpoint_ok env d) n w))
    as (r & w' & E & P).
  exists r, w'. split; [exact E|].
  destruct P as [I|R]; [now left | right].
  inversion R as [w1 Hb1 HC|w1 Hb1 Hd Hm1 HC|w0 e w1 Hp HE|w0 w1 r1 w2 Hp HE HL];
    subst; [now left | now left | rewrite Hi in HE; inversion HE |].
  right. rewrite Hi in HE.
  assert (w1 = w0) by (inversion HE; reflexivity). subst w1.
  assert (H0 : exists pre, changes w w0 pre (popens w) (files w) (processes w) 0
                           /\ count_if is_launch pre = 0).
  { inversion Hp; subst; eexists; (split; [eassumption | reflexivity]). }
  destruct H0 as (pre & C0 & L0).
  assert (Hr1 : processes w0 = []) by (rewrite <- Hr; apply C0).
  destruct (looped_idle _ _ _ _ _ _ Hr1 HL) as [-> C1].
  destruct (changes_then _ _ _ _ _ _ _ C0 C1) as (_ & _ & T & Pp & Pf & Pr & C).
  split; [reflexivity|]. split; [exact Pp|]. split; [exact Pf|].
  split; [congruence|]. split; [exact C|].
  exists pre. split; [exact T | exact L0].
Qed.

Section CrashLoop.
Variable env : Env.
Variable cfg : Config.
Hypothesis Hdies : forall k, os_poll env k <> None.
Hypothesis Hopen : forall k, os_open env k = true.
Hypothesis Hspawn : forall k, os_spawn env k <> None.

Lemma exit_always_seen k heap p : exit_seen env k heap p <> None.
Proof.
  unfold exit_seen. destruct (returncode_of heap p); [discriminate | apply Hdies].
Qed.

Lemma checked_dying u w r w' :
  In (fst u) (keys (processes w)) ->
  checked env cfg u w r w' ->
  r = Ok tt
  /\ keys (processes w') = keys (processes w)
  /\ exists evs, trace w' = trace w ++ evs
                 /\ count_if is_detect evs = 1
                 /\ count_if is_pause evs = 0.
Proof.
  intros Hk H.
  inversion H as [w1 He HC|code okc n w1 He Ho Hp HC
                 |code okc w1 He Ho HC|code okc w1 He Ho Hp HC]; subst.
  - exfalso. exact (exit_always_seen _ _ _ He).
  - destruct HC as (_ & _ & T & _ & _ & Pr & _).
    split; [reflexivity|]. split.
    + rewrite Pr. now apply keys_dict_set_in.
    + eexists. split; [exact T|]. split; reflexivity.
  - rewrite Hopen in Ho. discriminate Ho.
  - exfalso. exact (Hspawn _ Hp).
Qed.

Lemma pass_dying l : forall w r w',
  (forall u, In u l -> In (fst u) (keys (processes w))) ->
  each (checked env cfg) l w r w' ->
  r = Ok tt
  /\ keys (processes w') = keys (processes w)
  /\ exists evs, trace w' = trace w ++ evs
                 /\ count_if is_detect evs = length l
                 /\ count_if is_pause evs = 0.
Proof.
  intros w r w' Hl H. revert Hl.
  induction H as [w|u l w w1 r w2 H _ IH|u l w e w1 H]; intros Hl.
  - split; [reflexivity|]. split; [reflexivity|].
    exists []. rewrite app_nil_r. auto.
  - destruct (checked_dying _ _ _ _ (Hl u (or_introl eq_refl)) H)
      as (_ & K1 & a & Ta & Da & Pa).
    destruct IH as (-> & K2 & b & Tb & Db & Pb).
    { intros u' Iu'. rewrite K1. apply Hl. now right. }
    split; [reflexivity|]. split; [congruence|].
    exists (a ++ b). rewrite Tb, Ta, app_assoc, !count_if_app. cbn [length].
    repeat split; lia.
  - destruct (checked_dying _ _ _ _ (Hl u (or_introl eq_refl)) H) as (N & _).
    discriminate N.
Qed.

Lemma looped_dying n : forall w r w',
  looped env cfg n w r w' ->
  r = Ok tt
  /\ keys (processes w') = keys (processes w)
  /\ exists evs, trace w' = trace w ++ evs
                 /\ count_if is_detect evs = n * length (processes w)
                 /\ count_if is_pause evs = n.
Proof.
  intros w r w' H.
  induction H as [w|n w w1 r w2 H _ IH|n w e w1 H].
  - split; [reflexivity|]. split; [reflexivity|].
    exists []. rewrite app_nil_r. auto.
  - inversion H as [w3 w4 HE HC|]; subst.
    destruct (pass_dying _ _ _ _
                (fun u Iu => in_map fst _ _ Iu) HE)
      as (_ & K1 & a & Ta & Da & Pa).
    destruct HC as (_ & _ & T & _ & _ & Pr & _).
    destruct IH as (-> & K2 & b & Tb & Db & Pb).
    assert (Hlen : length (processes w1) = length (processes w)).
    { rewrite <- (length_map fst (processes w1)),
              <- (length_map fst (processes w)).
      unfold keys in *. congruence. }
    split; [reflexivity|]. split; [congruence|].
    exists ((a ++ [ESleep 1]) ++ b).
    rewrite Tb, T, Ta, !app_assoc, !count_if_app, Da, Pa, Db, Pb, Hlen.
    cbn. split; [reflexivity|]. split; lia.
  - inversion H as [|e' w3 HE]; subst.
    destruct (pass_dying _ _ _ _
                (fun u Iu => in_map fst _ _ Iu) HE) as (N & _).
    discriminate N.
Qed.
End CrashLoop.

(** X20.  Restarts are not limited and the backoff does not grow.  When
    every poll finds its process exited, and the opens and the spawns
    succeed, each turn of the loop restarts every unit of the registry:
    [n] turns detect [n] exits of each unit, restart it as often, each
    time after the same backoff of 2, and take [n] plus 2 for each
    restart; the loop never gives a unit up.  (Unless a pending signal
    is delivered meanwhile.) *)
Theorem restarts_are_unbounded env cfg d n w :
  (forall k, os_poll env k <> None) ->
  (forall k, os_open env k = true) ->
  (forall k, os_spawn env k <> None) ->
  exists r w',
    monitor_loop env cfg (checkpoint_at env d) n w = (r, w')
    /\ (interrupted w r
        \/ (r = Ok tt
            /\ keys (processes w') = keys (processes w)
            /\ clock w' = clock w + n + 2 * (n * length (processes w))
            /\ exists evs,
                 trace w' = trace w ++ evs
                 /\ count_if is_detect evs = n * length (processes w)
                 /\ count_if is_backoff evs = n * length (processes w))).
Proof.
  intros Hd Ho Hs.
  destruct (wp_result _ _ _
              (monitor_loop_spec env cfg _ (checkpoint_ok env d) n w))
    as (r & w' & E & P).
  exists r, w'. split; [exact E|].
  destruct (wp_run _ _ _ _ _
              (monitor_loop_effect env cfg _ (checkpoint_ok env d) n w) E)
    as [I|L]; [now left | right].
  destruct (looped_dying env cfg Hd Ho Hs n _ _ _ L)
    as (-> & K & evs & T & D & Pn).
  destruct (looped_accounted _ _ _ _ _ _ L) as (evs' & (T' & C & _) & _).
  assert (evs' = evs) by (rewrite T in T'; now apply app_inv_head in T').
  subst evs'.
  destruct P as [[N _]|(_ & _ & _ & _ & evs2 & T2 & B)]; [discriminate N|].
  assert (evs2 = evs) by (rewrite T in T2; now apply app_inv_head in T2).
  subst evs2.
  split; [reflexivity|]. split; [exact K|]. split; [lia|].
  exists evs. split; [exact T|]. split; [exact D | lia].
Qed.

(* ================================================================== *)
(** ** The pass works on a copy of the registry *)
(* ================================================================== *)

Lemma polled_app a b : polled (a ++ b) = polled a ++ polled b.
Proof. apply flat_map_app. Qed.

Lemma checked_polled env cfg u w r w' :
  checked env cfg u w r w' ->
  exists evs, trace w' = trace w ++ evs /\ polled evs = [handle_of u].
Proof.
  intros H. inversion H; subst;
    match goal with
    | H : changes _ _ _ _ _ _ _ |- _ => destruct H as (_ & _ & T & _)
    end;
    eexists; (split; [exact T | reflexivity]).
Qed.

Lemma pass_polled env cfg l : forall w r w',
  each (checked env cfg) l w r w' ->
  exists evs rest,
    trace w' = trace w ++ evs
    /\ map handle_of l = polled evs ++ rest
    /\ (r = Ok tt -> rest = []).
Proof.
  intros w r w' H.
  induction H as [w|u l w w1 r w2 H _ IH|u l w e w1 H].
  - exists [], []. rewrite app_nil_r. auto.
  - destruct (checked_polled _ _ _ _ _ _ H) as (a & Ta & Pa).
    destruct IH as (b & rest & Tb & Pb & Rb).
    exists (a ++ b), rest.
    rewrite polled_app, Pa, Tb, Ta, app_assoc. cbn [map app].
    split; [reflexivity|]. split; [now rewrite Pb | exact Rb].
  - destruct (checked_polled _ _ _ _ _ _ H) as (a & Ta & Pa).
    exists a, (map handle_of l). rewrite Pa. cbn [map app].
    split; [exact Ta|]. split; [reflexivity | discriminate].
Qed.

(** X21.  A turn of the loop works on the registry as it is when the
    turn begins.  The processes polled in the turn are those of that
    registry, in its order, each once: all of them when the turn ends
    normally, the first of them up to the one whose restart failed
    otherwise.  A process registered by a restart during the turn is
    not polled before the next turn.  (Unless a pending signal is
    delivered meanwhile.) *)
Theorem pass_polls_the_snapshot env cfg d w :
  exists r w',
    monitor_pass env cfg (checkpoint_at env d) w = (r, w')
    /\ (interrupted w r
        \/ exists evs rest,
             trace w' = trace w ++ evs
             /\ map handle_of (processes w) = polled evs ++ rest
             /\ (r = Ok tt -> rest = [])).
Proof.
  destruct (wp_result _ _ _
              (monitor_pass_effect env cfg _ (checkpoint_ok env d) w))
    as (r & w' & E & P).
  exists r, w'. split; [exact E|].
  destruct P as [I|T]; [now left | right].
  inversion T as [w1 w2 HE HC|e w2 HE]; subst.
  - destruct (pass_polled _ _ _ _ _ _ HE) as (evs & rest & Te & Pe & Re).
    destruct HC as (_ & _ & Tc & _).
    exists (evs ++ [ESleep 1]), rest.
    rewrite polled_app, Tc, Te, app_assoc. cbn [polled flat_map].
    rewrite app_nil_r. auto.
  - exact (pass_polled _ _ _ _ _ _ HE).
Qed.

(* ================================================================== *)
(** ** A run in which nothing is refused *)
(* ================================================================== *)

Section Healthy.
Variable env : Env.
Variable cfg : Config.
Hypothesis Hopen : forall k, os_open env k = true.
Hypothesis Hspawn : forall k, os_spawn env k <> None.




End Healthy.





(* ================================================================== *)
(** ** The shutdown of children that have exited *)
(* ================================================================== *)

Section DeadChildren.
Variable env : Env.
Variable ck : M unit.
Hypothesis Hck : delivers_or_skips ck.

Lemma stop_one_dead u w :
  returncode_of (popens w) (handle_of u) <> None ->
  wp (stop_one env ck u)
     (fun r w' =>
        interrupted w r
        \/ (r = Ok tt /\ sigs w' = sigs w /\ processes w' = processes w
            /\ popens w' = popens w /\ clock w' = clock w
            /\ exists evs, trace w' = trace w ++ evs
                           /\ stops_dead (popens w) u evs)) w.
Proof.
  destruct u as [iface [p f]].
  unfold stop_one, stops_dead, handle_of, sink_of. cbn [fst snd].
  intros Hr.
  destruct (returncode_of (popens w) p) as [c|] eqn:E; [clear Hr | congruence].
  repeat first [ wp_step | progress norm | rewrite E
               | lazymatch goal with
                 | |- interrupted _ _ \/ _ => fail
                 | |- _ => case_env
                 end ].
  all: try cut_short.
  all: right; norm.
  all: repeat (split; [reflexivity|]).
  all: eexists; split; [trace_eq|]; do 3 eexists; split; reflexivity.
Qed.

Lemma stop_loop_dead l : forall w,
  all_exited (popens w) l ->
  wp (for_each l (stop_one env ck))
     (fun r w' =>
        interrupted w r
        \/ (r = Ok tt /\ sigs w' = sigs w /\ processes w' = processes w
            /\ popens w' = popens w /\ clock w' = clock w
            /\ exists evss, trace w' = trace w ++ concat evss
                            /\ Forall2 (stops_dead (popens w)) l evss)) w.
Proof.
  induction l as [|u l IH]; intros w Hl.
  - apply wp_for_each_nil. right. repeat split; auto.
    exists []. cbn. rewrite app_nil_r. auto.
  - inversion Hl as [|? ? Hu Hl']; subst.
    apply wp_for_each_cons.
    eapply wp_mono; [apply stop_one_dead; exact Hu|].
    intros r w1 [[-> Hn]|(-> & H1 & Hp & Hh & Hc & evs & Ht & Hst)];
      [left; split; [reflexivity | assumption]|].
    eapply wp_mono; [apply IH; unfold all_exited; now rewrite Hh|].
    intros r w2 [[-> Hn]|(-> & H2 & Hp2 & Hh2 & Hc2 & evss & Ht2 & Hst2)];
      [left; split; [reflexivity | congruence]|].
    right. repeat (split; [congruence|]).
    exists (evs :: evss). cbn [concat].
    split; [rewrite Ht2, Ht; now rewrite app_assoc|].
    constructor; [exact Hst | now rewrite <- Hh].
Qed.
End DeadChildren.

(** X23.  Children that have exited are shut down at once.  When every
    process of the registry is known to have exited, [stop_all] sends
    nothing: for each unit it logs the line, the request to terminate
    does nothing, the wait returns the known code at once, and the sink
    is closed; the shutdown takes no time, raises nothing and changes no
    process object.  (Unless a pending signal is delivered
    meanwhile.) *)
Theorem stopping_exited_children_takes_no_time env d w :
  all_exited (popens w) (processes w) ->
  exists r w',
    stop_all env (checkpoint_at env d) w = (r, w')
    /\ (interrupted w r
        \/ (r = Ok tt
            /\ processes w' = []
            /\ popens w' = popens w
            /\ clock w' = clock w
            /\ exists evss,
                 trace w' = trace w ++ concat evss ++ [EClear]
                 /\ Forall2 (stops_dead (popens w)) (processes w) evss)).
Proof.
  intros Hl.
  assert (W : wp (stop_all env (checkpoint_at env d))
                 (fun r w' =>
                    interrupted w r
                    \/ (r = Ok tt /\ processes w' = [] /\ popens w' = popens w
                        /\ clock w' = clock w
                        /\ exists evss,
                             trace w' = trace w ++ concat evss ++ [EClear]
                             /\ Forall2 (stops_dead (popens w)) (processes w)
                                        evss)) w).
  { pose proof (checkpoint_ok env d) as Hck.
    unfold stop_all. wp_step. wp_step. wp_step.
    eapply wp_mono; [apply stop_loop_dead; assumption|].
    intros r w1 [[-> Hn]|(-> & H1 & Hp & Hh & Hc & evss & Ht & Hst)];
      [left; split; [reflexivity | assumption]|].
    wp_go.
    - left. split; [reflexivity | congruence].
    - right. repeat (split; [assumption || reflexivity|]).
      exists evss. rewrite Ht, app_assoc. auto. }
  destruct (wp_result _ _ _ W) as (r & w' & E & P).
  exists r, w'. split; assumption.
Qed.

(* ================================================================== *)
(** ** The file the log line names *)
(* ================================================================== *)

Lemma to_string_parts r ps :
  ps <> [] -> Path.to_string (Path.mk r ps) = (r ++ Py.join "/" ps)%string.
Proof.
  intros H. unfold Path.to_string. cbn [Path.root Path.parts].
  destruct r; [|reflexivity]. destruct ps; [congruence | reflexivity].
Qed.

(** X24.  The line [Started tcpdump for ...] names the file that is
    written.  For an interface name without a path separator and an
    output directory of at least one component, the path the line shows
    is the capture file given to [tcpdump], followed by an asterisk. *)
Theorem started_line_names_the_capture_file cfg iface n :
  plain iface = true ->
  Path.parts (OUTPUT_DIR cfg) <> [] ->
  exists outfile,
    nth_error (build_cmd cfg iface (OUTPUT_DIR cfg)) 6 = Some outfile
    /\ started_line cfg iface n =
       ("Started tcpdump for " ++ iface ++ " (pid " ++ Py.str (Z.of_nat n)
        ++ "), writing to " ++ outfile ++ "*")%string.
Proof.
  intros Hi Hp. eexists. split; [reflexivity|].
  unfold started_line.
  change ".pcap"%string with (String "." (String "p" "cap")).
  rewrite (div_component (OUTPUT_DIR cfg) iface "p" "cap" Hi eq_refl).
  rewrite to_string_parts by (destruct (Path.parts (OUTPUT_DIR cfg)); discriminate).
  rewrite join_snoc by exact Hp.
  destruct (OUTPUT_DIR cfg) as [r ps]. cbn [Path.root Path.parts] in *.
  rewrite (to_string_parts r ps Hp).
  repeat (rewrite !append_assoc || f_equal).
Qed.

(* ================================================================== *)
(** ** A signal between the spawn and the registration *)
(* ================================================================== *)

Lemma prim_not_due {A} env (act : nat -> World -> Outcome A * World) w t s :
  sigs w = [(t, s)] -> tick w < t ->
  prim (checkpoint_at env 1) act w = act (tick w) (set_tick (S (tick w)) w).
Proof.
  intros H Hlt. unfold prim, bind. cbn [checkpoint_at]. unfold deliver.
  rewrite H. apply Nat.leb_gt in Hlt. now rewrite Hlt.
Qed.

(** The handler, when no further signal is pending, with what it leaves
    of the heaps. *)
Lemma handle_sig_effect env d s w :
  sigs w = [] ->
  exists w' evss,
    handle_sig env (checkpoint_at env d) s w = (Raise (SystemExit 0), w')
    /\ processes w' = []
    /\ files w' = close_all (processes w) (files w)
    /\ settled (map handle_of (processes w)) (popens w) (popens w')
    /\ trace w' = trace w ++ EPrint (received_line s) :: concat evss ++ [EClear]
    /\ Forall2 stops (processes w) evss.
Proof.
  intros Hq. unfold handle_sig, print, bind.
  rewrite prim_quiet by exact Hq.
  destruct (wp_result _ _ _
              (stop_all_effect env _ (checkpoint_ok env d)
                 (emit (EPrint (received_line s)) (set_tick (S (tick w)) w))))
    as (r & w1 & E1 & [[_ N]|(-> & _ & Hp & Hf & Hs & evss & Ht & Hst)]);
    [exfalso; apply N; exact Hq|].
  rewrite E1. exists w1, evss.
  norm_in Ht. norm_in Hf. norm_in Hs. norm_in Hst.
  rewrite Ht, <- app_assoc.
  split; [reflexivity|]. split; [exact Hp|]. split; [exact Hf|].
  split; [exact Hs|]. split; [reflexivity | exact Hst].
Qed.

Lemma prim_due {A} env (act : nat -> World -> Outcome A * World) w t s :
  sigs w = [(t, s)] -> t <= tick w ->
  exists w' evss,
    prim (checkpoint_at env 1) act w = (Raise (SystemExit 0), w')
    /\ processes w' = []
    /\ files w' = close_all (processes w) (files w)
    /\ settled (map handle_of (processes w)) (popens w) (popens w')
    /\ trace w' =
       trace w ++ ESignal s :: EPrint (received_line s) :: concat evss ++ [EClear]
    /\ Forall2 stops (processes w) evss.
Proof.
  intros H Hle. unfold prim, bind. cbn [checkpoint_at]. unfold deliver.
  rewrite H. apply Nat.leb_le in Hle. rewrite Hle.
  destruct (handle_sig_effect env 0 s (emit (ESignal s) (set_sigs [] w)) eq_refl)
    as (w' & evss & E & Hp & Hf & Hs & Ht & Hst).
  cbn [checkpoint_at] in E. rewrite E. exists w', evss.
  norm_in Ht. norm_in Hf. norm_in Hs. norm_in Hst.
  rewrite <- app_assoc in Ht.
  split; [reflexivity|]. split; [exact Hp|]. split; [exact Hf|].
  split; [exact Hs|]. split; [exact Ht | exact Hst].
Qed.

(** X25.  A signal that arrives between the spawn of a unit and its
    registration leaves that child behind.  In the body of the loop of
    [start_all], when the log has been opened and the process spawned
    and the one pending signal is due at the next call, the handler
    runs before the assignment to the registry: it shuts down the units
    registered so far and ends the program with status 0, while the
    process just spawned is in no entry, is never asked to terminate
    and is not known to have exited, and its log stays open. *)
Theorem signal_between_spawn_and_registration env cfg iface w s n :
  sigs w = [(2 + tick w, s)] ->
  os_open env (tick w) = true ->
  os_spawn env (1 + tick w) = Some n ->
  (forall u, In u (processes w) ->
     handle_of u < length (popens w) /\ sink_of u < length (files w)) ->
  exists w' evss,
    start_one env cfg (checkpoint_at env 1) iface w = (Raise (SystemExit 0), w')
    /\ trace w' =
       trace w ++
       [EOpen (stderr_path cfg iface) "ab" (Some (length (files w)));
        EPopen (build_cmd cfg iface (OUTPUT_DIR cfg)) DEVNULL
               (ToFile (length (files w))) (Some (length (popens w)));
        ESignal s; EPrint (received_line s)] ++ concat evss ++ [EClear]
    /\ Forall2 stops (processes w) evss
    /\ ~ In (length (popens w)) (terminates (concat evss))
    /\ processes w' = []
    /\ nth_error (popens w') (length (popens w))
       = Some (child_for cfg iface n (length (files w)))
    /\ is_closed (files w') (length (files w)) = false.
Proof.
  intros Hs Ho Hp Hv.
  unfold start_one, open_, Popen_, setitem.
  unfold bind at 1.
  rewrite (prim_not_due env _ w (2 + tick w) s Hs) by lia.
  rewrite Ho. unfold bind at 1.
  rewrite (prim_not_due env _ _ (2 + tick w) s); [|exact Hs | norm; lia].
  norm. cbn [Nat.add] in Hp. rewrite Hp. unfold bind at 1.
  match goal with
  | |- context [prim _ ?act ?w0] =>
      assert (D : sigs w0 = [(2 + tick w, s)]) by exact Hs;
      assert (L : 2 + tick w <= tick w0) by (norm; lia);
      destruct (prim_due env act w0 (2 + tick w) s D L)
        as (w' & evss & E & Hr & Hf & Hh & Ht & Hst); clear D L
  end.
  rewrite E. exists w', evss. norm_in Ht. norm_in Hf. norm_in Hh. norm_in Hst.
  split; [reflexivity|].
  split; [rewrite Ht; repeat rewrite <- app_assoc; reflexivity|].
  split; [exact Hst|].
  assert (Nh : ~ In (length (popens w)) (map handle_of (processes w))).
  { intros I. apply in_map_iff in I as (u & Eu & Iu).
    destruct (Hv u Iu). lia. }
  assert (Ns : ~ In (length (files w)) (map sink_of (processes w))).
  { intros I. apply in_map_iff in I as (u & Eu & Iu).
    destruct (Hv u Iu). lia. }
  split; [now rewrite (stops_terminates _ _ Hst)|].
  split; [exact Hr|]. split.
  - destruct Hh as [_ Hq]. rewrite (Hq _ Nh). apply nth_error_snoc.
  - rewrite Hf, is_closed_close_all, (existsb_eqb_notin _ _ Ns), orb_false_r.
    unfold is_closed. now rewrite nth_error_snoc.
Qed.

(** A call, when the one pending signal and its time are known: before
    that time the call is made; from then on the handler runs in its
    place. *)
Lemma wp_prim_sched {A} env (act : nat -> World -> Outcome A * World)
      (Q : Outcome A -> World -> Prop) w t s :
  sigs w = [(t, s)] ->
  (tick w < t ->
   let r := act (tick w) (set_tick (S (tick w)) w) in Q (fst r) (snd r)) ->
  (t <= tick w ->
   forall w' evss,
     processes w' = [] ->
     files w' = close_all (processes w) (files w) ->
     settled (map handle_of (processes w)) (popens w) (popens w') ->
     trace w' =
     trace w ++ ESignal s :: EPrint (received_line s) :: concat evss ++ [EClear] ->
     Forall2 stops (processes w) evss ->
     Q (Raise (SystemExit 0)) w') ->
  wp (prim (checkpoint_at env 1) act) Q w.
Proof.
  intros Hs Hcall Hdue. unfold wp.
  destruct (Nat.lt_ge_cases (tick w) t) as [Lt|Ge].
  - rewrite (prim_not_due env act w t s Hs Lt). exact (Hcall Lt).
  - destruct (prim_due env act w t s Hs Ge)
      as (w' & evss & E & Hr & Hf & Hh & Ht & Hst).
    rewrite E. exact (Hdue Ge w' evss Hr Hf Hh Ht Hst).
Qed.

Ltac sched_step Hs :=
  lazymatch goal with
  | |- wp (prim _ _) _ _ =>
      eapply wp_prim_sched;
      [ norm; exact Hs
      | norm; intros ?; try (exfalso; lia); cbv beta zeta
      | norm; intros ? ? ? ? ? ? ? ?; try (exfalso; lia) ]
  | |- _ => wp_step
  end.

(** X26.  A signal that arrives between the spawn of a restart and the
    assignment to the registry leaves the new child behind.  When the
    exit of a unit has been detected, its log closed and opened again
    and the new process spawned, and the one pending signal is due at
    the next call, the handler runs on the registry as it was, with the
    process that has exited, and ends the program with status 0; the
    process just spawned is never asked to terminate and is not known to
    have exited, and its log stays open. *)
Theorem signal_between_respawn_and_registration env cfg iface p f w s code n :
  sigs w = [(6 + tick w, s)] ->
  exit_seen env (tick w) (popens w) p = Some code ->
  os_open env (4 + tick w) = true ->
  os_spawn env (5 + tick w) = Some n ->
  (forall u, In u (processes w) ->
     handle_of u < length (popens w) /\ sink_of u < length (files w)) ->
  exists w' evs evss,
    check_unit env cfg (checkpoint_at env 1) (iface, (p, f)) w
    = (Raise (SystemExit 0), w')
    /\ trace w' =
       trace w ++ evs ++ ESignal s :: EPrint (received_line s)
                      :: concat evss ++ [EClear]
    /\ count_if is_signal evs = 0
    /\ restarting None evs = Some p
    /\ Forall2 stops (processes w) evss
    /\ ~ In (length (popens w)) (terminates (concat evss))
    /\ processes w' = []
    /\ nth_error (popens w') (length (popens w))
       = Some (child_for cfg iface n (length (files w)))
    /\ is_closed (files w') (length (files w)) = false.
Proof.
  intros Hs He Ho Hp Hv.
  assert (Nh : ~ In (length (popens w)) (map handle_of (processes w))).
  { intros I. apply in_map_iff in I as (u & Eu & Iu).
    destruct (Hv u Iu). lia. }
  assert (Ns : ~ In (length (files w)) (map sink_of (processes w))).
  { intros I. apply in_map_iff in I as (u & Eu & Iu).
    destruct (Hv u Iu). lia. }
  cbn [Nat.add] in Ho, Hp.
  assert (W : wp (check_unit env cfg (checkpoint_at env 1) (iface, (p, f)))
                 (fun r w' =>
                    r = Raise (SystemExit 0)
                    /\ exists evs evss,
                         trace w' =
                         trace w ++ evs ++ ESignal s :: EPrint (received_line s)
                                        :: concat evss ++ [EClear]
                         /\ count_if is_signal evs = 0
                         /\ restarting None evs = Some p
                         /\ Forall2 stops (processes w) evss
                         /\ processes w' = []
                         /\ nth_error (popens w') (length (popens w))
                            = Some (child_for cfg iface n (length (files w)))
                         /\ is_closed (files w') (length (files w)) = false) w).
  { unfold check_unit, restart. cbn [fst snd].
    repeat first [ sched_step Hs | progress norm
                 | rewrite He | rewrite Ho | rewrite Hp | case_env ].
    all: split; [reflexivity|].
    all: rewrite ?length_update in *.
    all: match goal with
         | Ht : trace _ = _ |- _ =>
             repeat rewrite <- app_assoc in Ht; cbn [app] in Ht;
             match type of Ht with
             | _ = _ ++ ?a :: ?b :: ?c :: ?d :: ?e :: ?g :: ESignal _ :: _ =>
                 exists [a; b; c; d; e; g], evss
             end;
             split; [exact Ht|]
         end.
    all: split; [reflexivity|]; split; [reflexivity|].
    all: split; [assumption|]; split; [assumption|].
    all: split;
      [ match goal with
        | Hq : settled _ _ _ |- _ => destruct Hq as [_ Hq]; rewrite (Hq _ Nh)
        end;
        apply nth_error_update_snoc
      | match goal with
        | Hf : files _ = _ |- _ => rewrite Hf
        end;
        rewrite is_closed_close_all, (existsb_eqb_notin _ _ Ns), orb_false_r;
        unfold is_closed;
        first [ rewrite nth_error_update_snoc | rewrite nth_error_snoc ];
        reflexivity ]. }
  destruct (wp_result _ _ _ W)
    as (r & w' & E & -> & evs & evss & Ht & Hc & Hrs & Hst & Hpr & Hn & Hcl).
  exists w', evs, evss.
  split; [exact E|]. split; [exact Ht|]. split; [exact Hc|].
  split; [exact Hrs|]. split; [exact Hst|].
  split; [now rewrite (stops_terminates _ _ Hst)|].
  split; [exact Hpr|]. split; [exact Hn | exact Hcl].
Qed.

(** The registry names objects of the heaps only: a check by
    computation. *)
Lemma registry_in_range w :
  forallb (fun u => (handle_of u <? length (popens w))
                    && (sink_of u <? length (files w)))%nat
          (processes w) = true ->
  forall u, In u (processes w) ->
    handle_of u < length (popens w) /\ sink_of u < length (files w).
Proof.
  intros H u Hu.
  pose proof (proj1 (forallb_forall _ _) H u Hu) as B.
  apply andb_prop in B as [B1 B2].
  split; now apply Nat.ltb_lt.
Qed.

(* ================================================================== *)
(** ** Further sample runs *)
(* ================================================================== *)

Lemma settings_lists_tidy_witness :
  Forall tidy ["eth0"; "eth1"; "wlan0"]%string
  /\ Forall tidy ["-n"; "-tttt"]%string.
Proof.
  exact (settings_lists_tidy sample_settings sample_cfg eq_refl).
Defined.

Lemma comma_list_padded_witness :
  Py.comma_list " eth0, ,  wlan0 ," = ["eth0"; "wlan0"]%string.
Proof.
  apply (comma_list_padded loose_entries).
  repeat constructor.
Defined.




Lemma steady_state_witness :
  exists w',
    monitor_loop calm_env sample_cfg (checkpoint_at calm_env 0) 2 started_world
    = (Ok tt, w')
    /\ trace w' =
       trace started_world
       ++ [EPoll 0 None; EPoll 1 None; EPoll 2 None; ESleep 1;
           EPoll 0 None; EPoll 1 None; EPoll 2 None; ESleep 1]
    /\ processes w' = processes started_world
    /\ clock w' = clock started_world + 2.
Proof.
  destruct (steady_state calm_env sample_cfg 0 2 started_world)
    as (r & w' & E & [I|(-> & T & _ & _ & Pr & C)]).
  - intros k. reflexivity.
  - unfold all_running. vm_compute. repeat constructor.
  - exfalso. exact (not_interrupted _ _ started_world_quiet I).
  - exists w'. split; [exact E|]. split; [|split; [exact Pr | exact C]].
    rewrite T. apply f_equal. vm_compute. reflexivity.
Defined.

Lemma registry_stays_in_order_witness :
  supervised sample_cfg started_world
  /\ supervised sample_cfg
       (snd (monitor_loop crashing_env sample_cfg (ret tt) 2 started_world)).
Proof.
  destruct (registry_stays_in_order crashing_env sample_cfg 0 2 (empty_world [])
              started_world
              (fst (monitor_loop crashing_env sample_cfg (ret tt) 2 started_world))
              (snd (monitor_loop crashing_env sample_cfg (ret tt) 2 started_world)))
    as [H1 H2].
  - reflexivity.
  - reflexivity.
  - repeat constructor; cbn; intuition discriminate.
  - vm_compute; reflexivity.
  - vm_compute; reflexivity.
  - split; [exact H1|]. apply H2. vm_compute; reflexivity.
Defined.

Lemma shutdown_leaves_nothing_open_witness :
  map (is_closed
         (files (snd (stop_all crashing_env (ret tt)
                        (snd (monitor_loop crashing_env sample_cfg (ret tt) 1
                                           started_world))))))
      [0; 1; 2; 3; 4; 5]
  = [true; true; true; true; true; true].
Proof.
  destruct (shutdown_leaves_nothing_open crashing_env sample_cfg 0 1
              (empty_world []) started_world
              (snd (monitor_loop crashing_env sample_cfg (ret tt) 1 started_world))
              (fst (stop_all crashing_env (ret tt)
                     (snd (monitor_loop crashing_env sample_cfg (ret tt) 1
                                        started_world))))
              (snd (stop_all crashing_env (ret tt)
                     (snd (monitor_loop crashing_env sample_cfg (ret tt) 1
                                        started_world)))))
    as [[_ N]|(_ & _ & H & _)].
  - reflexivity.
  - reflexivity.
  - repeat constructor; cbn; intuition discriminate.
  - vm_compute; reflexivity.
  - vm_compute; reflexivity.
  - vm_compute; reflexivity.
  - exfalso. apply N. vm_compute; reflexivity.
  - cbn [map]. now rewrite !H.
Defined.


Lemma failed_start_leaves_units_running_witness :
  exists l1 i l2,
    INTERFACES sample_cfg = l1 ++ i :: l2
    /\ processes (snd (start_all spawn_refusing_env sample_cfg (ret tt)
                                 (empty_world [])))
       = registry_after l1 0 0 [].
Proof.
  destruct (failed_start_leaves_units_running spawn_refusing_env sample_cfg 0
              (empty_world []) OSError
              (snd (start_all spawn_refusing_env sample_cfg (ret tt)
                              (empty_world []))))
    as [[_ N]|(_ & l1 & i & l2 & El & _ & Hr & _)].
  - vm_compute; reflexivity.
  - exfalso. apply N. reflexivity.
  - exists l1, i, l2. split; [exact El | exact Hr].
Defined.

Lemma units_have_their_own_files_witness :
  (nth_error (build_cmd sample_cfg "eth0" (OUTPUT_DIR sample_cfg)) 6
   = nth_error (build_cmd sample_cfg "eth1" (OUTPUT_DIR sample_cfg)) 6 ->
   "eth0"%string = "eth1"%string)
  /\ (stderr_path sample_cfg "eth0" = stderr_path sample_cfg "eth1" ->
      "eth0"%string = "eth1"%string)
  /\ nth_error (build_cmd sample_cfg "eth0" (OUTPUT_DIR sample_cfg)) 6
     <> Some (stderr_path sample_cfg "eth1").
Proof.
  exact (units_have_their_own_files sample_cfg "eth0" "eth1" eq_refl eq_refl).
Defined.

Lemma no_interfaces_idles_witness :
  exists w',
    main calm_env idle_cfg (checkpoint_at calm_env 0) 3 (empty_world [])
    = (Ok tt, w')
    /\ popens w' = [] /\ files w' = [] /\ clock w' = 3.
Proof.
  destruct (no_interfaces_idles calm_env idle_cfg 0 3 (empty_world [])
              eq_refl eq_refl)
    as (r & w' & E & [[_ N]|[R|(-> & Hp & Hf & _ & C & _)]]).
  - exfalso. apply N. reflexivity.
  - exfalso. subst r. revert E. vm_compute. discriminate.
  - exists w'. repeat split; assumption.
Defined.

Lemma restarts_are_unbounded_witness :
  exists w' evs,
    monitor_loop crashing_env sample_cfg (checkpoint_at crashing_env 0) 4
                 started_world = (Ok tt, w')
    /\ trace w' = trace started_world ++ evs
    /\ count_if is_detect evs = 12
    /\ clock w' = clock started_world + 28.
Proof.
  destruct (restarts_are_unbounded crashing_env sample_cfg 0 4 started_world)
    as (r & w' & E & [I|(-> & _ & C & evs & T & D & _)]).
  - intros k. discriminate.
  - intros k. reflexivity.
  - intros k. discriminate.
  - exfalso. exact (not_interrupted _ _ started_world_quiet I).
  - exists w', evs. repeat split; assumption.
Defined.


Lemma stopping_exited_children_takes_no_time_witness :
  exists w',
    stop_all stubborn_env (checkpoint_at stubborn_env 0) exited_world
    = (Ok tt, w')
    /\ processes w' = []
    /\ clock w' = clock exited_world.
Proof.
  destruct (stopping_exited_children_takes_no_time stubborn_env 0 exited_world)
    as (r & w' & E & [[_ N]|(-> & Hp & _ & C & _)]).
  - unfold all_exited. vm_compute. repeat constructor; discriminate.
  - exfalso. apply N. vm_compute; reflexivity.
  - exists w'. repeat split; assumption.
Defined.

Lemma started_line_names_the_capture_file_witness :
  exists outfile,
    nth_error (build_cmd sample_cfg "eth0" (OUTPUT_DIR sample_cfg)) 6
    = Some outfile
    /\ started_line sample_cfg "eth0" 4001 =
       ("Started tcpdump for " ++ "eth0" ++ " (pid " ++ Py.str (Z.of_nat 4001)
        ++ "), writing to " ++ outfile ++ "*")%string.
Proof.
  apply (started_line_names_the_capture_file sample_cfg "eth0" 4001 eq_refl).
  vm_compute. discriminate.
Defined.

Lemma signal_between_spawn_and_registration_witness :
  exists w',
    start_one calm_env sample_cfg (checkpoint_at calm_env 1) "eth0"
              (empty_world [(2, SIGTERM)]) = (Raise (SystemExit 0), w')
    /\ processes w' = []
    /\ nth_error (popens w') 0 = Some (child_for sample_cfg "eth0" 4001 0)
    /\ is_closed (files w') 0 = false.
Proof.
  destruct (signal_between_spawn_and_registration calm_env sample_cfg "eth0"
              (empty_world [(2, SIGTERM)]) SIGTERM 4001
              eq_refl eq_refl eq_refl)
    as (w' & evss & E & _ & _ & _ & Hr & Hp & Hf).
  - intros u [].
  - exists w'. repeat split; assumption.
Defined.

Lemma signal_between_respawn_and_registration_witness :
  exists w',
    check_unit crashing_env sample_cfg (checkpoint_at crashing_env 1)
               ("eth1"%string, (1, 1)) restart_race_world
    = (Raise (SystemExit 0), w')
    /\ processes w' = []
    /\ nth_error (popens w') 3 = Some (child_for sample_cfg "eth1" 4017 3)
    /\ is_closed (files w') 3 = false.
Proof.
  destruct (signal_between_respawn_and_registration crashing_env sample_cfg
              "eth1" 1 1 restart_race_world SIGTERM 1%Z 4017)
    as (w' & evs & evss & E & _ & _ & _ & _ & _ & Hr & Hp & Hf).
  - vm_compute; reflexivity.
  - vm_compute; reflexivity.
  - vm_compute; reflexivity.
  - vm_compute; reflexivity.
  - apply registry_in_range. vm_compute; reflexivity.
  - assert (L1 : length (popens restart_race_world) = 3)
      by (vm_compute; reflexivity).
    assert (L2 : length (files restart_race_world) = 3)
      by (vm_compute; reflexivity).
    rewrite L1, L2 in Hp. rewrite L2 in Hf.
    exists w'. split; [exact E|]. split; [exact Hr|]. split; assumption.
Defined.
